(** * Flappy Capybara: the Level, Capy and FlappyCapy classes of src/index.js

    A shallow embedding of the game logic and the properties its
    specification states about it.

    Conventions of the embedding.
    - A JavaScript number is a rational ([number := Q]): every finite
      double is one.  [round64] rounds a rational to the nearest double,
      ties to even, as IEEE-754 binary64 does.  The operations of the
      source whose operands need not be whole numbers are followed by it
      ([add64], [sub64], [mul64]): the gap [randomPipe] computes from
      [Math.random()], the velocity and the position [moveCapy]
      integrates, the image offsets of [drawPipes]; and GRAVITY is the
      double nearest to 0.4.  The arithmetic on pixel positions, counters
      and the score is on whole numbers when the size of the canvas is
      one, where doubles are exact; it is written without rounding, as
      are the quotients and sums that [Capy]'s constructor, [bounds] and
      [outOfBounds] only place and compare.  NaN and the infinities are
      not modelled.  Equality of numbers is [Qeq] ([==]).
    - A method is a function of its receiver [this] and its arguments into
      the monad [JS], which threads the state of the browser the code talks
      to (the values [Math.random] hands out, the [alert] boxes shown, the
      callbacks handed to [requestAnimationFrame]) and an exception.  A
      method that assigns to fields of [this] returns the updated receiver.
    - Canvas drawing and the audio elements only consume values; they are
      left out of the methods that call them.  What the drawing code does
      to the state of the objects (the sprite counter, the background
      strip) is kept, and [drawPipes] is modelled on its own, with the
      [drawImage] calls it makes recorded in order. *)

From Stdlib Require Import QArith Qabs Qround Qpower Lqa ZArith List Sorted Lia Bool Morphisms.
From Stdlib Require Import PrimFloat SpecFloat FloatOps.
Import ListNotations.

Local Open Scope Q_scope.

(* ------------------------------------------------------------------ *)
(** * Numbers *)

Definition number : Type := Q.

(** [a < b], [a > b], [a <= b] and [a === b] of the source, as booleans. *)
Definition ltb (a b : number) : bool := negb (Qle_bool b a).
Definition gtb (a b : number) : bool := ltb b a.
Definition leb (a b : number) : bool := Qle_bool a b.
Definition strict_eqb (a b : number) : bool := Qeq_bool a b.

Definition Math_abs (a : number) : number := Qabs a.

(* ------------------------------------------------------------------ *)
(** * Rounding to a double *)

(** [2^e], for an exponent of either sign. *)
Definition pow2 (e : Z) : Q := 2 ^ e.

(** The integer part of the binary logarithm of [x > 0]. *)
Definition floorLog2 (x : Q) : Z :=
  let k := (Z.log2 (Qnum x) - Z.log2 (Zpos (Qden x)))%Z in
  if Qle_bool (pow2 k) x then k else (k - 1)%Z.

(** The integer nearest to [y]; of two equally near, the even one. *)
Definition nearestEven (y : Q) : Z :=
  let f := Qfloor y in
  match Qcompare (y - inject_Z f) (1 # 2) with
  | Lt => f
  | Gt => (f + 1)%Z
  | Eq => if Z.even f then f else (f + 1)%Z
  end.

(** The exponent of the last place of a double near [x > 0]: 53 bits of
    mantissa, with the subnormal numbers below [2^-1022]. *)
Definition exponent64 (x : Q) : Z := Z.max (-1074) (floorLog2 x - 52).

Definition roundMagnitude (x : Q) : Q :=
  let e := exponent64 x in
  inject_Z (nearestEven (x * pow2 (- e))) * pow2 e.

(** The double nearest to [x], ties to even: what an arithmetic operation
    of the source returns when its exact result is [x].  A double is a
    rational; only the overflow to Infinity, beyond [2^1024], has no
    counterpart here. *)
Definition round64 (x : Q) : Q :=
  match Qcompare x 0 with
  | Eq => 0
  | Gt => roundMagnitude x
  | Lt => - roundMagnitude (- x)
  end.

Arguments pow2 : simpl never.
Arguments floorLog2 : simpl never.
Arguments nearestEven : simpl never.
Arguments exponent64 : simpl never.
Arguments roundMagnitude : simpl never.
Arguments round64 : simpl never.

(** [x] is a double. *)
Definition isDouble (x : Q) : Prop := round64 x == x.

(** The doubles of the kernel's own binary64 arithmetic, to compare
    [round64] with: [f] is finite and its value is [q]. *)
Definition valueOf (f : float) : option Q :=
  match Prim2SF f with
  | S754_zero _ => Some 0
  | S754_finite negative m e =>
      Some ((if negative then - (1) else 1) * inject_Z (Zpos m) * pow2 e)
  | _ => None
  end.

Definition hasValue (f : float) (q : Q) : Prop :=
  match valueOf f with
  | Some v => v == q
  | None => False
  end.

(** The arithmetic of the source where an operand need not be a whole
    number: the exact result, rounded to the nearest double. *)
Definition add64 (a b : number) : number := round64 (a + b).
Definition sub64 (a b : number) : number := round64 (a - b).
Definition mul64 (a b : number) : number := round64 (a * b).

(* ------------------------------------------------------------------ *)
(** * The browser and the monad of effects *)

Inductive JSError : Type := TypeError.

(** [OutOfFuel] is not a JavaScript result: it marks a run of the model
    that was cut off before the call returned. *)
Inductive outcome (A : Type) : Type :=
| Returns (a : A)
| Throws (e : JSError)
| OutOfFuel.
Arguments Returns {A} a.
Arguments Throws {A} e.
Arguments OutOfFuel {A}.

(** The two methods the game hands to [requestAnimationFrame]. *)
Inductive Callback : Type := AnimateCallback | AnimateLevelBackgroundCallback.

Record Browser : Type := mkBrowser {
  entropy : nat -> number;     (* the n-th value Math.random() returns *)
  drawn : nat;                 (* how many values were handed out *)
  alerts : list number;        (* the scores shown by alert(), oldest first *)
  frameRequests : list Callback (* callbacks requested, oldest first *)
}.

Definition JS (A : Type) : Type := Browser -> outcome (A * Browser).

Definition ret {A} (a : A) : JS A := fun b => Returns (a, b).

Definition bind {A B} (c : JS A) (k : A -> JS B) : JS B :=
  fun b => match c b with
           | Returns (a, b') => k a b'
           | Throws e => Throws e
           | OutOfFuel => OutOfFuel
           end.

Definition throw {A} (e : JSError) : JS A := fun _ => Throws e.

Declare Scope js_scope.
Delimit Scope js_scope with js.
Notation "x <- c ;; k" := (bind c (fun x => k))
  (at level 61, c at next level, right associativity) : js_scope.
Notation "' pat <- c ;; k" := (bind c (fun x => match x with pat => k end))
  (at level 61, pat pattern, c at next level, right associativity) : js_scope.
Notation "c ;;; k" := (bind c (fun _ => k))
  (at level 61, right associativity) : js_scope.
Local Open Scope js_scope.

(** The number of [Math.random()] calls made so far. *)
Definition randomCalls : JS nat := fun b => Returns (drawn b, b).

Definition Math_random : JS number :=
  fun b => Returns (entropy b (drawn b),
                    mkBrowser (entropy b) (S (drawn b)) (alerts b) (frameRequests b)).

Definition alert (shown : number) : JS unit :=
  fun b => Returns (tt, mkBrowser (entropy b) (drawn b) (alerts b ++ [shown]) (frameRequests b)).

Definition requestAnimationFrame (cb : Callback) : JS unit :=
  fun b => Returns (tt, mkBrowser (entropy b) (drawn b) (alerts b) (frameRequests b ++ [cb])).

(** [Array.prototype.forEach] with a callback that may assign to fields of
    the element it is given and to the variables [S] it closes over. *)
Fixpoint forEach {A S : Type} (callback : A -> S -> JS (A * S))
         (array : list A) (s : S) : JS (list A * S) :=
  match array with
  | [] => ret ([], s)
  | x :: rest =>
      '(x', s') <- callback x s ;;
      '(rest', s'') <- forEach callback rest s' ;;
      ret (x' :: rest', s'')
  end.

(** What [forEach] computes when the callback has no effect on the
    browser: a left-to-right pass that rewrites the elements and threads
    the closed-over state. *)
Fixpoint mapAccum {A S : Type} (f : A -> S -> A * S) (xs : list A) (s : S) : list A * S :=
  match xs with
  | [] => ([], s)
  | x :: rest =>
      let '(x', s') := f x s in
      let '(rest', s'') := mapAccum f rest s' in
      (x' :: rest', s'')
  end.

(* ------------------------------------------------------------------ *)
(** * Constants *)

Module CONSTANTS.
Definition HORIZONTAL_PIPE_SPACING : number := 220.
Definition PIPE_GAP : number := 150.
Definition WARMUP_SECONDS : number := 1.
Definition EDGE_BUFFER : number := 50.
Definition PIPE_WIDTH : number := 50.
Definition PIPE_SPEED : number := 2.
Definition PIPE_IMAGE_HEIGHT : number := 640.
Definition BACKGROUND_SPEED : number := 1.
End CONSTANTS.

(** The literal [0.4] is not a double: it denotes the nearest one. *)
Module CONST.
Definition CAPY_WIDTH : number := 45.
Definition CAPY_HEIGHT : number := 33.
Definition GRAVITY : number := round64 0.4.
Definition FLAP_SPEED : number := 7.5.
Definition TERMINAL_VEL : number := 12.
Definition ANIMATED_FLAP_SPEED : number := 5.
End CONST.

(* ------------------------------------------------------------------ *)
(** * Plain objects *)

Record Dimensions : Type := mkDimensions { width : number; height : number }.

Module Rect.
Record t : Type := mk { left : number; right : number; top : number; bottom : number }.
End Rect.

(** [serial] is not a field of the source object.  It stands for the
    identity of the object: the index of the [Math.random()] call made by
    the [randomPipe] call that created it.  No method reads it. *)
Module Pipe.
Record t : Type := mk {
  topPipe : Rect.t;
  bottomPipe : Rect.t;
  passed : bool;
  serial : nat
}.
End Pipe.

Record Background : Type := mkBackground { pos : number }.

(* ------------------------------------------------------------------ *)
(** * class Capy *)

Module Capy.
Import CONST.

Inductive Sprite : Type := capySprite1 | capySprite2 | capySprite3.

Record t : Type := mk {
  dimensions : Dimensions;
  x : number;
  y : number;
  vel : number;
  capyCounter : number
}.

Definition constructor (dimensions : Dimensions) : t :=
  {| dimensions := dimensions;
     x := width dimensions / 3;
     y := height dimensions / 2;
     vel := 0;
     capyCounter := 0 |}.

(** [moveCapy()]: the two sums are computed in doubles. *)
Definition moveCapy (this : t) : t :=
  let y1 := add64 (y this) (vel this) in
  let vel1 := add64 (vel this) GRAVITY in
  let vel2 :=
    if gtb (Math_abs vel1) TERMINAL_VEL then
      match gtb vel1 0 with
      | true => TERMINAL_VEL
      | false => TERMINAL_VEL * -1
      end
    else vel1 in
  mk (dimensions this) (x this) y1 vel2 (capyCounter this).

Definition flap (this : t) : t :=
  mk (dimensions this) (x this) (y this) (FLAP_SPEED * -1) (capyCounter this).

Definition bounds (this : t) : Rect.t :=
  {| Rect.left := x this;
     Rect.right := x this + CAPY_WIDTH;
     Rect.top := y this;
     Rect.bottom := y this + CAPY_HEIGHT |}.

Definition outOfBounds (this : t) : bool :=
  let aboveTop := ltb (y this) 0 in
  let belowBottom := gtb (y this + CAPY_HEIGHT) (height (dimensions this)) in
  aboveTop || belowBottom.

(** [drawCapy] picks the sprite by the counter; [ctx.drawImage] is given
    [undefined] and throws when no branch assigns [sprite]. *)
Definition drawCapy (this : t) : JS t :=
  let c := capyCounter this + 1 in
  let '(c', sprite) :=
    if leb c (ANIMATED_FLAP_SPEED * 1) then (c, Some capySprite1)
    else if leb c (ANIMATED_FLAP_SPEED * 2) then (c, Some capySprite2)
    else if leb c (ANIMATED_FLAP_SPEED * 3) then (c, Some capySprite3)
    else if leb c (ANIMATED_FLAP_SPEED * 4) then (0, Some capySprite2)
    else (c, None) in
  let this' := mk (dimensions this) (x this) (y this) (vel this) c' in
  match sprite with
  | Some _ => ret this'
  | None => throw TypeError
  end.

Definition animate (this : t) : JS t := drawCapy (moveCapy this).
End Capy.

(** A call of one of the two methods that assign to the velocity. *)
Inductive CapyCall : Type := CallMoveCapy | CallFlap.

Definition callCapy (this : Capy.t) (c : CapyCall) : Capy.t :=
  match c with
  | CallMoveCapy => Capy.moveCapy this
  | CallFlap => Capy.flap this
  end.

(** The states a Capy goes through: the receiver after each call of the
    sequence, in order. *)
Fixpoint capyStates (this : Capy.t) (calls : list CapyCall) : list Capy.t :=
  match calls with
  | [] => []
  | c :: rest => callCapy this c :: capyStates (callCapy this c) rest
  end.

(* ------------------------------------------------------------------ *)
(** * class Level *)

Module Level.
Import CONSTANTS.

Record t : Type := mk {
  dimensions : Dimensions;
  pipes : list Pipe.t;
  backgroundQueue : list Background;
  appendBackground : bool
}.

Definition set_pipes (this : t) (ps : list Pipe.t) : t :=
  mk (dimensions this) ps (backgroundQueue this) (appendBackground this).
Definition set_backgroundQueue (this : t) (q : list Background) : t :=
  mk (dimensions this) (pipes this) q (appendBackground this).
Definition set_appendBackground (this : t) (a : bool) : t :=
  mk (dimensions this) (pipes this) (backgroundQueue this) a.

(** [randomPipe(distance)]: the vertical extent of the gap is computed in
    doubles from the random value, each operation rounded. *)
Definition randomPipe (distance : number) (this : t) : JS Pipe.t :=
  let heightRange :=
    sub64 (sub64 (height (dimensions this)) (2 * EDGE_BUFFER)) PIPE_GAP in
  serial <- randomCalls ;;
  random <- Math_random ;;
  let topOfGap := add64 (mul64 random heightRange) EDGE_BUFFER in
  let pipe :=
    {| Pipe.topPipe :=
         {| Rect.left := distance;
            Rect.right := PIPE_WIDTH + distance;
            Rect.top := 0;
            Rect.bottom := topOfGap |};
       Pipe.bottomPipe :=
         {| Rect.left := distance;
            Rect.right := PIPE_WIDTH + distance;
            Rect.top := add64 topOfGap PIPE_GAP;
            Rect.bottom := height (dimensions this) |};
       Pipe.passed := false;
       Pipe.serial := serial |} in
  ret pipe.

Definition makeBackground (this : t) : JS (Background * t) :=
  let background := {| pos := 480 - 1920 |} in
  if appendBackground this
  then ret ({| pos := 480 |}, set_appendBackground this false)
  else ret (background, this).

(** While the constructor runs, the fields not yet assigned are
    [undefined]: [pipes] and [backgroundQueue] are not read before they
    are assigned, and [appendBackground] is read by [makeBackground],
    where [undefined] counts as false. *)
Definition constructor (dimensions : Dimensions) : JS t :=
  let this := mk dimensions [] [] false in
  let firstPipeDistance :=
    width dimensions + (WARMUP_SECONDS * 60 * PIPE_SPEED) in
  pipe0 <- randomPipe firstPipeDistance this ;;
  pipe1 <- randomPipe (firstPipeDistance + HORIZONTAL_PIPE_SPACING) this ;;
  pipe2 <- randomPipe (firstPipeDistance + (2 * HORIZONTAL_PIPE_SPACING)) this ;;
  let this := set_pipes this [pipe0; pipe1; pipe2] in
  '(backgroundFirst, this) <- makeBackground this ;;
  let this := set_backgroundQueue this [backgroundFirst] in
  ret (set_appendBackground this true).

Definition eachPipe {S : Type} (callback : Pipe.t -> S -> JS (Pipe.t * S))
           (this : t) (s : S) : JS (t * S) :=
  '(ps, s') <- forEach callback (pipes this) s ;;
  ret (set_pipes this ps, s').

(** The callback of [movePipes]: the four assignments [-= PIPE_SPEED]. *)
Definition movePipe (pipe : Pipe.t) : Pipe.t :=
  let tp := Pipe.topPipe pipe in
  let bp := Pipe.bottomPipe pipe in
  {| Pipe.topPipe :=
       Rect.mk (Rect.left tp - PIPE_SPEED) (Rect.right tp - PIPE_SPEED)
               (Rect.top tp) (Rect.bottom tp);
     Pipe.bottomPipe :=
       Rect.mk (Rect.left bp - PIPE_SPEED) (Rect.right bp - PIPE_SPEED)
               (Rect.top bp) (Rect.bottom bp);
     Pipe.passed := Pipe.passed pipe;
     Pipe.serial := Pipe.serial pipe |}.

(** [this.pipes[i].topPipe] throws a TypeError when [this.pipes[i]] is
    [undefined]. *)
Definition pipeAt (this : t) (i : nat) : JS Pipe.t :=
  match nth_error (pipes this) i with
  | Some pipe => ret pipe
  | None => throw TypeError
  end.

Definition movePipes (this : t) : JS t :=
  '(this, _) <- eachPipe (fun pipe (_ : unit) => ret (movePipe pipe, tt)) this tt ;;
  front <- pipeAt this 0 ;;
  if leb (Rect.right (Pipe.topPipe front)) 0 then
    let this := set_pipes this (tl (pipes this)) in
    last <- pipeAt this 1 ;;
    let newXOffset := Rect.left (Pipe.topPipe last) + HORIZONTAL_PIPE_SPACING in
    pipe <- randomPipe newXOffset this ;;
    ret (set_pipes this (pipes this ++ [pipe]))
  else ret this.

Definition moveAnimatedBackground (this : t) : JS t :=
  match nth_error (backgroundQueue this) 0 with
  | None => throw TypeError
  | Some first =>
      this <-
        (if strict_eqb (pos first) (480 - 1920) then
           '(background, this) <- makeBackground this ;;
           let this := set_backgroundQueue this (backgroundQueue this ++ [background]) in
           ret (set_appendBackground this true)
         else if strict_eqb (pos first) (-1920) then
           ret (set_backgroundQueue this (tl (backgroundQueue this)))
         else ret this) ;;
      ret (set_backgroundQueue this
             (map (fun background => {| pos := pos background - BACKGROUND_SPEED |})
                  (backgroundQueue this)))
  end.

(** [animate(ctx)]: [movePipes] then [drawPipes], which only draws. *)
Definition animate (this : t) : JS t := movePipes this.

Definition animateBackground (this : t) : JS t := moveAnimatedBackground this.

Definition _overlap (pipe capy : Rect.t) : bool :=
  if gtb (Rect.left pipe) (Rect.right capy) || ltb (Rect.right pipe) (Rect.left capy)
  then false
  else if gtb (Rect.top pipe) (Rect.bottom capy) || ltb (Rect.bottom pipe) (Rect.top capy)
  then false
  else true.

Definition collidesWith (capyBound : Rect.t) (this : t) : JS (bool * t) :=
  let collision := false in
  '(this, collision) <-
    eachPipe (fun pipe collision =>
                if _overlap (Pipe.topPipe pipe) capyBound
                   || _overlap (Pipe.bottomPipe pipe) capyBound
                then ret (pipe, true)
                else ret (pipe, collision)) this collision ;;
  ret (collision, this).

(** [callback] is the function handed in by the caller; [S] is the state
    it assigns to. *)
Definition passedPipe {S : Type} (capy : Rect.t) (callback : S -> JS S)
           (this : t) (s : S) : JS (t * S) :=
  eachPipe (fun pipe s =>
              if ltb (Rect.right (Pipe.topPipe pipe)) (Rect.left capy) then
                if negb (Pipe.passed pipe) then
                  let pipe := Pipe.mk (Pipe.topPipe pipe) (Pipe.bottomPipe pipe) true
                                      (Pipe.serial pipe) in
                  s <- callback s ;;
                  ret (pipe, s)
                else ret (pipe, s)
              else ret (pipe, s)) this s.
End Level.

(* ------------------------------------------------------------------ *)
(** * class FlappyCapy *)

Module FlappyCapy.

Record t : Type := mk {
  dimensions : Dimensions;
  level : Level.t;
  capy : Capy.t;
  score : number;
  running : bool;
  backgroundRunning : bool
}.

Definition set_level (this : t) (l : Level.t) : t :=
  mk (dimensions this) l (capy this) (score this) (running this) (backgroundRunning this).
Definition set_capy (this : t) (c : Capy.t) : t :=
  mk (dimensions this) (level this) c (score this) (running this) (backgroundRunning this).
Definition set_score (this : t) (s : number) : t :=
  mk (dimensions this) (level this) (capy this) s (running this) (backgroundRunning this).
Definition set_running (this : t) (r : bool) : t :=
  mk (dimensions this) (level this) (capy this) (score this) r (backgroundRunning this).
Definition set_backgroundRunning (this : t) (r : bool) : t :=
  mk (dimensions this) (level this) (capy this) (score this) (running this) r.

Definition gameOver (this : t) : JS (bool * t) :=
  '(collides, queried) <- Level.collidesWith (Capy.bounds (capy this)) (level this) ;;
  ret (collides || Capy.outOfBounds (capy this), set_level this queried).

Definition animateLevelBackground (this : t) : JS t :=
  scrolled <- Level.animateBackground (level this) ;;
  let this := set_level this scrolled in
  let this := if running this
              then set_capy this (Capy.moveCapy (capy this))
              else this in
  drawn <- Capy.drawCapy (capy this) ;;
  let this := set_capy this drawn in
  requestAnimationFrame AnimateLevelBackgroundCallback ;;;
  ret this.

(** [restart] and [animate] call each other.  [restart] is written over
    the [animate] it calls, and [animate] recurses on a bound [fuel] on
    the depth of the calls. *)
Definition restart (animate : t -> JS t) (this : t) : JS t :=
  let this := set_running this false in
  fresh <- Level.constructor (dimensions this) ;;
  let this := set_level this fresh in
  let this := set_capy this (Capy.constructor (dimensions this)) in
  this <-
    (if negb (backgroundRunning this) then
       this <- animateLevelBackground this ;;
       ret (set_backgroundRunning this true)
     else ret this) ;;
  let this := set_score this 0 in
  animate this.

Fixpoint animate (fuel : nat) (this : t) : JS t :=
  match fuel with
  | O => fun _ => OutOfFuel
  | S fuel =>
      moved <- Level.animate (level this) ;;
      let this := set_level this moved in
      '(over, this) <- gameOver this ;;
      this <-
        (if over then
           alert (score this) ;;;
           restart (animate fuel) this
         else ret this) ;;
      '(queried, counted) <-
        Level.passedPipe (Capy.bounds (capy this))
                         (fun counter => ret (counter + 1))
                         (level this) (score this) ;;
      let this := set_score (set_level this queried) counted in
      if running this then
        requestAnimationFrame AnimateCallback ;;;
        ret this
      else ret this
  end.

Definition play (fuel : nat) (this : t) : JS t :=
  animate fuel (set_running this true).

(** The listener [registerEvents] attaches to "mousedown". *)
Definition mousedown (fuel : nat) (this : t) : JS t :=
  this <- (if negb (running this) then play fuel this else ret this) ;;
  ret (set_capy this (Capy.flap (capy this))).

(** [constructor(canvas, audioObj)]: [dimensions] are the canvas's width
    and height; [registerEvents] sets [backgroundRunning]; [restart]
    assigns the remaining fields before it reads them, so what stands for
    them here is never looked at. *)
Definition constructor (fuel : nat) (dimensions : Dimensions) : JS t :=
  let this :=
    {| dimensions := dimensions;
       level := Level.mk dimensions [] [] false;
       capy := Capy.constructor dimensions;
       score := 0;
       running := false;
       backgroundRunning := false |} in
  restart (animate fuel) this.
End FlappyCapy.

(* ------------------------------------------------------------------ *)
(** * Vocabulary of the specification *)

(** A pair's horizontal edges are those of its top sub-pipe; its gap lies
    between the bottom of the top sub-pipe and the top of the bottom one. *)
Definition leftEdge (pipe : Pipe.t) : number := Rect.left (Pipe.topPipe pipe).
Definition rightEdge (pipe : Pipe.t) : number := Rect.right (Pipe.topPipe pipe).
Definition gapTop (pipe : Pipe.t) : number := Rect.bottom (Pipe.topPipe pipe).
Definition gapBottom (pipe : Pipe.t) : number := Rect.top (Pipe.bottomPipe pipe).

(** The two rectangles of a pair, without its flag and identity. *)
Definition rectangles (pipe : Pipe.t) : Rect.t * Rect.t :=
  (Pipe.topPipe pipe, Pipe.bottomPipe pipe).

(** Every pair starts HORIZONTAL_PIPE_SPACING to the right of the pair
    before it in the sequence. *)
Fixpoint spaced (ps : list Pipe.t) : Prop :=
  match ps with
  | [] => True
  | a :: rest =>
      match rest with
      | [] => True
      | b :: _ => leftEdge b - leftEdge a == CONSTANTS.HORIZONTAL_PIPE_SPACING
      end /\ spaced rest
  end.

(** Front to back, every pair was created before the next one. *)
Definition oldestFirst (ps : list Pipe.t) : Prop :=
  StronglySorted lt (map Pipe.serial ps).

(** A Level after [n] frames: [new Level(dimensions)] then [n] calls of
    [movePipes()]. *)
Fixpoint frames (n : nat) (this : Level.t) : JS Level.t :=
  match n with
  | O => ret this
  | S n => this <- Level.movePipes this ;; frames n this
  end.

Definition levelAfter (n : nat) (dimensions : Dimensions) : JS Level.t :=
  this <- Level.constructor dimensions ;; frames n this.

(** What holds of a Level and the browser between frames: three pairs,
    evenly spaced, in the order of their creation, the last of them the
    pair created most recently. *)
Definition levelInvariant (this : Level.t) (b : Browser) : Prop :=
  exists p0 p1 p2,
    Level.pipes this = [p0; p1; p2]
    /\ spaced [p0; p1; p2]
    /\ (Pipe.serial p0 < Pipe.serial p1 < Pipe.serial p2)%nat
    /\ S (Pipe.serial p2) = drawn b.

(** Two rectangles overlap unless one lies strictly to the left of, to the
    right of, above or below the other. *)
Definition strictlyApart (p c : Rect.t) : Prop :=
  Rect.right p < Rect.left c \/ Rect.right c < Rect.left p \/
  Rect.bottom p < Rect.top c \/ Rect.bottom c < Rect.top p.

Definition overlap (p c : Rect.t) : Prop := ~ strictlyApart p c.

(** The pairs [passedPipe] calls back for: right edge strictly left of the
    character's left edge, and not yet marked. *)
Definition justPassed (capy : Rect.t) (pipe : Pipe.t) : bool :=
  ltb (rightEdge pipe) (Rect.left capy) && negb (Pipe.passed pipe).

Definition markPassed (capy : Rect.t) (pipe : Pipe.t) : Pipe.t :=
  if justPassed capy pipe
  then Pipe.mk (Pipe.topPipe pipe) (Pipe.bottomPipe pipe) true (Pipe.serial pipe)
  else pipe.

(** [n] calls of [callback], one after the other. *)
Fixpoint callTimes {S : Type} (n : nat) (callback : S -> JS S) (s : S) : JS S :=
  match n with
  | O => ret s
  | S n => s <- callback s ;; callTimes n callback s
  end.

(** The field is too low for the gap and both edge buffers. *)
Definition malformed (d : Dimensions) : Prop :=
  CONSTANTS.PIPE_GAP + 2 * CONSTANTS.EDGE_BUFFER > height d.

(** The size of a canvas: a whole number of pixels (an unsigned long of
    the DOM). *)
Definition pixels (x : number) : Prop :=
  exists n : Z, (0 <= n < 2 ^ 32)%Z /\ x == inject_Z n.

(** [Math.random()] returns values in [0, 1). *)
Definition uniform (b : Browser) : Prop :=
  forall n, 0 <= entropy b n /\ entropy b n < 1.

(** Level construction fails fast: it throws instead of returning. *)
Definition failsFast (d : Dimensions) (b : Browser) : Prop :=
  exists e, Level.constructor d b = Throws e.

(** What the browser calls into after the constructor returned. *)
Inductive Event : Type :=
| AnimationFrame (cb : Callback)
| MouseDown.

Definition handle (fuel : nat) (e : Event) (this : FlappyCapy.t) : JS FlappyCapy.t :=
  match e with
  | AnimationFrame AnimateCallback => FlappyCapy.animate fuel this
  | AnimationFrame AnimateLevelBackgroundCallback => FlappyCapy.animateLevelBackground this
  | MouseDown => FlappyCapy.mousedown fuel this
  end.

Fixpoint handleAll (fuel : nat) (events : list Event) (this : FlappyCapy.t) : JS FlappyCapy.t :=
  match events with
  | [] => ret this
  | e :: rest => this <- handle fuel e this ;; handleAll fuel rest this
  end.

(** A run: [new FlappyCapy(canvas, audioObj)] and then any sequence of
    events, each handled to its end. *)
Definition run (fuel : nat) (dimensions : Dimensions) (events : list Event) : JS FlappyCapy.t :=
  this <- FlappyCapy.constructor fuel dimensions ;; handleAll fuel events this.

Definition reachable (dimensions : Dimensions) (this : FlappyCapy.t) (b : Browser) : Prop :=
  exists fuel events b0, run fuel dimensions events b0 = Returns (this, b).

(** The fields a handler never assigns after the constructor: the
    dimensions stay, and [backgroundRunning], once set, stays set. *)
Definition keeps (this this' : FlappyCapy.t) : Prop :=
  FlappyCapy.dimensions this' = FlappyCapy.dimensions this
  /\ (FlappyCapy.backgroundRunning this = true -> FlappyCapy.backgroundRunning this' = true).

(** The pair is still ahead of the character: both sub-pipes start right of
    the character's right edge. *)
Definition ahead (capyBound : Rect.t) (pipe : Pipe.t) : Prop :=
  Rect.right capyBound < Rect.left (Pipe.topPipe pipe)
  /\ Rect.right capyBound < Rect.left (Pipe.bottomPipe pipe)
  /\ Rect.left capyBound <= Rect.right (Pipe.topPipe pipe).

(** The game-over predicate holds in the frame that starts in [this]: after
    the Level was advanced, [gameOver()] returns true. *)
Definition gameOverInFrame (this : FlappyCapy.t) (b : Browser) : Prop :=
  exists moved b1 this' b2,
    Level.animate (FlappyCapy.level this) b = Returns (moved, b1) /\
    FlappyCapy.gameOver (FlappyCapy.set_level this moved) b1 = Returns ((true, this'), b2).

(* ------------------------------------------------------------------ *)
(** * A concrete game *)

Module Scenario.
(** The canvas of the game's page, and one too low for the gap. *)
Definition canvas : Dimensions := {| width := 480; height := 640 |}.
Definition lowCanvas : Dimensions := {| width := 480; height := 100 |}.

(** A browser whose [Math.random()] always returns one half. *)
Definition browser : Browser :=
  {| entropy := fun _ => 1 # 2; drawn := 0; alerts := []; frameRequests := [] |}.

(** A browser whose [Math.random()] always returns [r], and the largest
    double below 1. *)
Definition browserOf (r : number) : Browser :=
  {| entropy := fun _ => r; drawn := 0; alerts := []; frameRequests := [] |}.
Definition almostOne : number := 1 - pow2 (-53).

(** A pair at [distance] with its gap from 245 to 395. *)
Definition pipeAt (distance : number) (passed : bool) (serial : nat) : Pipe.t :=
  {| Pipe.topPipe := Rect.mk distance (distance + 50) 0 245;
     Pipe.bottomPipe := Rect.mk distance (distance + 50) 395 640;
     Pipe.passed := passed;
     Pipe.serial := serial |}.

(** A Level whose front pair leaves the field in the next frame. *)
Definition level : Level.t :=
  {| Level.dimensions := canvas;
     Level.pipes := [pipeAt (-48) true 3; pipeAt 172 false 4; pipeAt 392 false 5];
     Level.backgroundQueue := [{| pos := -100 |}];
     Level.appendBackground := true |}.

(** The collision scenario of the specification. *)
Definition characterBounds : Rect.t := Rect.mk 100 145 0 33.
Definition scenarioPipe : Pipe.t :=
  {| Pipe.topPipe := Rect.mk 90 140 0 50;
     Pipe.bottomPipe := Rect.mk 90 140 200 640;
     Pipe.passed := false;
     Pipe.serial := 0 |}.
Definition scenarioLevel : Level.t :=
  {| Level.dimensions := canvas;
     Level.pipes := [scenarioPipe; pipeAt 310 false 1; pipeAt 530 false 2];
     Level.backgroundQueue := [{| pos := -100 |}];
     Level.appendBackground := true |}.


(** A press of the mouse, then the background loop's frame. *)
Fixpoint flapping (n : nat) : list Event :=
  match n with
  | O => []
  | S n => MouseDown :: AnimationFrame AnimateLevelBackgroundCallback :: flapping n
  end.

(** A session that lets the first pair go by, which scores a point, and
    then flaps up to the top of the field. *)
Definition session : list Event :=
  MouseDown :: repeat (AnimationFrame AnimateCallback) 246 ++ flapping 43.
End Scenario.

(* ------------------------------------------------------------------ *)
(** * Vocabulary of the game between frames *)
(** How often: a count of calls as a number. *)
Definition times (n : nat) : number := inject_Z (Z.of_nat n).


(** [n] calls of a method, each on the receiver the call before returned. *)
Fixpoint repeatCall {A : Type} (n : nat) (method : A -> JS A) (this : A) : JS A :=
  match n with
  | O => ret this
  | S n => this <- method this ;; repeatCall n method this
  end.

(** The strip at position [k], a whole number of pixels. *)
Definition stripAt (k : Z) (background : Background) : Prop :=
  pos background == inject_Z k.

(** The strips of the queue lie side by side, each 1920 wide, the width
    the positions [480 - 1920] and [-1920] of the source stand for, and
    together they cover the 480 columns of the canvas. *)
Definition coversCanvas (queue : list Background) : Prop :=
  match queue with
  | [a] => pos a <= 0 /\ 480 <= pos a + 1920
  | [a; c] => pos a <= 0 /\ pos c == pos a + 1920 /\ 480 <= pos c + 1920
  | _ => False
  end.

(** What holds of the background between frames: [appendBackground] is
    set, and the queue holds either one strip, at -1440 to -1, or two
    strips side by side, the first at -1920 to -1441. *)
Definition backgroundInvariant (this : Level.t) : Prop :=
  Level.appendBackground this = true
  /\ exists k,
       match Level.backgroundQueue this with
       | [a] => (-1440 <= k <= -1)%Z /\ stripAt k a
       | [a; c] => (-1920 <= k <= -1441)%Z /\ stripAt k a /\ stripAt (k + 1920) c
       | _ => False
       end.

(** A call of one of the three methods that assign to a Capy. *)
Inductive CapyOp : Type := OpMoveCapy | OpFlap | OpDrawCapy.

Definition applyCapy (this : Capy.t) (op : CapyOp) : JS Capy.t :=
  match op with
  | OpMoveCapy => ret (Capy.moveCapy this)
  | OpFlap => ret (Capy.flap this)
  | OpDrawCapy => Capy.drawCapy this
  end.

Fixpoint applyCapyAll (ops : list CapyOp) (this : Capy.t) : JS Capy.t :=
  match ops with
  | [] => ret this
  | op :: rest => this <- applyCapy this op ;; applyCapyAll rest this
  end.

Fixpoint drawCalls (ops : list CapyOp) : nat :=
  match ops with
  | [] => O
  | OpDrawCapy :: rest => S (drawCalls rest)
  | _ :: rest => drawCalls rest
  end.

(** The sprite counter is a whole number from 0 to 15. *)
Definition counterAt (k : Z) (this : Capy.t) : Prop :=
  (0 <= k <= 15)%Z /\ Capy.capyCounter this == inject_Z k.

(** A Level after [n] frames of the background loop. *)
Definition backgroundAfter (n : nat) (dimensions : Dimensions) : JS Level.t :=
  this <- Level.constructor dimensions ;; repeatCall n Level.moveAnimatedBackground this.

(** The shape of a pair as [randomPipe] builds it, wherever the pair has
    moved since: sub-pipes from the top and to the bottom of the field,
    one above the other and PIPE_WIDTH wide; the gap lies between the edge
    buffers, its top is a double and its bottom is the double nearest to
    [gapTop + PIPE_GAP], which is PIPE_GAP away up to one rounding. *)
Definition wellShaped (d : Dimensions) (p : Pipe.t) : Prop :=
  Rect.top (Pipe.topPipe p) == 0
  /\ Rect.bottom (Pipe.bottomPipe p) == height d
  /\ Rect.left (Pipe.bottomPipe p) == leftEdge p
  /\ Rect.right (Pipe.bottomPipe p) == rightEdge p
  /\ rightEdge p == leftEdge p + CONSTANTS.PIPE_WIDTH
  /\ gapBottom p == round64 (gapTop p + CONSTANTS.PIPE_GAP)
  /\ Qabs (gapBottom p - gapTop p - CONSTANTS.PIPE_GAP)
     <= (gapTop p + CONSTANTS.PIPE_GAP) * pow2 (-53)
  /\ CONSTANTS.EDGE_BUFFER <= gapTop p
  /\ gapBottom p <= height d - CONSTANTS.EDGE_BUFFER
  /\ isDouble (gapTop p).

(** Three evenly spaced pairs of width PIPE_WIDTH, the front one with its
    right edge still right of 0. *)
Definition inView (this : Level.t) : Prop :=
  exists p0 p1 p2,
    Level.pipes this = [p0; p1; p2]
    /\ spaced [p0; p1; p2]
    /\ Forall (fun p => rightEdge p == leftEdge p + CONSTANTS.PIPE_WIDTH) [p0; p1; p2]
    /\ 0 < rightEdge p0.

(** What holds of the objects of a game between the calls of the browser:
    the Level holds three pairs and a background that covers the canvas,
    and the sprite counter of the Capy is a whole number from 0 to 15. *)
Definition sound (this : FlappyCapy.t) : Prop :=
  length (Level.pipes (FlappyCapy.level this)) = 3%nat
  /\ backgroundInvariant (FlappyCapy.level this)
  /\ exists k, counterAt k (FlappyCapy.capy this).

(** The game and the browser as [restart()] leaves them when it was called
    with browser [b]: idle, the score 0, a Capy placed anew, a Level of
    three pairs created by this call and moved by one frame, all ahead of
    the Capy and none passed.  The background loop is started by the
    first call only, which also draws the Capy once. *)
Definition freshlyRestarted (d : Dimensions) (b : Browser) (backgroundWasRunning : bool)
           (this : FlappyCapy.t) (b' : Browser) : Prop :=
  (FlappyCapy.dimensions this = d
   /\ FlappyCapy.running this = false
   /\ FlappyCapy.score this = 0
   /\ FlappyCapy.backgroundRunning this = true)
  /\ (Capy.dimensions (FlappyCapy.capy this) = d
      /\ Capy.x (FlappyCapy.capy this) = width d / 3
      /\ Capy.y (FlappyCapy.capy this) = height d / 2
      /\ Capy.vel (FlappyCapy.capy this) = 0
      /\ Capy.capyCounter (FlappyCapy.capy this)
         == (if backgroundWasRunning then 0 else 1))
  /\ (length (Level.pipes (FlappyCapy.level this)) = 3%nat
      /\ Forall (ahead (Capy.bounds (FlappyCapy.capy this)))
                (Level.pipes (FlappyCapy.level this))
      /\ Forall (fun p => Pipe.passed p = false /\ (drawn b <= Pipe.serial p)%nat)
                (Level.pipes (FlappyCapy.level this)))
  /\ (exists fresh afterLevel,
         Level.constructor d b = Returns (fresh, afterLevel)
         /\ Level.pipes (FlappyCapy.level this) = map Level.movePipe (Level.pipes fresh))
  /\ (drawn b' = (3 + drawn b)%nat
      /\ alerts b' = alerts b
      /\ entropy b' = entropy b
      /\ frameRequests b'
         = frameRequests b ++ (if backgroundWasRunning
                               then [] else [AnimateLevelBackgroundCallback])).

(** The game waits for the first press: it is not running, the score is 0,
    the Capy stands where its constructor put it, and the pipes are those
    of the Level [fresh] after the one frame [restart()] has drawn. *)
Definition idle (d : Dimensions) (fresh : Level.t) (this : FlappyCapy.t) : Prop :=
  FlappyCapy.dimensions this = d
  /\ FlappyCapy.running this = false
  /\ FlappyCapy.score this = 0
  /\ Capy.dimensions (FlappyCapy.capy this) = d
  /\ Capy.x (FlappyCapy.capy this) = width d / 3
  /\ Capy.y (FlappyCapy.capy this) = height d / 2
  /\ Level.pipes (FlappyCapy.level this) = map Level.movePipe (Level.pipes fresh).

Definition backgroundFrame : Event := AnimationFrame AnimateLevelBackgroundCallback.

(* ------------------------------------------------------------------ *)
(** * Level: drawing the pipes on the canvas *)

(** The canvas context, as far as [drawPipes] uses it: the [drawImage]
    calls made on it, in order.  An image is named by the file it was
    loaded from. *)
Module Canvas.
Inductive Image : Type := TopPipePng | BottomPipePng.

Record DrawImage : Type := mkDrawImage {
  image : Image;
  dx : number;
  dy : number
}.

Definition t : Type := list DrawImage.

Definition drawImage (img : Image) (x y : number) (ctx : t) : t :=
  ctx ++ [mkDrawImage img x y].
End Canvas.

(** The callback of [drawPipes]: the two [ctx.drawImage] calls for one
    pair, with the offsets computed in doubles. *)
Definition drawPipe (pipe : Pipe.t) (ctx : Canvas.t) : Canvas.t :=
  let pipeOffsetTop :=
    sub64 (Rect.bottom (Pipe.topPipe pipe)) (Rect.top (Pipe.topPipe pipe)) in
  let pipeOffsetBottom :=
    sub64 (Rect.bottom (Pipe.bottomPipe pipe)) (Rect.top (Pipe.bottomPipe pipe)) in
  let ctx := Canvas.drawImage Canvas.TopPipePng (Rect.left (Pipe.topPipe pipe))
                              (sub64 pipeOffsetTop CONSTANTS.PIPE_IMAGE_HEIGHT) ctx in
  Canvas.drawImage Canvas.BottomPipePng (Rect.left (Pipe.bottomPipe pipe))
                   (sub64 CONSTANTS.PIPE_IMAGE_HEIGHT pipeOffsetBottom) ctx.

(** [Level.drawPipes(ctx)]. *)
Definition drawPipes (ctx : Canvas.t) (this : Level.t) : JS (Level.t * Canvas.t) :=
  Level.eachPipe (fun pipe ctx => ret (pipe, drawPipe pipe ctx)) this ctx.

(** The two images drawn for a pair [pipe] in a field of dimensions [d],
    both at the pair's left edge.  The top image is placed
    PIPE_IMAGE_HEIGHT above the top of the gap, up to one rounding; the
    bottom image is placed PIPE_IMAGE_HEIGHT - height below the bottom of
    the gap, up to two roundings. *)
Definition drawnAtGap (d : Dimensions) (pipe : Pipe.t) (calls : list Canvas.DrawImage) : Prop :=
  match calls with
  | [top; bottom] =>
      Canvas.image top = Canvas.TopPipePng
      /\ Canvas.image bottom = Canvas.BottomPipePng
      /\ Canvas.dx top == leftEdge pipe
      /\ Canvas.dx bottom == leftEdge pipe
      /\ Qabs (Canvas.dy top + CONSTANTS.PIPE_IMAGE_HEIGHT - gapTop pipe)
         <= (height d + CONSTANTS.PIPE_IMAGE_HEIGHT) * pow2 (-53)
      /\ Qabs (Canvas.dy bottom
               - (gapBottom pipe + (CONSTANTS.PIPE_IMAGE_HEIGHT - height d)))
         <= (height d + CONSTANTS.PIPE_IMAGE_HEIGHT) * pow2 (-52)
  | _ => False
  end.

(** The vertical distance between where the bottom image is drawn and the
    bottom of the gap, where the bottom sub-pipe starts. *)
Definition bottomImageOffset (pipe : Pipe.t) : number :=
  match drawPipe pipe [] with
  | [_; bottom] => Qabs (Canvas.dy bottom - gapBottom pipe)
  | _ => 0
  end.

(* ------------------------------------------------------------------ *)
(** * Further concrete games *)

(** Concrete games: a canvas too low for the Capy, a Level whose front
    pair the Capy is about to leave behind, and a game running on it. *)
Module Play.
Definition tinyCanvas : Dimensions := {| width := 480; height := 60 |}.

Definition level : Level.t :=
  {| Level.dimensions := Scenario.canvas;
     Level.pipes := [Scenario.pipeAt 110 false 3; Scenario.pipeAt 330 false 4;
                     Scenario.pipeAt 550 false 5];
     Level.backgroundQueue := [{| pos := -100 |}];
     Level.appendBackground := true |}.

Definition game : FlappyCapy.t :=
  {| FlappyCapy.dimensions := Scenario.canvas;
     FlappyCapy.level := level;
     FlappyCapy.capy := Capy.constructor Scenario.canvas;
     FlappyCapy.score := 4;
     FlappyCapy.running := true;
     FlappyCapy.backgroundRunning := true |}.

(** Its Level a frame later. *)
Definition moved : Level.t :=
  Level.set_pipes level (map Level.movePipe (Level.pipes level)).

(** A Capy whose sprite counter is past the last sprite. *)
Definition capyPastSprites : Capy.t :=
  {| Capy.dimensions := Scenario.canvas; Capy.x := 160; Capy.y := 320; Capy.vel := 0;
     Capy.capyCounter := 20 |}.
End Play.

(* ------------------------------------------------------------------ *)
(** * Facts about numbers *)

Lemma ltb_lt (a b : number) : ltb a b = true <-> a < b.
Proof.
  unfold ltb. rewrite negb_true_iff, <- not_true_iff_false, Qle_bool_iff.
  split; [apply Qnot_le_lt | apply Qlt_not_le].
Qed.

Lemma ltb_ge (a b : number) : ltb a b = false <-> b <= a.
Proof.
  unfold ltb. rewrite negb_false_iff. apply Qle_bool_iff.
Qed.

Lemma gtb_gt (a b : number) : gtb a b = true <-> b < a.
Proof. apply ltb_lt. Qed.

Lemma gtb_le (a b : number) : gtb a b = false <-> a <= b.
Proof. apply ltb_ge. Qed.

Lemma leb_le (a b : number) : leb a b = true <-> a <= b.
Proof. apply Qle_bool_iff. Qed.

Lemma leb_gt (a b : number) : leb a b = false <-> b < a.
Proof.
  unfold leb. rewrite <- not_true_iff_false, Qle_bool_iff.
  split; [apply Qnot_le_lt | apply Qlt_not_le].
Qed.

(* ------------------------------------------------------------------ *)
(** * Facts about rounding *)

Lemma pow2_pos (e : Z) : 0 < pow2 e.
Proof. apply Qpower_0_lt. reflexivity. Qed.

Lemma pow2_add (a b : Z) : pow2 (a + b) == pow2 a * pow2 b.
Proof. apply Qpower_plus. discriminate. Qed.

Lemma pow2_le (a b : Z) : (a <= b)%Z -> pow2 a <= pow2 b.
Proof. intros H. apply Qpower_le_compat_l; [exact H | discriminate]. Qed.

Lemma pow2_lt (a b : Z) : (a < b)%Z -> pow2 a < pow2 b.
Proof. intros H. apply Qpower_lt_compat_l; [exact H | reflexivity]. Qed.

Lemma pow2_lt_inv (a b : Z) : pow2 a < pow2 b -> (a < b)%Z.
Proof. intros H. apply (Qpower_lt_compat_l_inv 2); [exact H | reflexivity]. Qed.

Lemma pow2_Z (e : Z) : (0 <= e)%Z -> pow2 e == inject_Z (2 ^ e).
Proof. intros H. unfold pow2. rewrite Zpower_Qpower by exact H. reflexivity. Qed.

Lemma pow2_cancel (e : Z) : pow2 (- e) * pow2 e == 1.
Proof. rewrite <- pow2_add. replace (- e + e)%Z with 0%Z by lia. reflexivity. Qed.

(** Scaling by a power of two, and back. *)
Lemma scale_back (x : Q) (e : Z) : x * pow2 (- e) * pow2 e == x.
Proof. rewrite <- Qmult_assoc, pow2_cancel. ring. Qed.

Lemma scale_le (x y : Q) (e : Z) : x <= y -> x * pow2 e <= y * pow2 e.
Proof. intros H. apply Qmult_le_compat_r; [exact H | apply Qlt_le_weak, pow2_pos]. Qed.

Lemma scale_lt (x y : Q) (e : Z) : x < y -> x * pow2 e < y * pow2 e.
Proof. intros H. apply Qmult_lt_compat_r; [apply pow2_pos | exact H]. Qed.

(** ** The binary logarithm *)

Lemma Qlt_Z_scaled_l (p q n : Z) (d : positive) :
  inject_Z p < (n # d) * inject_Z q <-> (p * Zpos d < n * q)%Z.
Proof. unfold Qlt, Qmult, inject_Z. cbn. rewrite Pos.mul_1_r. lia. Qed.

Lemma Qlt_Z_scaled (p q n : Z) (d : positive) :
  (n # d) * inject_Z q < inject_Z p <-> (n * q < p * Zpos d)%Z.
Proof. unfold Qlt, Qmult, inject_Z. cbn. rewrite Pos.mul_1_r. lia. Qed.

Lemma floorLog2_rough (x : Q) :
  0 < x ->
  let k := (Z.log2 (Qnum x) - Z.log2 (Zpos (Qden x)))%Z in
  pow2 (k - 1) < x /\ x < pow2 (k + 1).
Proof.
  destruct x as [n d]. intros Hx. cbn [Qnum Qden]. cbv zeta.
  assert (Hn : (0 < n)%Z) by (unfold Qlt in Hx; cbn in Hx; lia).
  destruct (Z.log2_spec n Hn) as [Ha0 Ha1].
  destruct (Z.log2_spec (Zpos d) (Pos2Z.is_pos d)) as [Hb0 Hb1].
  pose proof (Z.log2_nonneg n) as Ha.
  pose proof (Z.log2_nonneg (Zpos d)) as Hb.
  set (a := Z.log2 n) in *. set (b := Z.log2 (Zpos d)) in *.
  assert (Hpa : (0 < 2 ^ a)%Z) by (apply Z.pow_pos_nonneg; lia).
  assert (Hpb : (0 < 2 ^ b)%Z) by (apply Z.pow_pos_nonneg; lia).
  split.
  - (* 2^(a-b-1) < n/d, that is 2^a < (n/d) 2^(b+1) *)
    apply (Qmult_lt_r _ _ (pow2 (b + 1))); [apply pow2_pos |].
    rewrite <- pow2_add. replace (a - b - 1 + (b + 1))%Z with a by lia.
    rewrite !pow2_Z by lia.
    apply Qlt_Z_scaled_l. change (b + 1)%Z with (Z.succ b).
    apply (Z.lt_le_trans _ (2 ^ a * 2 ^ Z.succ b)).
    + apply Z.mul_lt_mono_pos_l; assumption.
    + apply Z.mul_le_mono_nonneg_r; lia.
  - apply (Qmult_lt_r _ _ (pow2 b)); [apply pow2_pos |].
    rewrite <- pow2_add. replace (a - b + 1 + b)%Z with (a + 1)%Z by lia.
    rewrite !pow2_Z by lia.
    apply Qlt_Z_scaled. change (a + 1)%Z with (Z.succ a).
    apply (Z.lt_le_trans _ (2 ^ Z.succ a * 2 ^ b)).
    + apply Z.mul_lt_mono_pos_r; assumption.
    + apply Z.mul_le_mono_nonneg_l; lia.
Qed.

Lemma floorLog2_spec (x : Q) :
  0 < x -> pow2 (floorLog2 x) <= x /\ x < pow2 (floorLog2 x + 1).
Proof.
  intros Hx. destruct (floorLog2_rough x Hx) as [Hlo Hhi]. unfold floorLog2.
  set (k := (Z.log2 (Qnum x) - Z.log2 (Zpos (Qden x)))%Z) in *.
  destruct (Qle_bool (pow2 k) x) eqn:E.
  - apply Qle_bool_iff in E. split; assumption.
  - split; [apply Qlt_le_weak; exact Hlo |].
    replace (k - 1 + 1)%Z with k by lia.
    apply Qnot_le_lt. intros H. apply Qle_bool_iff in H. congruence.
Qed.

Lemma floorLog2_unique (x : Q) (k : Z) :
  pow2 k <= x -> x < pow2 (k + 1) -> floorLog2 x = k.
Proof.
  intros Hlo Hhi.
  assert (Hx : 0 < x) by (apply (Qlt_le_trans _ (pow2 k)); [apply pow2_pos | exact Hlo]).
  destruct (floorLog2_spec x Hx) as [Hlo' Hhi'].
  pose proof (pow2_lt_inv _ _ (Qle_lt_trans _ _ _ Hlo Hhi')).
  pose proof (pow2_lt_inv _ _ (Qle_lt_trans _ _ _ Hlo' Hhi)).
  lia.
Qed.

Lemma floorLog2_le (x y : Q) : 0 < x -> x <= y -> (floorLog2 x <= floorLog2 y)%Z.
Proof.
  intros Hx Hxy.
  assert (Hy : 0 < y) by (apply (Qlt_le_trans _ x); assumption).
  destruct (floorLog2_spec x Hx) as [Hlo _].
  destruct (floorLog2_spec y Hy) as [_ Hhi].
  pose proof (pow2_lt_inv _ _ (Qle_lt_trans _ _ _ (Qle_trans _ _ _ Hlo Hxy) Hhi)).
  lia.
Qed.

Lemma floorLog2_comp (x y : Q) : 0 < x -> x == y -> floorLog2 x = floorLog2 y.
Proof.
  intros Hx Hxy. symmetry.
  destruct (floorLog2_spec x Hx) as [Hlo Hhi].
  apply floorLog2_unique; rewrite <- Hxy; assumption.
Qed.

Lemma exponent64_comp (x y : Q) : 0 < x -> x == y -> exponent64 x = exponent64 y.
Proof. intros Hx H. unfold exponent64. rewrite (floorLog2_comp x y Hx H). reflexivity. Qed.

Lemma exponent64_le (x y : Q) : 0 < x -> x <= y -> (exponent64 x <= exponent64 y)%Z.
Proof.
  intros Hx Hxy. pose proof (floorLog2_le x y Hx Hxy). unfold exponent64. lia.
Qed.

(** ** The nearest integer *)

Lemma nearestEven_cases (y : Q) :
  let f := Qfloor y in
  (nearestEven y = f /\ y - inject_Z f <= 1 # 2)
  \/ (nearestEven y = (f + 1)%Z /\ 1 # 2 <= y - inject_Z f).
Proof.
  cbv zeta. unfold nearestEven.
  destruct (Qcompare_spec (y - inject_Z (Qfloor y)) (1 # 2)) as [E | E | E].
  - destruct (Z.even (Qfloor y)); [left | right]; split; auto; rewrite E; apply Qle_refl.
  - left. split; [reflexivity | apply Qlt_le_weak; exact E].
  - right. split; [reflexivity | apply Qlt_le_weak; exact E].
Qed.

Lemma nearestEven_error (y : Q) : Qabs (inject_Z (nearestEven y) - y) <= 1 # 2.
Proof.
  pose proof (Qfloor_le y) as Hlo. pose proof (Qlt_floor y) as Hhi.
  rewrite inject_Z_plus in Hhi. change (inject_Z 1) with 1 in Hhi.
  apply Qabs_Qle_condition.
  destruct (nearestEven_cases y) as [[-> H] | [-> H]].
  - split; lra.
  - rewrite inject_Z_plus. change (inject_Z 1) with 1. split; lra.
Qed.

Lemma nearestEven_Z (z : Z) : nearestEven (inject_Z z) = z.
Proof.
  unfold nearestEven. rewrite Qfloor_Z.
  destruct (Qcompare_spec (inject_Z z - inject_Z z) (1 # 2)) as [E | E | E];
    [exfalso; lra | reflexivity | exfalso; lra].
Qed.

Lemma nearestEven_comp (x y : Q) : x == y -> nearestEven x = nearestEven y.
Proof.
  intros H. unfold nearestEven.
  rewrite (Qfloor_comp _ _ H).
  assert (E : Qcompare (x - inject_Z (Qfloor y)) (1 # 2) = Qcompare (y - inject_Z (Qfloor y)) (1 # 2))
    by (apply Qcompare_comp; [rewrite H; reflexivity | reflexivity]).
  rewrite E. reflexivity.
Qed.

Lemma nearestEven_le (x y : Q) : x <= y -> (nearestEven x <= nearestEven y)%Z.
Proof.
  intros H. pose proof (Qfloor_resp_le _ _ H) as Hf.
  destruct (Z.eq_dec (Qfloor x) (Qfloor y)) as [E | N].
  - unfold nearestEven. rewrite E.
    destruct (Qcompare_spec (x - inject_Z (Qfloor y)) (1 # 2)) as [Ex | Ex | Ex];
      destruct (Qcompare_spec (y - inject_Z (Qfloor y)) (1 # 2)) as [Ey | Ey | Ey];
      try lia; try (exfalso; lra);
      destruct (Z.even (Qfloor y)); lia.
  - destruct (nearestEven_cases x) as [[-> _] | [-> _]];
      destruct (nearestEven_cases y) as [[-> _] | [-> _]]; lia.
Qed.

Lemma nearestEven_nonneg (y : Q) : 0 <= y -> (0 <= nearestEven y)%Z.
Proof.
  intros H. rewrite <- (nearestEven_Z 0). apply nearestEven_le. exact H.
Qed.

(** ** The nearest double *)

Lemma roundMagnitude_comp (x y : Q) :
  0 < x -> x == y -> roundMagnitude x == roundMagnitude y.
Proof.
  intros Hx H. unfold roundMagnitude, exponent64.
  rewrite (floorLog2_comp x y Hx H).
  set (e := Z.max (-1074) (floorLog2 y - 52)).
  rewrite (nearestEven_comp (x * pow2 (- e)) (y * pow2 (- e)))
    by (rewrite H; reflexivity).
  reflexivity.
Qed.

#[global] Instance round64_comp : Proper (Qeq ==> Qeq) round64.
Proof.
  intros x y H. unfold round64.
  rewrite (Qcompare_comp x y H 0 0 (Qeq_refl 0)).
  destruct (Qcompare_spec y 0) as [E | E | E]; [reflexivity | |].
  - apply Qopp_comp, roundMagnitude_comp; [rewrite H; lra | rewrite H; reflexivity].
  - apply roundMagnitude_comp; [rewrite H; exact E | exact H].
Qed.

Lemma round64_pos (x : Q) : 0 < x -> round64 x = roundMagnitude x.
Proof.
  intros H. unfold round64.
  destruct (Qcompare_spec x 0) as [E | E | E]; [exfalso; lra | exfalso; lra | reflexivity].
Qed.

Lemma round64_neg (x : Q) : x < 0 -> round64 x = - roundMagnitude (- x).
Proof.
  intros H. unfold round64.
  destruct (Qcompare_spec x 0) as [E | E | E]; [exfalso; lra | reflexivity | exfalso; lra].
Qed.

Lemma round64_0 (x : Q) : x == 0 -> round64 x == 0.
Proof. intros H. rewrite H. reflexivity. Qed.

Lemma round64_opp (x : Q) : round64 (- x) == - round64 x.
Proof.
  destruct (Q_dec x 0) as [[H | H] | H].
  - rewrite (round64_neg x H), (round64_pos (- x)) by lra. ring.
  - rewrite (round64_pos x H), (round64_neg (- x)) by lra.
    rewrite (roundMagnitude_comp (- - x) x); [reflexivity | lra | ring].
  - rewrite H. reflexivity.
Qed.

Lemma roundMagnitude_nonneg (x : Q) : 0 < x -> 0 <= roundMagnitude x.
Proof.
  intros H. unfold roundMagnitude.
  apply Qmult_le_0_compat; [| apply Qlt_le_weak, pow2_pos].
  change 0 with (inject_Z 0). rewrite <- Zle_Qle. apply nearestEven_nonneg.
  apply Qmult_le_0_compat; [lra | apply Qlt_le_weak, pow2_pos].
Qed.

(** [x > 0] lies below the power of two that ends its binade. *)
Lemma below_binade (x : Q) : 0 < x -> x < pow2 (exponent64 x + 53).
Proof.
  intros H. destruct (floorLog2_spec x H) as [_ Hhi].
  apply (Qlt_le_trans _ _ _ Hhi). apply pow2_le. unfold exponent64. lia.
Qed.

Lemma roundMagnitude_mono (x y : Q) :
  0 < x -> x <= y -> roundMagnitude x <= roundMagnitude y.
Proof.
  intros Hx Hxy.
  assert (Hy : 0 < y) by lra.
  pose proof (exponent64_le x y Hx Hxy) as He.
  destruct (Z.eq_dec (exponent64 x) (exponent64 y)) as [E | N].
  - unfold roundMagnitude. rewrite E. apply scale_le.
    rewrite <- Zle_Qle. apply nearestEven_le. apply scale_le. exact Hxy.
  - set (p := (exponent64 y + 52)%Z).
    assert (Hp : pow2 p <= y).
    { destruct (floorLog2_spec y Hy) as [Hlo _].
      replace p with (floorLog2 y); [exact Hlo |].
      unfold p, exponent64 in *. lia. }
    assert (Hxp : x <= pow2 p).
    { apply Qlt_le_weak. apply (Qlt_le_trans _ _ _ (below_binade x Hx)).
      apply pow2_le. unfold p. lia. }
    apply (Qle_trans _ (pow2 p)).
    + unfold roundMagnitude. set (e := exponent64 x) in *.
      assert (Hs : pow2 p * pow2 (- e) == inject_Z (2 ^ (p - e))).
      { rewrite <- pow2_add. rewrite <- pow2_Z by (unfold p; lia).
        replace (p + - e)%Z with (p - e)%Z by lia. reflexivity. }
      apply (Qle_trans _ (inject_Z (2 ^ (p - e)) * pow2 e)).
      * apply scale_le. rewrite <- Zle_Qle.
        rewrite <- (nearestEven_Z (2 ^ (p - e))). apply nearestEven_le.
        rewrite <- Hs. apply scale_le. exact Hxp.
      * rewrite <- Hs, scale_back. apply Qle_refl.
    + unfold roundMagnitude. set (e := exponent64 y) in *.
      assert (Hs : pow2 p * pow2 (- e) == inject_Z (2 ^ 52)).
      { rewrite <- pow2_add. replace (p + - e)%Z with 52%Z by (unfold p; lia).
        reflexivity. }
      apply (Qle_trans _ (inject_Z (2 ^ 52) * pow2 e)).
      * rewrite <- Hs, scale_back. apply Qle_refl.
      * apply scale_le. rewrite <- Zle_Qle.
        rewrite <- (nearestEven_Z (2 ^ 52)). apply nearestEven_le.
        rewrite <- Hs. apply scale_le. exact Hp.
Qed.

(** Rounding keeps the order. *)
Lemma round64_le (x y : Q) : x <= y -> round64 x <= round64 y.
Proof.
  intros H.
  destruct (Q_dec x 0) as [[Hx | Hx] | Hx]; destruct (Q_dec y 0) as [[Hy | Hy] | Hy];
    try (exfalso; lra).
  - rewrite (round64_neg x Hx), (round64_neg y Hy).
    apply Qopp_le_compat. apply roundMagnitude_mono; lra.
  - rewrite (round64_neg x Hx), (round64_pos y Hy).
    pose proof (roundMagnitude_nonneg (- x)). pose proof (roundMagnitude_nonneg y). lra.
  - rewrite (round64_neg x Hx), (round64_0 y Hy).
    pose proof (roundMagnitude_nonneg (- x)). lra.
  - rewrite (round64_pos x Hx), (round64_pos y Hy). apply roundMagnitude_mono; lra.
  - rewrite (round64_0 x Hx), (round64_pos y Hy). apply roundMagnitude_nonneg. exact Hy.
  - rewrite (round64_0 x Hx), (round64_0 y Hy). apply Qle_refl.
Qed.

(** A number that is a whole number of last places is not changed. *)
Lemma roundMagnitude_exact (x : Q) (k : Z) :
  x * pow2 (- exponent64 x) == inject_Z k -> roundMagnitude x == x.
Proof.
  intros H. unfold roundMagnitude.
  rewrite (nearestEven_comp _ _ H), nearestEven_Z, <- H. apply scale_back.
Qed.

Lemma floorLog2_scaled (m e : Z) :
  (0 < m)%Z -> floorLog2 (inject_Z m * pow2 e) = (Z.log2 m + e)%Z.
Proof.
  intros Hm. destruct (Z.log2_spec m Hm) as [Hlo Hhi].
  pose proof (Z.log2_nonneg m) as Hl.
  apply floorLog2_unique.
  - rewrite pow2_add. apply scale_le. rewrite pow2_Z by exact Hl.
    rewrite <- Zle_Qle. exact Hlo.
  - replace (Z.log2 m + e + 1)%Z with (Z.succ (Z.log2 m) + e)%Z by lia.
    rewrite pow2_add. apply scale_lt. rewrite pow2_Z by lia.
    rewrite <- Zlt_Qlt. exact Hhi.
Qed.

Lemma roundMagnitude_fix (m e : Z) :
  (-1074 <= e)%Z -> (0 < m <= 2 ^ 53)%Z ->
  roundMagnitude (inject_Z m * pow2 e) == inject_Z m * pow2 e.
Proof.
  intros He [Hm0 Hm1].
  pose proof (Z.log2_nonneg m) as Hl.
  assert (Hlog : (Z.log2 m <= 53)%Z).
  { rewrite <- (Z.log2_pow2 53) by lia. apply Z.log2_le_mono. exact Hm1. }
  set (x := inject_Z m * pow2 e).
  assert (Hex : exponent64 x = Z.max (-1074) (Z.log2 m + e - 52)).
  { unfold exponent64, x. rewrite floorLog2_scaled by exact Hm0. reflexivity. }
  destruct (Z.eq_dec (Z.log2 m) 53) as [E | N].
  - assert (Hm : m = (2 ^ 53)%Z).
    { destruct (Z.log2_spec m Hm0) as [Hlo _]. rewrite E in Hlo. lia. }
    apply (roundMagnitude_exact x (2 ^ 52)).
    rewrite Hex, E. replace (Z.max (-1074) (53 + e - 52)) with (e + 1)%Z by lia.
    unfold x. rewrite Hm.
    rewrite <- Qmult_assoc, <- pow2_add.
    replace (e + - (e + 1))%Z with (-1)%Z by lia. reflexivity.
  - set (e' := Z.max (-1074) (Z.log2 m + e - 52)) in *.
    apply (roundMagnitude_exact x (m * 2 ^ (e - e'))).
    rewrite Hex. unfold x.
    rewrite <- Qmult_assoc, <- pow2_add.
    replace (e + - e')%Z with (e - e')%Z by lia.
    rewrite pow2_Z by (unfold e'; lia).
    rewrite inject_Z_mult. reflexivity.
Qed.

Lemma isDouble_scaled (m e : Z) :
  (-1074 <= e)%Z -> (Z.abs m <= 2 ^ 53)%Z -> isDouble (inject_Z m * pow2 e).
Proof.
  intros He Hm. unfold isDouble.
  destruct (Z.lt_trichotomy m 0) as [H | [H | H]].
  - assert (Hneg : inject_Z m * pow2 e == - (inject_Z (- m) * pow2 e))
      by (rewrite inject_Z_opp; ring).
    rewrite Hneg, round64_opp. apply Qopp_comp.
    rewrite round64_pos.
    + apply roundMagnitude_fix; lia.
    + apply Qmult_lt_0_compat; [| apply pow2_pos].
      change 0 with (inject_Z 0). rewrite <- Zlt_Qlt. lia.
  - subst m. assert (E : inject_Z 0 * pow2 e == 0) by ring.
    rewrite E. reflexivity.
  - rewrite round64_pos.
    + apply roundMagnitude_fix; lia.
    + apply Qmult_lt_0_compat; [| apply pow2_pos].
      change 0 with (inject_Z 0). rewrite <- Zlt_Qlt. lia.
Qed.

(** The whole numbers up to [2^53] are doubles. *)
Lemma isDouble_Z (z : Z) : (Z.abs z <= 2 ^ 53)%Z -> isDouble (inject_Z z).
Proof.
  intros H. unfold isDouble.
  assert (E : inject_Z z == inject_Z z * pow2 0) by (change (pow2 0) with 1; ring).
  rewrite E. apply isDouble_scaled; [lia | exact H].
Qed.

Lemma round64_Z (z : Z) : (Z.abs z <= 2 ^ 53)%Z -> round64 (inject_Z z) == inject_Z z.
Proof. exact (isDouble_Z z). Qed.

(** What rounding returns is a double. *)
Lemma isDouble_roundMagnitude (x : Q) : 0 < x -> isDouble (roundMagnitude x).
Proof.
  intros Hx. unfold roundMagnitude. apply isDouble_scaled.
  - unfold exponent64. lia.
  - set (e := exponent64 x).
    assert (H0 : (0 <= nearestEven (x * pow2 (- e)))%Z).
    { apply nearestEven_nonneg. apply Qmult_le_0_compat; [lra |].
      apply Qlt_le_weak, pow2_pos. }
    rewrite Z.abs_eq by exact H0.
    rewrite <- (nearestEven_Z (2 ^ 53)). apply nearestEven_le.
    rewrite <- pow2_Z by lia.
    apply (Qmult_le_r _ _ (pow2 e)); [apply pow2_pos |].
    rewrite scale_back, <- pow2_add. replace (53 + e)%Z with (e + 53)%Z by lia.
    apply Qlt_le_weak. apply below_binade. exact Hx.
Qed.

Lemma isDouble_opp (x : Q) : isDouble x -> isDouble (- x).
Proof. unfold isDouble. intros H. rewrite round64_opp, H. reflexivity. Qed.

Lemma isDouble_round64 (x : Q) : isDouble (round64 x).
Proof.
  destruct (Q_dec x 0) as [[H | H] | H].
  - rewrite (round64_neg x H). apply isDouble_opp, isDouble_roundMagnitude. lra.
  - rewrite (round64_pos x H). apply isDouble_roundMagnitude. exact H.
  - unfold isDouble. rewrite (round64_0 x H). reflexivity.
Qed.

(** A double below [x] is below the double nearest to [x], and likewise
    above. *)
Lemma round64_ge (a x : Q) : isDouble a -> a <= x -> a <= round64 x.
Proof.
  unfold isDouble. intros Ha H. apply (Qle_trans _ (round64 a)).
  - rewrite Ha. apply Qle_refl.
  - apply round64_le. exact H.
Qed.

Lemma round64_le_double (a x : Q) : isDouble a -> x <= a -> round64 x <= a.
Proof.
  unfold isDouble. intros Ha H. apply (Qle_trans _ (round64 a)).
  - apply round64_le. exact H.
  - rewrite Ha. apply Qle_refl.
Qed.

(** [round64] against binary64 on the operations of the source: the gap
    for the largest random value on a field 640 high, and seven steps of
    gravity from rest. *)
Lemma round64_as_binary64_computes :
  let r := (0x1.fffffffffffffp-1)%float in
  let g := (0x1.999999999999ap-2)%float in
  hasValue r (1 - pow2 (-53))
  /\ hasValue g (round64 0.4)
  /\ hasValue (r * 390)%float (mul64 (1 - pow2 (-53)) 390)
  /\ hasValue (r * 390 + 50)%float (add64 (mul64 (1 - pow2 (-53)) 390) 50)
  /\ hasValue (r * 390 + 50 + 150)%float
              (add64 (add64 (mul64 (1 - pow2 (-53)) 390) 50) 150)
  /\ hasValue (Nat.iter 7 (fun v => v + g) 0)%float
              (Nat.iter 7 (fun v => add64 v (round64 0.4)) 0).
Proof. repeat split; vm_compute; reflexivity. Qed.

(** ** The rounding error *)

Lemma roundMagnitude_error (x : Q) :
  Qabs (roundMagnitude x - x) <= pow2 (exponent64 x - 1).
Proof.
  unfold roundMagnitude. set (e := exponent64 x). set (y := x * pow2 (- e)).
  assert (Hx : y * pow2 e == x) by apply scale_back.
  clearbody y. clearbody e. set (m := inject_Z (nearestEven y)).
  assert (E : m * pow2 e - x == (m - y) * pow2 e) by (rewrite <- Hx; ring).
  rewrite E, Qabs_Qmult, (Qabs_pos (pow2 e)) by (apply Qlt_le_weak, pow2_pos).
  replace (e - 1)%Z with (-1 + e)%Z by lia. rewrite pow2_add.
  apply scale_le. change (pow2 (-1)) with (1 # 2). apply nearestEven_error.
Qed.

Lemma round64_error (x : Q) :
  ~ x == 0 -> Qabs (round64 x - x) <= pow2 (exponent64 (Qabs x) - 1).
Proof.
  intros Hx. destruct (Q_dec x 0) as [[H | H] | H]; [| | contradiction].
  - rewrite (round64_neg x H).
    assert (E : - roundMagnitude (- x) - x == - (roundMagnitude (- x) - - x)) by ring.
    rewrite E, Qabs_opp.
    assert (Ha : Qabs x == - x) by (apply Qabs_neg; lra).
    rewrite (exponent64_comp (Qabs x) (- x)); [apply roundMagnitude_error | | exact Ha].
    rewrite Ha. lra.
  - rewrite (round64_pos x H).
    assert (Ha : Qabs x == x) by (apply Qabs_pos; lra).
    rewrite (exponent64_comp (Qabs x) x); [apply roundMagnitude_error | | exact Ha].
    rewrite Ha. exact H.
Qed.

Lemma Qabs_pos_lt (x : Q) : ~ x == 0 -> 0 < Qabs x.
Proof.
  intros Hx. destruct (Q_dec x 0) as [[H | H] | H]; [| | contradiction].
  - rewrite Qabs_neg; lra.
  - rewrite Qabs_pos; lra.
Qed.

(** Half a unit in the last place, relative to the number: [2^-53]. *)
Lemma round64_error_relative (x : Q) :
  pow2 (-1022) <= Qabs x -> Qabs (round64 x - x) <= Qabs x * pow2 (-53).
Proof.
  intros Hn.
  assert (Hpos : 0 < Qabs x) by (apply (Qlt_le_trans _ _ _ (pow2_pos (-1022)) Hn)).
  assert (Hx : ~ x == 0).
  { intros E. rewrite E in Hpos. apply (Qlt_irrefl 0). exact Hpos. }
  apply (Qle_trans _ _ _ (round64_error x Hx)).
  destruct (floorLog2_spec _ Hpos) as [Hlo Hhi].
  assert (Hf : (-1022 <= floorLog2 (Qabs x))%Z).
  { pose proof (pow2_lt_inv _ _ (Qle_lt_trans _ _ _ Hn Hhi)). lia. }
  unfold exponent64. rewrite Z.max_r by lia.
  replace (floorLog2 (Qabs x) - 52 - 1)%Z with (floorLog2 (Qabs x) + -53)%Z by lia.
  rewrite pow2_add. apply scale_le. exact Hlo.
Qed.

(** Half a unit in the last place of a bound [B] on the number. *)
Lemma round64_error_bound (x B : Q) :
  pow2 (-1022) <= B -> Qabs x <= B -> Qabs (round64 x - x) <= B * pow2 (-53).
Proof.
  intros Hn Hx.
  assert (HB : 0 < B) by (apply (Qlt_le_trans _ _ _ (pow2_pos (-1022)) Hn)).
  destruct (Qeq_dec x 0) as [E | N].
  - rewrite (round64_0 x E), E. apply Qlt_le_weak.
    apply Qmult_lt_0_compat; [exact HB | apply pow2_pos].
  - apply (Qle_trans _ _ _ (round64_error x N)).
    pose proof (Qabs_pos_lt x N) as Hpos.
    pose proof (exponent64_le _ _ Hpos Hx) as He.
    destruct (floorLog2_spec _ HB) as [Hlo Hhi].
    assert (Hf : (-1022 <= floorLog2 B)%Z).
    { pose proof (pow2_lt_inv _ _ (Qle_lt_trans _ _ _ Hn Hhi)). lia. }
    apply (Qle_trans _ (pow2 (floorLog2 B + -53))).
    + apply pow2_le. unfold exponent64 in *. lia.
    + rewrite pow2_add. apply scale_le. exact Hlo.
Qed.

(** Below [2^k] the error is at most [2^(k-54)]. *)
Lemma round64_error_below (x : Q) (k : Z) :
  (-1021 <= k)%Z -> Qabs x < pow2 k -> Qabs (round64 x - x) <= pow2 (k - 54).
Proof.
  intros Hk Hlt.
  destruct (Qeq_dec x 0) as [E | Hx].
  - rewrite (round64_0 x E), E. apply Qlt_le_weak. apply pow2_pos.
  - apply (Qle_trans _ _ _ (round64_error x Hx)). apply pow2_le.
    pose proof (Qabs_pos_lt x Hx) as Hpos.
    destruct (floorLog2_spec _ Hpos) as [Hlo _].
    pose proof (pow2_lt_inv _ _ (Qle_lt_trans _ _ _ Hlo Hlt)).
    unfold exponent64. lia.
Qed.

(* ------------------------------------------------------------------ *)
(** * Capy: the velocity clamp *)

Lemma moveCapy_vel_bounded (this : Capy.t) :
  Qabs (Capy.vel (Capy.moveCapy this)) <= CONST.TERMINAL_VEL.
Proof.
  unfold Capy.moveCapy; cbn [Capy.vel].
  set (vel1 := add64 (Capy.vel this) CONST.GRAVITY).
  destruct (gtb (Math_abs vel1) CONST.TERMINAL_VEL) eqn:E.
  - destruct (gtb vel1 0); vm_compute; discriminate.
  - apply gtb_le in E. exact E.
Qed.

Lemma flap_vel_bounded (this : Capy.t) :
  Qabs (Capy.vel (Capy.flap this)) <= CONST.TERMINAL_VEL.
Proof. vm_compute. discriminate. Qed.

Lemma capyStates_bounded (calls : list CapyCall) (this : Capy.t) :
  Forall (fun after => Qabs (Capy.vel after) <= CONST.TERMINAL_VEL) (capyStates this calls).
Proof.
  revert this. induction calls as [| c calls IH]; intros this; cbn [capyStates].
  - constructor.
  - constructor; [| apply IH].
    destruct c; [apply moveCapy_vel_bounded | apply flap_vel_bounded].
Qed.

(** C1.  Starting from a freshly constructed Capy (velocity 0), after every
    call of any sequence of [moveCapy()] and [flap()] calls the absolute
    value of the velocity is at most TERMINAL_VEL, which is 12. *)
Theorem Capy_velocity_clamp (dimensions : Dimensions) (calls : list CapyCall) :
  Capy.vel (Capy.constructor dimensions) == 0
  /\ Forall (fun after => Qabs (Capy.vel after) <= CONST.TERMINAL_VEL)
            (capyStates (Capy.constructor dimensions) calls)
  /\ CONST.TERMINAL_VEL == 12.
Proof.
  split; [reflexivity |]. split; [apply capyStates_bounded | reflexivity].
Qed.

(* ------------------------------------------------------------------ *)
(** * The monad *)

Lemma bind_returns {A B : Type} (c : JS A) (k : A -> JS B) (b b' : Browser) (a : A) :
  c b = Returns (a, b') -> bind c k b = k a b'.
Proof. intros H. unfold bind. rewrite H. reflexivity. Qed.

Lemma bind_inv {A B : Type} (c : JS A) (k : A -> JS B) (b b'' : Browser) (r : B) :
  bind c k b = Returns (r, b'') ->
  exists a b', c b = Returns (a, b') /\ k a b' = Returns (r, b'').
Proof.
  unfold bind. destruct (c b) as [[a b'] | e |]; try discriminate.
  intros H. exists a, b'. split; [reflexivity | exact H].
Qed.

(* ------------------------------------------------------------------ *)
(** * forEach and eachPipe with callbacks that touch nothing else *)

Lemma forEach_pure {A S : Type} (callback : A -> S -> JS (A * S))
      (f : A -> S -> A * S) (xs : list A) (s : S) (b : Browser) :
  (forall x s b, callback x s b = Returns (f x s, b)) ->
  forEach callback xs s b = Returns (mapAccum f xs s, b).
Proof.
  intros Hcb. revert s. induction xs as [| x xs IH]; intros s; cbn.
  - reflexivity.
  - unfold bind, ret in *. rewrite Hcb. destruct (f x s) as [x' s'].
    rewrite IH. destruct (mapAccum f xs s') as [xs' s'']. reflexivity.
Qed.

Lemma eachPipe_pure {S : Type} (callback : Pipe.t -> S -> JS (Pipe.t * S))
      (f : Pipe.t -> S -> Pipe.t * S) (this : Level.t) (s : S) (b : Browser) :
  (forall x s b, callback x s b = Returns (f x s, b)) ->
  Level.eachPipe callback this s b
  = Returns ((Level.set_pipes this (fst (mapAccum f (Level.pipes this) s)),
              snd (mapAccum f (Level.pipes this) s)), b).
Proof.
  intros Hcb. unfold Level.eachPipe, bind. rewrite (forEach_pure callback f) by exact Hcb.
  destruct (mapAccum f (Level.pipes this) s). reflexivity.
Qed.

Lemma set_pipes_same (this : Level.t) : Level.set_pipes this (Level.pipes this) = this.
Proof. destruct this; reflexivity. Qed.

Lemma mapAccum_map {A : Type} (f : A -> A) (xs : list A) :
  mapAccum (fun x (_ : unit) => (f x, tt)) xs tt = (map f xs, tt).
Proof.
  induction xs as [| x xs IH]; cbn; [reflexivity |]. rewrite IH. reflexivity.
Qed.

(* ------------------------------------------------------------------ *)
(** * Level: generating and moving pipes *)

(** [randomPipe] always returns, after one [Math.random()] call; the fields
    of the pair it returns. *)
Lemma randomPipe_returns (distance : number) (this : Level.t) (b : Browser) :
  exists pipe,
    Level.randomPipe distance this b
    = Returns (pipe, mkBrowser (entropy b) (S (drawn b)) (alerts b) (frameRequests b))
    /\ Pipe.serial pipe = drawn b
    /\ Pipe.passed pipe = false
    /\ Rect.left (Pipe.topPipe pipe) = distance
    /\ Rect.left (Pipe.bottomPipe pipe) = distance
    /\ Rect.right (Pipe.topPipe pipe) = CONSTANTS.PIPE_WIDTH + distance
    /\ Rect.right (Pipe.bottomPipe pipe) = CONSTANTS.PIPE_WIDTH + distance
    /\ Rect.top (Pipe.topPipe pipe) = 0
    /\ Rect.bottom (Pipe.bottomPipe pipe) = height (Level.dimensions this)
    /\ gapTop pipe
       = add64 (mul64 (entropy b (drawn b))
                      (sub64 (sub64 (height (Level.dimensions this))
                                    (2 * CONSTANTS.EDGE_BUFFER))
                             CONSTANTS.PIPE_GAP))
               CONSTANTS.EDGE_BUFFER
    /\ gapBottom pipe = add64 (gapTop pipe) CONSTANTS.PIPE_GAP.
Proof.
  eexists. split.
  - cbv [Level.randomPipe bind randomCalls Math_random ret]. reflexivity.
  - cbn. repeat split.
Qed.

(** [movePipes] without the monad: the shifted pairs, the test on the
    front pair and the two array accesses that can throw. *)
Lemma movePipes_unfold (this : Level.t) (b : Browser) :
  Level.movePipes this b
  = match map Level.movePipe (Level.pipes this) with
    | [] => Throws TypeError
    | front :: rest =>
        if leb (rightEdge front) 0 then
          match nth_error rest 1 with
          | None => Throws TypeError
          | Some last =>
              match Level.randomPipe (leftEdge last + CONSTANTS.HORIZONTAL_PIPE_SPACING)
                                     (Level.set_pipes this rest) b with
              | Returns (pipe, b') => Returns (Level.set_pipes this (rest ++ [pipe]), b')
              | Throws e => Throws e
              | OutOfFuel => OutOfFuel
              end
          end
        else Returns (Level.set_pipes this (front :: rest), b)
    end.
Proof.
  unfold Level.movePipes. unfold bind at 1.
  rewrite (eachPipe_pure _ (fun pipe _ => (Level.movePipe pipe, tt))) by reflexivity.
  rewrite mapAccum_map.
  cbn [fst snd]. unfold bind at 1, Level.pipeAt.
  cbn [Level.pipes Level.set_pipes].
  destruct (map Level.movePipe (Level.pipes this)) as [| front rest]; [reflexivity |].
  cbn [nth_error]. unfold ret at 1. cbn [tl].
  unfold rightEdge. destruct (leb _ 0); [| reflexivity].
  unfold bind at 1. destruct rest as [| r1 [| last rest]]; reflexivity.
Qed.

(** [new Level(dimensions)] always returns, after three [Math.random()]
    calls; the three pairs it holds, front to back. *)
Lemma constructor_returns (d : Dimensions) (b : Browser) :
  exists p0 p1 p2,
    Level.constructor d b
    = Returns (Level.mk d [p0; p1; p2] [mkBackground (480 - 1920)] true,
               mkBrowser (entropy b) (3 + drawn b) (alerts b) (frameRequests b))
    /\ (leftEdge p0 = width d + (CONSTANTS.WARMUP_SECONDS * 60 * CONSTANTS.PIPE_SPEED)
        /\ leftEdge p1 = leftEdge p0 + CONSTANTS.HORIZONTAL_PIPE_SPACING
        /\ leftEdge p2 = leftEdge p0 + (2 * CONSTANTS.HORIZONTAL_PIPE_SPACING))
    /\ (rightEdge p0 = CONSTANTS.PIPE_WIDTH + leftEdge p0
        /\ rightEdge p1 = CONSTANTS.PIPE_WIDTH + leftEdge p1
        /\ rightEdge p2 = CONSTANTS.PIPE_WIDTH + leftEdge p2)
    /\ (Pipe.serial p0 = drawn b /\ Pipe.serial p1 = S (drawn b)
        /\ Pipe.serial p2 = S (S (drawn b)))
    /\ Forall (fun p => Pipe.passed p = false) [p0; p1; p2]
    /\ Forall (fun p => Rect.left (Pipe.bottomPipe p) = leftEdge p
                        /\ Rect.right (Pipe.bottomPipe p) = rightEdge p) [p0; p1; p2]
    /\ Forall (fun p => gapTop p
                        = add64 (mul64 (entropy b (Pipe.serial p))
                                       (sub64 (sub64 (height d) (2 * CONSTANTS.EDGE_BUFFER))
                                              CONSTANTS.PIPE_GAP))
                                CONSTANTS.EDGE_BUFFER
                        /\ gapBottom p = add64 (gapTop p) CONSTANTS.PIPE_GAP) [p0; p1; p2].
Proof.
  do 3 eexists. split.
  - cbv [Level.constructor Level.randomPipe Level.makeBackground bind randomCalls
           Math_random ret Level.set_pipes Level.set_backgroundQueue
           Level.set_appendBackground Level.appendBackground Level.dimensions
           Level.pipes Level.backgroundQueue entropy drawn alerts frameRequests
           Nat.add].
    reflexivity.
  - cbn. repeat split; repeat constructor; reflexivity.
Qed.

Lemma movePipes_three (this : Level.t) (p0 p1 p2 : Pipe.t) (b : Browser) :
  Level.pipes this = [p0; p1; p2] ->
  (leb (rightEdge (Level.movePipe p0)) 0 = true
   /\ exists pipe,
        Level.randomPipe (leftEdge (Level.movePipe p2) + CONSTANTS.HORIZONTAL_PIPE_SPACING)
                         (Level.set_pipes this [Level.movePipe p1; Level.movePipe p2]) b
        = Returns (pipe, mkBrowser (entropy b) (S (drawn b)) (alerts b) (frameRequests b))
        /\ Level.movePipes this b
           = Returns (Level.set_pipes this [Level.movePipe p1; Level.movePipe p2; pipe],
                      mkBrowser (entropy b) (S (drawn b)) (alerts b) (frameRequests b)))
  \/
  (leb (rightEdge (Level.movePipe p0)) 0 = false
   /\ Level.movePipes this b
      = Returns (Level.set_pipes this
                   [Level.movePipe p0; Level.movePipe p1; Level.movePipe p2], b)).
Proof.
  intros Hps. rewrite movePipes_unfold, Hps. cbn [map nth_error].
  destruct (leb (rightEdge (Level.movePipe p0)) 0) eqn:E; [left | right]; split; try reflexivity.
  destruct (randomPipe_returns
              (leftEdge (Level.movePipe p2) + CONSTANTS.HORIZONTAL_PIPE_SPACING)
              (Level.set_pipes this [Level.movePipe p1; Level.movePipe p2]) b)
    as (pipe & Hr & _).
  exists pipe. split; [exact Hr |]. rewrite Hr. reflexivity.
Qed.

(** [movePipes] talks to the browser through [Math.random()] only. *)
Lemma movePipes_browser (this this' : Level.t) (b b' : Browser) :
  Level.movePipes this b = Returns (this', b') ->
  (drawn b <= drawn b')%nat
  /\ alerts b' = alerts b
  /\ frameRequests b' = frameRequests b
  /\ entropy b' = entropy b.
Proof.
  rewrite movePipes_unfold.
  destruct (map Level.movePipe _) as [| front rest]; [discriminate |].
  destruct (leb _ 0).
  - destruct (nth_error rest 1) as [last |]; [| discriminate].
    destruct (randomPipe_returns
                (leftEdge last + CONSTANTS.HORIZONTAL_PIPE_SPACING)
                (Level.set_pipes this rest) b) as (pipe & Hr & _).
    rewrite Hr. intros H. injection H as _ <-. cbn. auto.
  - intros H. injection H as _ <-. auto.
Qed.

Lemma movePipe_edges (p : Pipe.t) :
  leftEdge (Level.movePipe p) = leftEdge p - CONSTANTS.PIPE_SPEED
  /\ rightEdge (Level.movePipe p) = rightEdge p - CONSTANTS.PIPE_SPEED
  /\ Rect.left (Pipe.bottomPipe (Level.movePipe p))
     = Rect.left (Pipe.bottomPipe p) - CONSTANTS.PIPE_SPEED
  /\ Rect.right (Pipe.bottomPipe (Level.movePipe p))
     = Rect.right (Pipe.bottomPipe p) - CONSTANTS.PIPE_SPEED
  /\ gapTop (Level.movePipe p) = gapTop p
  /\ gapBottom (Level.movePipe p) = gapBottom p
  /\ Pipe.passed (Level.movePipe p) = Pipe.passed p
  /\ Pipe.serial (Level.movePipe p) = Pipe.serial p.
Proof. repeat split. Qed.

Lemma spaced_movePipe (ps : list Pipe.t) : spaced ps -> spaced (map Level.movePipe ps).
Proof.
  induction ps as [| a [| b rest] IH]; cbn [map spaced]; intros H; auto.
  destruct H as [Hab Hrest]. split; [| apply IH; exact Hrest].
  unfold leftEdge in *. cbn. lra.
Qed.

Lemma movePipes_spaced3 (this : Level.t) (p0 p1 p2 : Pipe.t) (b : Browser) :
  Level.pipes this = [p0; p1; p2] ->
  exists this' b',
    Level.movePipes this b = Returns (this', b')
    /\ Level.dimensions this' = Level.dimensions this
    /\ ((rightEdge p0 - CONSTANTS.PIPE_SPEED <= 0
         /\ exists pipe,
              Level.pipes this' = [Level.movePipe p1; Level.movePipe p2; pipe]
              /\ leftEdge pipe = leftEdge (Level.movePipe p2) + CONSTANTS.HORIZONTAL_PIPE_SPACING
              /\ Pipe.serial pipe = drawn b /\ drawn b' = S (drawn b)
              /\ Pipe.passed pipe = false)
        \/ (~ rightEdge p0 - CONSTANTS.PIPE_SPEED <= 0
            /\ Level.pipes this' = [Level.movePipe p0; Level.movePipe p1; Level.movePipe p2]
            /\ b' = b)).
Proof.
  intros Hps.
  destruct (movePipes_three this p0 p1 p2 b Hps) as [[E (pipe & Hr & Hm)] | [E Hm]];
    rewrite Hm; do 2 eexists; (split; [reflexivity |]); (split; [reflexivity |]).
  - left. apply leb_le in E. split; [exact E |]. exists pipe.
    destruct (randomPipe_returns
                (leftEdge (Level.movePipe p2) + CONSTANTS.HORIZONTAL_PIPE_SPACING)
                (Level.set_pipes this [Level.movePipe p1; Level.movePipe p2]) b)
      as (pipe' & Hr' & Hs & Hp & Hl & _).
    rewrite Hr in Hr'. injection Hr' as <-. unfold leftEdge at 1. auto.
  - right. apply leb_gt in E. split; [| auto].
    intros H. apply (Qlt_not_le _ _ E). exact H.
Qed.

Lemma movePipes_invariant (this : Level.t) (b : Browser) :
  levelInvariant this b ->
  exists this' b',
    Level.movePipes this b = Returns (this', b')
    /\ levelInvariant this' b'
    /\ Level.dimensions this' = Level.dimensions this.
Proof.
  intros (p0 & p1 & p2 & Hps & Hsp & Hser & Hlast).
  destruct (movePipes_spaced3 this p0 p1 p2 b Hps)
    as (this' & b' & Hm & Hd & [[_ (pipe & Hps' & Hl & Hs & Hdr & _)] | [_ [Hps' Hb]]]);
    exists this', b'; (split; [exact Hm |]); (split; [| exact Hd]).
  - exists (Level.movePipe p1), (Level.movePipe p2), pipe. split; [exact Hps' |].
    apply (spaced_movePipe [p0; p1; p2]) in Hsp. cbn [map spaced] in Hsp.
    cbn [spaced]. repeat split; try tauto.
    + rewrite Hl. lra.
    + cbn. lia.
    + congruence.
  - exists (Level.movePipe p0), (Level.movePipe p1), (Level.movePipe p2).
    split; [exact Hps' |]. split; [apply (spaced_movePipe [p0; p1; p2]); exact Hsp |].
    cbn. split; [lia | rewrite Hb; exact Hlast].
Qed.

Lemma constructor_invariant (d : Dimensions) (b : Browser) :
  exists this b',
    Level.constructor d b = Returns (this, b')
    /\ levelInvariant this b'
    /\ Level.dimensions this = d.
Proof.
  destruct (constructor_returns d b)
    as (p0 & p1 & p2 & Hc & (Hl0 & Hl1 & Hl2) & _ & (Hs0 & Hs1 & Hs2) & _).
  do 2 eexists. split; [exact Hc |]. split; [| reflexivity].
  exists p0, p1, p2. split; [reflexivity |]. cbn [spaced drawn].
  repeat split; try lia.
  - rewrite Hl1. lra.
  - rewrite Hl2, Hl1. lra.
Qed.

Lemma frames_invariant (n : nat) (this : Level.t) (b : Browser) :
  levelInvariant this b ->
  exists this' b',
    frames n this b = Returns (this', b')
    /\ levelInvariant this' b'
    /\ Level.dimensions this' = Level.dimensions this.
Proof.
  revert this b. induction n as [| n IH]; intros this b Hinv.
  - exists this, b. repeat split; auto.
  - destruct (movePipes_invariant this b Hinv) as (this1 & b1 & Hm & Hinv1 & Hd1).
    destruct (IH this1 b1 Hinv1) as (this2 & b2 & Hf & Hinv2 & Hd2).
    exists this2, b2. cbn [frames]. unfold bind. rewrite Hm.
    repeat split; auto. congruence.
Qed.

Lemma levelAfter_invariant (n : nat) (d : Dimensions) (b : Browser) :
  exists this b',
    levelAfter n d b = Returns (this, b')
    /\ levelInvariant this b'
    /\ Level.dimensions this = d.
Proof.
  destruct (constructor_invariant d b) as (this0 & b0 & Hc & Hinv0 & Hd0).
  destruct (frames_invariant n this0 b0 Hinv0) as (this & b' & Hf & Hinv & Hd).
  exists this, b'. unfold levelAfter, bind. rewrite Hc.
  repeat split; auto. congruence.
Qed.

Lemma oldestFirst_three (p0 p1 p2 : Pipe.t) :
  (Pipe.serial p0 < Pipe.serial p1 < Pipe.serial p2)%nat -> oldestFirst [p0; p1; p2].
Proof.
  intros Hser. unfold oldestFirst. cbn [map].
  repeat (constructor; [| repeat constructor; lia]). constructor.
Qed.

(** C2.  From [new Level(dimensions)] on, for any dimensions and whatever
    values [Math.random()] returns, after any number of [movePipes()]
    frames the Level holds exactly 3 pipe pairs; front to back they are in
    the order of their creation (oldest at the front), and the pair at the
    back is the pair created most recently. *)
Theorem Level_three_pipes_oldest_first (d : Dimensions) (n : nat) (b : Browser) :
  exists this b',
    levelAfter n d b = Returns (this, b')
    /\ length (Level.pipes this) = 3%nat
    /\ oldestFirst (Level.pipes this)
    /\ (exists newest, nth_error (Level.pipes this) 2 = Some newest
                       /\ S (Pipe.serial newest) = drawn b').
Proof.
  destruct (levelAfter_invariant n d b)
    as (this & b' & Hrun & (p0 & p1 & p2 & Hps & _ & Hser & Hlast) & _).
  exists this, b'. split; [exact Hrun |]. rewrite Hps. split; [reflexivity |]. split.
  - apply oldestFirst_three. exact Hser.
  - exists p2. split; [reflexivity | exact Hlast].
Qed.

(** C3.  One frame of [movePipes()] on a Level of three pairs first shifts
    every horizontal edge of every pair left by PIPE_SPEED.  Then, if the
    front pair's right edge is [<= 0], that pair is removed and a pair is
    appended whose left edge is the last remaining pair's left edge plus
    HORIZONTAL_PIPE_SPACING; otherwise the three shifted pairs stay.
    Either way a sequence that was evenly spaced stays evenly spaced.
    Hence from [new Level(dimensions)] on, after any number of frames,
    the pairs are in the order of their creation and each pair's left edge
    is HORIZONTAL_PIPE_SPACING to the right of the left edge of the next
    older pair. *)
Theorem movePipes_recycles_with_constant_spacing :
  (forall p,
      leftEdge (Level.movePipe p) == leftEdge p - CONSTANTS.PIPE_SPEED
      /\ rightEdge (Level.movePipe p) == rightEdge p - CONSTANTS.PIPE_SPEED
      /\ Rect.left (Pipe.bottomPipe (Level.movePipe p))
         == Rect.left (Pipe.bottomPipe p) - CONSTANTS.PIPE_SPEED
      /\ Rect.right (Pipe.bottomPipe (Level.movePipe p))
         == Rect.right (Pipe.bottomPipe p) - CONSTANTS.PIPE_SPEED)
  /\
  (forall this p0 p1 p2 b,
      Level.pipes this = [p0; p1; p2] ->
      exists this' b',
        Level.movePipes this b = Returns (this', b')
        /\ ((rightEdge (Level.movePipe p0) <= 0
             /\ exists pipe,
                  Level.pipes this' = [Level.movePipe p1; Level.movePipe p2; pipe]
                  /\ leftEdge pipe
                     == leftEdge (Level.movePipe p2) + CONSTANTS.HORIZONTAL_PIPE_SPACING)
            \/ (~ rightEdge (Level.movePipe p0) <= 0
                /\ Level.pipes this'
                   = [Level.movePipe p0; Level.movePipe p1; Level.movePipe p2]))
        /\ (spaced (Level.pipes this) -> spaced (Level.pipes this')))
  /\
  (forall d n b,
      exists this b',
        levelAfter n d b = Returns (this, b')
        /\ oldestFirst (Level.pipes this)
        /\ spaced (Level.pipes this)).
Proof.
  split; [| split].
  - intros p. repeat split; reflexivity.
  - intros this p0 p1 p2 b Hps.
    destruct (movePipes_spaced3 this p0 p1 p2 b Hps)
      as (this' & b' & Hm & _ & [[Hle (pipe & Hps' & Hl & _)] | [Hgt [Hps' _]]]);
      exists this', b'; (split; [exact Hm |]); split.
    + left. split; [exact Hle |]. exists pipe. split; [exact Hps' |].
      rewrite Hl. reflexivity.
    + rewrite Hps, Hps'. intros Hsp.
      apply (spaced_movePipe [p0; p1; p2]) in Hsp. cbn [map spaced] in Hsp.
      cbn [spaced]. repeat split; try tauto. rewrite Hl. lra.
    + right. split; [exact Hgt | exact Hps'].
    + rewrite Hps, Hps'. apply (spaced_movePipe [p0; p1; p2]).
  - intros d n b.
    destruct (levelAfter_invariant n d b)
      as (this & b' & Hrun & (p0 & p1 & p2 & Hps & Hsp & Hser & _) & _).
    exists this, b'. split; [exact Hrun |]. rewrite Hps. split; [| exact Hsp].
    apply oldestFirst_three. exact Hser.
Qed.

Lemma inject_Z_sub (a b : Z) : inject_Z (a - b) == inject_Z a - inject_Z b.
Proof. unfold Z.sub, Qminus. rewrite inject_Z_plus, inject_Z_opp. reflexivity. Qed.

Lemma heightRange_pixels (n : Z) :
  (0 <= n < 2 ^ 32)%Z ->
  sub64 (sub64 (inject_Z n) (2 * CONSTANTS.EDGE_BUFFER)) CONSTANTS.PIPE_GAP
  == inject_Z (n - 250).
Proof.
  intros Hn. unfold sub64.
  assert (E1 : inject_Z n - 2 * CONSTANTS.EDGE_BUFFER == inject_Z (n - 100))
    by (rewrite inject_Z_sub; reflexivity).
  rewrite E1, (round64_Z (n - 100)) by lia.
  assert (E2 : inject_Z (n - 100) - CONSTANTS.PIPE_GAP == inject_Z (n - 250)).
  { replace (n - 250)%Z with (n - 100 - 150)%Z by lia.
    rewrite (inject_Z_sub (n - 100) 150). reflexivity. }
  rewrite E2. apply round64_Z. lia.
Qed.

(** The gap of a pair, computed in doubles as [randomPipe] does, for the
    random value [r] and the field height [h]. *)
Lemma gap_in_band (r h : number) :
  0 <= r -> r < 1 ->
  pixels h ->
  h - 2 * CONSTANTS.EDGE_BUFFER - CONSTANTS.PIPE_GAP >= 0 ->
  let top :=
    add64 (mul64 r (sub64 (sub64 h (2 * CONSTANTS.EDGE_BUFFER)) CONSTANTS.PIPE_GAP))
          CONSTANTS.EDGE_BUFFER in
  let bottom := add64 top CONSTANTS.PIPE_GAP in
  CONSTANTS.EDGE_BUFFER <= top
  /\ bottom <= h - CONSTANTS.EDGE_BUFFER
  /\ Qabs (bottom - top - CONSTANTS.PIPE_GAP) <= (top + CONSTANTS.PIPE_GAP) * pow2 (-53)
  /\ isDouble top.
Proof.
  intros Hr0 Hr1 (n & Hn & Hh) Hrange. cbv zeta.
  assert (Hn250 : (250 <= n)%Z).
  { rewrite Hh in Hrange. unfold CONSTANTS.EDGE_BUFFER, CONSTANTS.PIPE_GAP in Hrange.
    assert (H : inject_Z 250 <= inject_Z n) by (change (inject_Z 250) with 250; lra).
    rewrite <- Zle_Qle in H. exact H. }
  assert (Ehr : sub64 (sub64 h (2 * CONSTANTS.EDGE_BUFFER)) CONSTANTS.PIPE_GAP
                == inject_Z (n - 250)).
  { unfold sub64. rewrite Hh. apply heightRange_pixels. exact Hn. }
  set (hr := sub64 (sub64 h (2 * CONSTANTS.EDGE_BUFFER)) CONSTANTS.PIPE_GAP) in *.
  assert (Hhr0 : 0 <= hr).
  { rewrite Ehr. change 0 with (inject_Z 0). rewrite <- Zle_Qle. lia. }
  assert (Hdhr : isDouble hr) by apply isDouble_round64.
  unfold add64, mul64. set (t := round64 (r * hr)).
  assert (Ht0 : 0 <= t).
  { apply (round64_ge 0); [apply (isDouble_Z 0); lia |].
    apply Qmult_le_0_compat; assumption. }
  assert (Ht1 : t <= hr).
  { apply round64_le_double; [exact Hdhr |].
    assert (H : 0 <= (1 - r) * hr) by (apply Qmult_le_0_compat; [lra | exact Hhr0]).
    lra. }
  assert (E250 : inject_Z (n - 250) == h - 250) by (rewrite Hh, inject_Z_sub; reflexivity).
  assert (E200 : inject_Z (n - 200) == h - 200) by (rewrite Hh, inject_Z_sub; reflexivity).
  assert (E50 : inject_Z (n - 50) == h - 50) by (rewrite Hh, inject_Z_sub; reflexivity).
  rewrite E250 in Ehr.
  unfold CONSTANTS.EDGE_BUFFER, CONSTANTS.PIPE_GAP in *.
  set (top := round64 (t + 50)).
  assert (Htop0 : 50 <= top).
  { apply (round64_ge 50); [apply (isDouble_Z 50); lia | lra]. }
  assert (Htop1 : top <= h - 200).
  { rewrite <- E200. apply round64_le_double; [apply isDouble_Z; lia |].
    rewrite E200. lra. }
  assert (Hbottom : round64 (top + 150) <= h - 50).
  { rewrite <- E50. apply round64_le_double; [apply isDouble_Z; lia |].
    rewrite E50. lra. }
  split; [exact Htop0 |]. split; [exact Hbottom |]. split; [| apply isDouble_round64].
  assert (E : round64 (top + 150) - top - 150 == round64 (top + 150) - (top + 150))
    by ring.
  rewrite E.
  assert (Hpos : Qabs (top + 150) == top + 150) by (apply Qabs_pos; lra).
  apply (Qle_trans _ (Qabs (top + 150) * pow2 (-53))).
  - apply round64_error_relative.
    rewrite Hpos. apply (Qle_trans _ 1); [| lra].
    change 1 with (pow2 0). apply pow2_le. lia.
  - rewrite Hpos. apply Qle_refl.
Qed.

Lemma gap_out_of_band (r h : number) :
  0 <= r ->
  CONSTANTS.PIPE_GAP + 2 * CONSTANTS.EDGE_BUFFER > h ->
  let top :=
    add64 (mul64 r (sub64 (sub64 h (2 * CONSTANTS.EDGE_BUFFER)) CONSTANTS.PIPE_GAP))
          CONSTANTS.EDGE_BUFFER in
  let bottom := add64 top CONSTANTS.PIPE_GAP in
  top <= CONSTANTS.EDGE_BUFFER
  /\ (top < CONSTANTS.EDGE_BUFFER \/ bottom > h - CONSTANTS.EDGE_BUFFER).
Proof.
  intros Hr0 Hlow. cbv zeta.
  unfold add64, mul64, sub64, CONSTANTS.EDGE_BUFFER, CONSTANTS.PIPE_GAP in *.
  set (s := round64 (h - 2 * 50)).
  assert (Hs : s <= 150).
  { apply round64_le_double; [apply (isDouble_Z 150); lia | lra]. }
  set (hr := round64 (s - 150)).
  assert (Hhr : hr <= 0).
  { apply round64_le_double; [apply (isDouble_Z 0); lia | lra]. }
  set (t := round64 (r * hr)).
  assert (Ht : t <= 0).
  { apply round64_le_double; [apply (isDouble_Z 0); lia |].
    assert (H : 0 <= r * - hr) by (apply Qmult_le_0_compat; lra). lra. }
  set (top := round64 (t + 50)).
  assert (Htop : top <= 50).
  { apply round64_le_double; [apply (isDouble_Z 50); lia | lra]. }
  split; [exact Htop |].
  destruct (Qlt_le_dec top 50) as [Hlt | Hge]; [left; exact Hlt | right].
  assert (E : top + 150 == inject_Z 200) by (change (inject_Z 200) with 200; lra).
  rewrite E, (round64_Z 200) by lia. change (inject_Z 200) with 200. lra.
Qed.

(** C4, as the code has it.  When [Math.random()] returns a value in
    [0, 1) and the field's height is a whole number of pixels, high enough
    for the gap and both edge buffers, the pair [randomPipe(distance)]
    returns has its gap between the edge buffers: the top is at least
    EDGE_BUFFER and the bottom at most [height - EDGE_BUFFER].  The bottom
    of the gap is the double nearest to [gapTop + PIPE_GAP], so the gap is
    PIPE_GAP up to one rounding, a relative error of [2^-53], and not
    always PIPE_GAP itself.  Both sub-pipes reach from [distance] to
    [distance + PIPE_WIDTH], and the [passed] flag is false. *)
Theorem randomPipe_gap_and_extent (distance : number) (this : Level.t) (b : Browser) :
  0 <= entropy b (drawn b) /\ entropy b (drawn b) < 1 ->
  pixels (height (Level.dimensions this)) ->
  height (Level.dimensions this) - 2 * CONSTANTS.EDGE_BUFFER - CONSTANTS.PIPE_GAP >= 0 ->
  exists pipe b',
    Level.randomPipe distance this b = Returns (pipe, b')
    /\ gapBottom pipe == round64 (gapTop pipe + CONSTANTS.PIPE_GAP)
    /\ Qabs (gapBottom pipe - gapTop pipe - CONSTANTS.PIPE_GAP)
       <= (gapTop pipe + CONSTANTS.PIPE_GAP) * pow2 (-53)
    /\ gapTop pipe >= CONSTANTS.EDGE_BUFFER
    /\ gapBottom pipe <= height (Level.dimensions this) - CONSTANTS.EDGE_BUFFER
    /\ (Rect.left (Pipe.topPipe pipe) == distance
        /\ Rect.right (Pipe.topPipe pipe) == distance + CONSTANTS.PIPE_WIDTH)
    /\ (Rect.left (Pipe.bottomPipe pipe) == distance
        /\ Rect.right (Pipe.bottomPipe pipe) == distance + CONSTANTS.PIPE_WIDTH)
    /\ Pipe.passed pipe = false.
Proof.
  intros [Hr0 Hr1] Hpx Hh.
  destruct (randomPipe_returns distance this b)
    as (pipe & Hr & _ & Hp & Hlt & Hlb & Hrt & Hrb & _ & _ & Hgt & Hgb).
  destruct (gap_in_band _ _ Hr0 Hr1 Hpx Hh) as (Htop & Hbottom & Hgap & _).
  rewrite <- Hgt in Htop, Hbottom, Hgap. rewrite <- Hgb in Hbottom, Hgap.
  exists pipe, (mkBrowser (entropy b) (S (drawn b)) (alerts b) (frameRequests b)).
  split; [exact Hr |].
  split; [rewrite Hgb; reflexivity |].
  split; [exact Hgap |]. split; [exact Htop |]. split; [exact Hbottom |].
  rewrite Hlt, Hlb, Hrt, Hrb. unfold CONSTANTS.PIPE_WIDTH.
  repeat split; try lra. exact Hp.
Qed.

(* ------------------------------------------------------------------ *)
(** * Level: the collision query *)

Lemma _overlap_true (p c : Rect.t) : Level._overlap p c = true <-> overlap p c.
Proof.
  unfold Level._overlap, overlap, strictlyApart.
  destruct (gtb (Rect.left p) (Rect.right c)) eqn:E1;
    [apply gtb_gt in E1 | apply gtb_le in E1];
    (destruct (ltb (Rect.right p) (Rect.left c)) eqn:E2;
     [apply ltb_lt in E2 | apply ltb_ge in E2]);
    cbn [orb]; try (split; [discriminate | intros H; exfalso; apply H; tauto]).
  destruct (gtb (Rect.top p) (Rect.bottom c)) eqn:E3;
    [apply gtb_gt in E3 | apply gtb_le in E3];
    (destruct (ltb (Rect.bottom p) (Rect.top c)) eqn:E4;
     [apply ltb_lt in E4 | apply ltb_ge in E4]);
    cbn [orb]; try (split; [discriminate | intros H; exfalso; apply H; tauto]).
  split; [| reflexivity]. intros _ [H | [H | [H | H]]]; lra.
Qed.

(** Whether the callback of [collidesWith] assigns [collision = true]. *)
Lemma collides_mapAccum (hit : Pipe.t -> bool) (ps : list Pipe.t) (collision : bool) :
  mapAccum (fun pipe collision => if hit pipe then (pipe, true) else (pipe, collision))
           ps collision
  = (ps, collision || existsb hit ps).
Proof.
  revert collision. induction ps as [| p ps IH]; intros collision; cbn.
  - rewrite orb_false_r. reflexivity.
  - destruct (hit p); rewrite IH; cbn.
    + rewrite orb_true_r. reflexivity.
    + reflexivity.
Qed.

Lemma collidesWith_returns (capyBound : Rect.t) (this : Level.t) (b : Browser) :
  Level.collidesWith capyBound this b
  = Returns ((existsb (fun pipe => Level._overlap (Pipe.topPipe pipe) capyBound
                                   || Level._overlap (Pipe.bottomPipe pipe) capyBound)
                      (Level.pipes this), this), b).
Proof.
  unfold Level.collidesWith, bind.
  rewrite (eachPipe_pure _
             (fun pipe collision =>
                if Level._overlap (Pipe.topPipe pipe) capyBound
                   || Level._overlap (Pipe.bottomPipe pipe) capyBound
                then (pipe, true) else (pipe, collision))).
  - rewrite collides_mapAccum. cbn [fst snd orb]. rewrite set_pipes_same. reflexivity.
  - intros x s b0. destruct (_ || _); reflexivity.
Qed.

(** C5.  [collidesWith(characterBounds)] returns true exactly when the top
    or the bottom sub-pipe of some pair of the Level overlaps the
    character's bounds, where two rectangles overlap unless one is strictly
    left of, right of, above or below the other, so that touching edges
    overlap.  In particular it returns true for the bounds
    {left:100, right:145, top:0, bottom:33} when some pair has the top
    sub-pipe {left:90, right:140, top:0, bottom:50}. *)
Theorem collidesWith_iff_some_subpipe_overlaps (capyBound : Rect.t) (this : Level.t) (b : Browser) :
  exists collision,
    Level.collidesWith capyBound this b = Returns ((collision, this), b)
    /\ (collision = true
        <-> exists pipe, In pipe (Level.pipes this)
                         /\ (overlap (Pipe.topPipe pipe) capyBound
                             \/ overlap (Pipe.bottomPipe pipe) capyBound))
    /\ (capyBound = Rect.mk 100 145 0 33 ->
        (exists pipe, In pipe (Level.pipes this)
                      /\ Pipe.topPipe pipe = Rect.mk 90 140 0 50) ->
        collision = true).
Proof.
  eexists. split; [apply collidesWith_returns |].
  assert (Hiff : existsb (fun pipe => Level._overlap (Pipe.topPipe pipe) capyBound
                                      || Level._overlap (Pipe.bottomPipe pipe) capyBound)
                         (Level.pipes this) = true
                 <-> exists pipe, In pipe (Level.pipes this)
                                  /\ (overlap (Pipe.topPipe pipe) capyBound
                                      \/ overlap (Pipe.bottomPipe pipe) capyBound)).
  { rewrite existsb_exists. split; intros (pipe & Hin & H); exists pipe; (split; [exact Hin |]).
    - apply orb_true_iff in H. rewrite !_overlap_true in H. exact H.
    - apply orb_true_iff. rewrite !_overlap_true. exact H. }
  split; [exact Hiff |].
  intros -> (pipe & Hin & Htop). apply Hiff. exists pipe. split; [exact Hin |].
  left. rewrite Htop. apply _overlap_true. reflexivity.
Qed.

(** C10.  [collidesWith(characterBounds)] is a query: it returns the Level
    it was called on with every field as it was (the pipe sequence, every
    edge, every [passed] flag), it leaves the browser as it was (no
    [Math.random()] call, no alert, no frame request), and on any Level
    and browser whose pairs have the same rectangles it returns the same
    boolean. *)
Theorem collidesWith_is_pure (capyBound : Rect.t) (this : Level.t) (b : Browser) :
  exists collision,
    Level.collidesWith capyBound this b = Returns ((collision, this), b)
    /\ forall this' b',
         map rectangles (Level.pipes this') = map rectangles (Level.pipes this) ->
         Level.collidesWith capyBound this' b' = Returns ((collision, this'), b').
Proof.
  eexists. split; [apply collidesWith_returns |].
  intros this' b' Hrects. rewrite collidesWith_returns. do 3 f_equal.
  revert Hrects. generalize (Level.pipes this). generalize (Level.pipes this').
  induction l as [| p ps IH]; intros [| q qs] Hrects; try discriminate; [reflexivity |].
  cbn in Hrects. injection Hrects as Htop Hbot Hrest.
  cbn [existsb]. rewrite Htop, Hbot, (IH qs Hrest). reflexivity.
Qed.

(* ------------------------------------------------------------------ *)
(** * Capy: leaving the field *)


(* ------------------------------------------------------------------ *)
(** * Level: the passed-pipe query *)

Lemma justPassed_iff (capy : Rect.t) (pipe : Pipe.t) :
  justPassed capy pipe = true
  <-> rightEdge pipe < Rect.left capy /\ Pipe.passed pipe = false.
Proof.
  unfold justPassed. rewrite andb_true_iff, ltb_lt, negb_true_iff. reflexivity.
Qed.

Lemma forEach_passedPipe {S : Type} (capy : Rect.t) (callback : S -> JS S)
      (ps : list Pipe.t) (s : S) (b : Browser) :
  forEach (fun pipe s =>
             if ltb (Rect.right (Pipe.topPipe pipe)) (Rect.left capy) then
               if negb (Pipe.passed pipe) then
                 let pipe := Pipe.mk (Pipe.topPipe pipe) (Pipe.bottomPipe pipe) true
                                     (Pipe.serial pipe) in
                 s <- callback s ;;
                 ret (pipe, s)
               else ret (pipe, s)
             else ret (pipe, s)) ps s b
  = (s' <- callTimes (length (filter (justPassed capy) ps)) callback s ;;
     ret (map (markPassed capy) ps, s')) b.
Proof.
  revert s b. induction ps as [| p ps IH]; intros s b; [reflexivity |].
  cbn [forEach filter map]. unfold bind in *.
  assert (E : justPassed capy p
              = ltb (Rect.right (Pipe.topPipe p)) (Rect.left capy) && negb (Pipe.passed p))
    by reflexivity.
  unfold markPassed at 1. rewrite E.
  destruct (ltb (Rect.right (Pipe.topPipe p)) (Rect.left capy)); cbn [andb];
    [destruct (negb (Pipe.passed p)) |]; cbn [length callTimes]; unfold bind, ret at 1.
  - destruct (callback s b) as [[s1 b1] | e |]; try reflexivity.
    rewrite IH. destruct (callTimes _ callback s1 b1) as [[s2 b2] | e |]; reflexivity.
  - rewrite IH. destruct (callTimes _ callback s b) as [[s2 b2] | e |]; reflexivity.
  - rewrite IH. destruct (callTimes _ callback s b) as [[s2 b2] | e |]; reflexivity.
Qed.

Lemma markPassed_not_justPassed (capy capy' : Rect.t) (pipe : Pipe.t) :
  justPassed capy pipe = true -> justPassed capy' (markPassed capy pipe) = false.
Proof.
  intros H. unfold markPassed. rewrite H. unfold justPassed. cbn.
  apply andb_false_r.
Qed.

(** C6.  [passedPipe(characterBounds, callback)] calls [callback] once for
    each pair whose right edge is strictly left of [characterBounds.left]
    and whose [passed] flag is false, and sets the flag of each of these
    pairs; the other pairs are left as they are.  A pair whose flag is set
    is never called back for again, whatever the bounds of a later query
    and however far the pair has moved; querying again with the same
    bounds calls back for no pair. *)
Theorem passedPipe_calls_back_once_per_pair {S : Type}
        (capy : Rect.t) (callback : S -> JS S) (this : Level.t) (s : S) (b : Browser) :
  Level.passedPipe capy callback this s b
  = (s' <- callTimes (length (filter (justPassed capy) (Level.pipes this))) callback s ;;
     ret (Level.set_pipes this (map (markPassed capy) (Level.pipes this)), s')) b
  /\ (forall pipe,
         justPassed capy pipe = true
         <-> rightEdge pipe < Rect.left capy /\ Pipe.passed pipe = false)
  /\ (forall pipe,
         (justPassed capy pipe = true -> Pipe.passed (markPassed capy pipe) = true)
         /\ (justPassed capy pipe = false -> markPassed capy pipe = pipe))
  /\ (forall capy' pipe,
         Pipe.passed pipe = true ->
         justPassed capy' pipe = false
         /\ justPassed capy' (Level.movePipe pipe) = false
         /\ Pipe.passed (markPassed capy' pipe) = true)
  /\ filter (justPassed capy) (map (markPassed capy) (Level.pipes this)) = [].
Proof.
  split; [| split; [| split; [| split]]].
  - unfold Level.passedPipe, Level.eachPipe. unfold bind at 1.
    rewrite forEach_passedPipe. unfold bind.
    destruct (callTimes _ callback s b) as [[s' b'] | e |]; reflexivity.
  - intros pipe. apply justPassed_iff.
  - intros pipe. unfold markPassed. split; intros ->; reflexivity.
  - intros capy' pipe Hp. unfold markPassed, justPassed. cbn. rewrite Hp.
    rewrite !andb_false_r. auto.
  - induction (Level.pipes this) as [| p ps IH]; [reflexivity |].
    cbn [map filter]. rewrite IH.
    destruct (justPassed capy p) eqn:E.
    + rewrite (markPassed_not_justPassed capy capy p E). reflexivity.
    + unfold markPassed. rewrite E, E. reflexivity.
Qed.

(* ------------------------------------------------------------------ *)
(** * Level: construction with a field that is too low *)

Lemma constructor_gaps (d : Dimensions) (b : Browser) :
  uniform b ->
  exists this b',
    Level.constructor d b = Returns (this, b')
    /\ length (Level.pipes this) = 3%nat
    /\ Forall (fun p =>
                 malformed d ->
                 gapTop p <= CONSTANTS.EDGE_BUFFER
                 /\ (gapTop p < CONSTANTS.EDGE_BUFFER
                     \/ gapBottom p > height d - CONSTANTS.EDGE_BUFFER))
              (Level.pipes this).
Proof.
  intros Hu.
  destruct (constructor_returns d b) as (p0 & p1 & p2 & Hc & _ & _ & _ & _ & _ & Hgap).
  do 2 eexists. split; [exact Hc |]. split; [reflexivity |].
  cbn [Level.pipes]. revert Hgap. apply Forall_impl. intros p [Hgt Hgb] Hm.
  rewrite Hgb, Hgt. destruct (Hu (Pipe.serial p)) as [Hr0 _].
  apply gap_out_of_band; [exact Hr0 | exact Hm].
Qed.

(** C7, as the code has it.  Level construction validates nothing and never
    fails.  With a field too low for the gap and both edge buffers
    ([PIPE_GAP + 2 * EDGE_BUFFER > height], the height a whole number of
    pixels) it returns a Level of three pairs, each with a gap that leaves
    the band between the edge buffers: the gap's top is at most
    EDGE_BUFFER, and the top is less than EDGE_BUFFER or the bottom is
    greater than [height - EDGE_BUFFER]. *)
Theorem constructor_never_fails (d : Dimensions) (b : Browser) :
  ~ failsFast d b
  /\ (malformed d -> pixels (height d) -> uniform b ->
      exists this b',
        Level.constructor d b = Returns (this, b')
        /\ length (Level.pipes this) = 3%nat
        /\ Forall (fun p =>
                     gapTop p <= CONSTANTS.EDGE_BUFFER
                     /\ (gapTop p < CONSTANTS.EDGE_BUFFER
                         \/ gapBottom p > height d - CONSTANTS.EDGE_BUFFER))
                  (Level.pipes this)).
Proof.
  split.
  - intros [e He].
    destruct (constructor_returns d b) as (p0 & p1 & p2 & Hc & _).
    rewrite Hc in He. discriminate.
  - intros Hm _ Hu.
    destruct (constructor_gaps d b Hu) as (this & b' & Hc & Hlen & Hall).
    exists this, b'. split; [exact Hc |]. split; [exact Hlen |].
    revert Hall. apply Forall_impl. intros p Hmal. exact (Hmal Hm).
Qed.

(* ------------------------------------------------------------------ *)
(** * FlappyCapy: what every handler keeps *)

(** Reads the fields of a FlappyCapy written with the setters. *)
Tactic Notation "game_fields" :=
  cbn [FlappyCapy.dimensions FlappyCapy.level FlappyCapy.capy FlappyCapy.score
         FlappyCapy.running FlappyCapy.backgroundRunning
         FlappyCapy.set_level FlappyCapy.set_capy FlappyCapy.set_score
         FlappyCapy.set_running FlappyCapy.set_backgroundRunning].
Tactic Notation "game_fields" "in" hyp(H) :=
  cbn [FlappyCapy.dimensions FlappyCapy.level FlappyCapy.capy FlappyCapy.score
         FlappyCapy.running FlappyCapy.backgroundRunning
         FlappyCapy.set_level FlappyCapy.set_capy FlappyCapy.set_score
         FlappyCapy.set_running FlappyCapy.set_backgroundRunning] in H.

Lemma gameOver_returns (this : FlappyCapy.t) (b : Browser) :
  FlappyCapy.gameOver this b
  = Returns ((existsb (fun pipe =>
                         Level._overlap (Pipe.topPipe pipe) (Capy.bounds (FlappyCapy.capy this))
                         || Level._overlap (Pipe.bottomPipe pipe)
                                           (Capy.bounds (FlappyCapy.capy this)))
                      (Level.pipes (FlappyCapy.level this))
              || Capy.outOfBounds (FlappyCapy.capy this),
              FlappyCapy.set_level this (FlappyCapy.level this)), b).
Proof.
  unfold FlappyCapy.gameOver.
  rewrite (bind_returns _ _ _ _ _ (collidesWith_returns _ _ _)). reflexivity.
Qed.

Lemma animateLevelBackground_keeps (this this' : FlappyCapy.t) (b b' : Browser) :
  FlappyCapy.animateLevelBackground this b = Returns (this', b') -> keeps this this'.
Proof.
  unfold FlappyCapy.animateLevelBackground. intros H.
  apply bind_inv in H as (scrolled & b1 & _ & H).
  apply bind_inv in H as (drawn & b2 & _ & H).
  apply bind_inv in H as (u & b3 & _ & H).
  injection H as <- _. destruct (FlappyCapy.running _); split; auto.
Qed.

Lemma restart_keeps (animate : FlappyCapy.t -> JS FlappyCapy.t)
      (this this' : FlappyCapy.t) (b b' : Browser) :
  (forall g g' b b', animate g b = Returns (g', b') -> keeps g g') ->
  FlappyCapy.restart animate this b = Returns (this', b') ->
  FlappyCapy.dimensions this' = FlappyCapy.dimensions this
  /\ FlappyCapy.backgroundRunning this' = true.
Proof.
  intros Hanimate. unfold FlappyCapy.restart. intros H.
  apply bind_inv in H as (fresh & b1 & _ & H).
  apply bind_inv in H as (this1 & b2 & H1 & H).
  apply Hanimate in H as [Hd Hbg]. cbn in Hd, Hbg.
  game_fields in H1.
  destruct (FlappyCapy.backgroundRunning this) eqn:E; cbn [negb] in H1.
  - injection H1 as <- _. cbn in Hd, Hbg. rewrite E in Hbg. auto.
  - apply bind_inv in H1 as (this2 & b3 & H2 & H1).
    apply animateLevelBackground_keeps in H2 as [Hd2 _]. cbn in Hd2.
    injection H1 as <- _. cbn in Hd, Hbg. split; [congruence | auto].
Qed.

Lemma animate_S (fuel : nat) (this : FlappyCapy.t) :
  FlappyCapy.animate (S fuel) this
  = (moved <- Level.animate (FlappyCapy.level this) ;;
     let this := FlappyCapy.set_level this moved in
     '(over, this) <- FlappyCapy.gameOver this ;;
     this <-
       (if over then
          alert (FlappyCapy.score this) ;;;
          FlappyCapy.restart (FlappyCapy.animate fuel) this
        else ret this) ;;
     '(queried, counted) <-
       Level.passedPipe (Capy.bounds (FlappyCapy.capy this))
                        (fun counter => ret (counter + 1))
                        (FlappyCapy.level this) (FlappyCapy.score this) ;;
     let this := FlappyCapy.set_score (FlappyCapy.set_level this queried) counted in
     if FlappyCapy.running this then
       requestAnimationFrame AnimateCallback ;;;
       ret this
     else ret this).
Proof. reflexivity. Qed.

Lemma animate_keeps (fuel : nat) (this this' : FlappyCapy.t) (b b' : Browser) :
  FlappyCapy.animate fuel this b = Returns (this', b') -> keeps this this'.
Proof.
  revert this this' b b'. induction fuel as [| fuel IH]; intros this this' b b' H;
    [discriminate |].
  cbn [FlappyCapy.animate] in H.
  apply bind_inv in H as (moved & b1 & _ & H).
  rewrite (bind_returns _ _ _ _ _ (gameOver_returns _ _)) in H. cbv beta iota in H.
  apply bind_inv in H as (this2 & b2 & H2 & H).
  apply bind_inv in H as ([queried counted] & b3 & _ & H).
  assert (K2 : keeps this this2).
  { destruct (_ || _) in H2.
    - apply bind_inv in H2 as (u & b4 & _ & H2).
      apply (restart_keeps _ _ _ _ _ IH) in H2 as [Hd Hbg]. split; auto.
    - injection H2 as <- _. split; auto. }
  destruct K2 as [Hd Hbg].
  destruct (FlappyCapy.running _) in H.
  - apply bind_inv in H as (u & b4 & _ & H). injection H as <- _. split; auto.
  - injection H as <- _. split; auto.
Qed.

Lemma mousedown_keeps (fuel : nat) (this this' : FlappyCapy.t) (b b' : Browser) :
  FlappyCapy.mousedown fuel this b = Returns (this', b') -> keeps this this'.
Proof.
  unfold FlappyCapy.mousedown, FlappyCapy.play. intros H.
  apply bind_inv in H as (this1 & b1 & H1 & H). injection H as <- _.
  destruct (negb (FlappyCapy.running this)).
  - apply animate_keeps in H1 as [Hd Hbg]. split; auto.
  - injection H1 as <- _. split; auto.
Qed.

Lemma handle_keeps (fuel : nat) (e : Event) (this this' : FlappyCapy.t) (b b' : Browser) :
  handle fuel e this b = Returns (this', b') -> keeps this this'.
Proof.
  destruct e as [[|] |]; cbn [handle].
  - apply animate_keeps.
  - apply animateLevelBackground_keeps.
  - apply mousedown_keeps.
Qed.

Lemma handleAll_keeps (fuel : nat) (events : list Event)
      (this this' : FlappyCapy.t) (b b' : Browser) :
  handleAll fuel events this b = Returns (this', b') -> keeps this this'.
Proof.
  revert this b. induction events as [| e events IH]; intros this b H; cbn [handleAll] in H.
  - injection H as <- _. split; auto.
  - apply bind_inv in H as (this1 & b1 & H1 & H).
    apply handle_keeps in H1 as [Hd1 Hbg1]. apply IH in H as [Hd Hbg].
    split; [congruence | auto].
Qed.

Lemma reachable_keeps (d : Dimensions) (this : FlappyCapy.t) (b : Browser) :
  reachable d this b ->
  FlappyCapy.dimensions this = d /\ FlappyCapy.backgroundRunning this = true.
Proof.
  intros (fuel & events & b0 & H). unfold run in H.
  apply bind_inv in H as (this0 & b1 & H0 & H).
  unfold FlappyCapy.constructor in H0.
  apply (restart_keeps _ _ _ _ _ (animate_keeps fuel)) in H0 as [Hd0 Hbg0]. cbn in Hd0.
  apply handleAll_keeps in H as [Hd Hbg]. split; [congruence | auto].
Qed.

(* ------------------------------------------------------------------ *)
(** * FlappyCapy: a field too low for the Capy *)

Lemma fresh_capy_outside (d : Dimensions) :
  height d < 2 * CONST.CAPY_HEIGHT -> Capy.outOfBounds (Capy.constructor d) = true.
Proof.
  intros Hh. unfold Capy.outOfBounds, Capy.constructor. cbn [Capy.y Capy.dimensions].
  unfold CONST.CAPY_HEIGHT in *.
  change (height d / 2) with (height d * (1 # 2)).
  apply orb_true_iff. right. apply gtb_gt. lra.
Qed.

Lemma drawCapy_outOfBounds (this this' : Capy.t) (b b' : Browser) :
  Capy.drawCapy this b = Returns (this', b') ->
  Capy.outOfBounds this' = Capy.outOfBounds this.
Proof.
  unfold Capy.drawCapy.
  destruct (if leb _ _ then _ else _) as [c' [sprite |]]; [| discriminate].
  intros H. injection H as <- _. reflexivity.
Qed.

(** In a field lower than twice the Capy's height the freshly placed Capy is
    out of bounds, every frame restarts the game, and [restart] and
    [animate] call each other without end: no bound on the depth of the
    calls lets [restart] return. *)
Lemma restart_never_returns (animate : FlappyCapy.t -> JS FlappyCapy.t)
      (this : FlappyCapy.t) (b : Browser) (r : FlappyCapy.t * Browser) :
  (forall g b r,
      height (FlappyCapy.dimensions g) < 2 * CONST.CAPY_HEIGHT ->
      Capy.outOfBounds (FlappyCapy.capy g) = true ->
      animate g b <> Returns r) ->
  height (FlappyCapy.dimensions this) < 2 * CONST.CAPY_HEIGHT ->
  FlappyCapy.restart animate this b <> Returns r.
Proof.
  intros Hanimate Hh H. destruct r as [this' b']. unfold FlappyCapy.restart in H.
  apply bind_inv in H as (fresh & b1 & _ & H).
  apply bind_inv in H as (this1 & b2 & H1 & H).
  game_fields in H1.
  destruct (FlappyCapy.backgroundRunning this) eqn:E; cbn [negb] in H1.
  - unfold ret in H1. injection H1 as <- _.
    apply Hanimate in H; [exact H | exact Hh |].
    apply fresh_capy_outside. exact Hh.
  - apply bind_inv in H1 as (this2 & b3 & H2 & H1).
    unfold ret in H1. injection H1 as <- _.
    pose proof (animateLevelBackground_keeps _ _ _ _ H2) as [Hd _]. cbn in Hd.
    unfold FlappyCapy.animateLevelBackground in H2.
    apply bind_inv in H2 as (scrolled & b4 & _ & H2).
    game_fields in H2.
    apply bind_inv in H2 as (drawn & b5 & Hdraw & H2).
    apply bind_inv in H2 as (u & b6 & _ & H2).
    unfold ret in H2. injection H2 as Hthis2 _.
    apply Hanimate in H; [exact H | |]; cbn.
    + rewrite Hd. exact Hh.
    + rewrite <- Hthis2. cbn. rewrite (drawCapy_outOfBounds _ _ _ _ Hdraw).
      apply fresh_capy_outside. exact Hh.
Qed.

Lemma animate_never_returns (fuel : nat) (this : FlappyCapy.t) (b : Browser)
      (r : FlappyCapy.t * Browser) :
  height (FlappyCapy.dimensions this) < 2 * CONST.CAPY_HEIGHT ->
  Capy.outOfBounds (FlappyCapy.capy this) = true ->
  FlappyCapy.animate fuel this b <> Returns r.
Proof.
  revert this b r. induction fuel as [| fuel IH]; intros this b r Hh Hout H;
    [discriminate |].
  destruct r as [this' b']. rewrite animate_S in H.
  apply bind_inv in H as (moved & b1 & _ & H).
  rewrite (bind_returns _ _ _ _ _ (gameOver_returns _ _)) in H. cbv beta iota in H.
  game_fields in H.
  rewrite Hout, orb_true_r in H.
  apply bind_inv in H as (this2 & b2 & H2 & _).
  apply bind_inv in H2 as (u & b3 & _ & H2).
  revert H2. apply restart_never_returns; [exact IH | exact Hh].
Qed.

Lemma reachable_high_enough (d : Dimensions) (this : FlappyCapy.t) (b : Browser) :
  reachable d this b -> 2 * CONST.CAPY_HEIGHT <= height d.
Proof.
  intros (fuel & events & b0 & H).
  destruct (Qlt_le_dec (height d) (2 * CONST.CAPY_HEIGHT)) as [Hlow | Hok]; [| exact Hok].
  exfalso. unfold run in H. apply bind_inv in H as (this0 & b1 & H0 & _).
  revert H0. unfold FlappyCapy.constructor.
  apply restart_never_returns; [| exact Hlow].
  intros g b2 r. apply animate_never_returns.
Qed.

(* ------------------------------------------------------------------ *)
(** * FlappyCapy: a frame with every pair still ahead *)

Lemma ahead_no_overlap (c : Rect.t) (pipe : Pipe.t) :
  ahead c pipe ->
  Level._overlap (Pipe.topPipe pipe) c || Level._overlap (Pipe.bottomPipe pipe) c = false.
Proof.
  intros (Ht & Hb & _). unfold Level._overlap.
  apply gtb_gt in Ht, Hb. rewrite Ht, Hb. reflexivity.
Qed.

Lemma ahead_not_justPassed (c : Rect.t) (pipe : Pipe.t) :
  ahead c pipe -> justPassed c pipe = false.
Proof.
  intros (_ & _ & Hr). unfold justPassed, rightEdge.
  apply ltb_ge in Hr. rewrite Hr. reflexivity.
Qed.

Lemma ahead_no_collision (c : Rect.t) (ps : list Pipe.t) :
  Forall (ahead c) ps ->
  existsb (fun pipe => Level._overlap (Pipe.topPipe pipe) c
                       || Level._overlap (Pipe.bottomPipe pipe) c) ps = false.
Proof.
  induction 1 as [| p ps Hp _ IH]; cbn [existsb]; [reflexivity |].
  rewrite (ahead_no_overlap c p Hp), IH. reflexivity.
Qed.

Lemma passedPipe_ahead {S : Type} (c : Rect.t) (callback : S -> JS S)
      (this : Level.t) (s : S) (b : Browser) :
  Forall (ahead c) (Level.pipes this) ->
  Level.passedPipe c callback this s b = Returns ((this, s), b).
Proof.
  intros Hahead. unfold Level.passedPipe, Level.eachPipe.
  unfold bind at 1. rewrite forEach_passedPipe.
  assert (Hnone : filter (justPassed c) (Level.pipes this) = []
                  /\ map (markPassed c) (Level.pipes this) = Level.pipes this).
  { induction Hahead as [| p ps Hp _ [IHf IHm]]; [split; reflexivity |].
    cbn [filter map]. unfold markPassed at 1.
    rewrite (ahead_not_justPassed c p Hp), IHf, IHm. split; reflexivity. }
  destruct Hnone as [-> ->]. cbn. rewrite set_pipes_same. reflexivity.
Qed.

(** A frame in which nothing happens but the pipes moving: the game is not
    running, the character is inside the field and every pair is still
    ahead of it. *)
Lemma animate_quiet (fuel : nat) (this : FlappyCapy.t) (b b1 : Browser) (moved : Level.t) :
  Level.animate (FlappyCapy.level this) b = Returns (moved, b1) ->
  Forall (ahead (Capy.bounds (FlappyCapy.capy this))) (Level.pipes moved) ->
  Capy.outOfBounds (FlappyCapy.capy this) = false ->
  FlappyCapy.running this = false ->
  FlappyCapy.animate (S fuel) this b = Returns (FlappyCapy.set_level this moved, b1).
Proof.
  intros Hmove Hahead Hin Hidle. cbn [FlappyCapy.animate].
  rewrite (bind_returns _ _ _ _ _ Hmove).
  rewrite (bind_returns _ _ _ _ _ (gameOver_returns _ _)). cbv beta iota.
  game_fields.
  rewrite (ahead_no_collision _ _ Hahead), Hin. cbn [orb].
  unfold ret at 1. unfold bind at 1.
  game_fields.
  rewrite (bind_returns _ _ _ _ _ (passedPipe_ahead _ _ _ _ _ Hahead)). cbv beta iota.
  game_fields.
  rewrite Hidle. destruct this; reflexivity.
Qed.

(* ------------------------------------------------------------------ *)
(** * FlappyCapy: the first frame of a fresh game *)

Lemma fresh_capy_inside (d : Dimensions) :
  2 * CONST.CAPY_HEIGHT <= height d -> Capy.outOfBounds (Capy.constructor d) = false.
Proof.
  intros Hh. unfold Capy.outOfBounds, Capy.constructor. cbn [Capy.y Capy.dimensions].
  unfold CONST.CAPY_HEIGHT in *.
  change (height d / 2) with (height d * (1 # 2)).
  apply orb_false_iff. split; [apply ltb_ge | apply gtb_le]; lra.
Qed.

Lemma fresh_level_first_frame (d : Dimensions) (b : Browser) :
  0 <= width d ->
  exists fresh b' moved,
    Level.constructor d b = Returns (fresh, b')
    /\ Level.animate fresh b' = Returns (moved, b')
    /\ b' = mkBrowser (entropy b) (3 + drawn b) (alerts b) (frameRequests b)
    /\ length (Level.pipes moved) = 3%nat
    /\ Forall (ahead (Capy.bounds (Capy.constructor d))) (Level.pipes moved)
    /\ Forall (fun p => Pipe.passed p = false /\ (drawn b <= Pipe.serial p)%nat)
              (Level.pipes moved).
Proof.
  intros Hw.
  destruct (constructor_returns d b)
    as (p0 & p1 & p2 & Hc & (Hl0 & Hl1 & Hl2) & (Hr0 & Hr1 & Hr2) & (Hs0 & Hs1 & Hs2)
        & Hpassed & Hbottom & _).
  set (fresh := Level.mk d [p0; p1; p2] [mkBackground (480 - 1920)] true) in *.
  set (b' := mkBrowser (entropy b) (3 + drawn b) (alerts b) (frameRequests b)) in *.
  destruct (movePipes_spaced3 fresh p0 p1 p2 b' eq_refl)
    as (moved & b'' & Hm & _ & [[Hle _] | [_ [Hps Hb]]]).
  { exfalso. rewrite Hr0, Hl0 in Hle.
    unfold CONSTANTS.PIPE_WIDTH, CONSTANTS.WARMUP_SECONDS, CONSTANTS.PIPE_SPEED in Hle. lra. }
  subst b''. exists fresh, b', moved.
  split; [exact Hc |]. split; [exact Hm |]. split; [reflexivity |].
  rewrite Hps. split; [reflexivity |].
  inversion Hpassed as [| ? ? Hp0 Hpassed1]; subst.
  inversion Hpassed1 as [| ? ? Hp1 Hpassed2]; subst.
  inversion Hpassed2 as [| ? ? Hp2 _]; subst.
  inversion Hbottom as [| ? ? [Hbl0 Hbr0] Hbottom1]; subst.
  inversion Hbottom1 as [| ? ? [Hbl1 Hbr1] Hbottom2]; subst.
  inversion Hbottom2 as [| ? ? [Hbl2 Hbr2] _]; subst.
  split.
  - unfold ahead, Capy.bounds, Capy.constructor.
    cbn [Capy.x Rect.left Rect.right Level.movePipe Pipe.topPipe Pipe.bottomPipe].
    change (width d / 3) with (width d * (1 # 3)).
    unfold leftEdge, rightEdge in *.
    repeat (apply Forall_cons || apply Forall_nil);
      cbn [Level.movePipe Pipe.topPipe Pipe.bottomPipe Rect.left Rect.right];
      rewrite ?Hbl0, ?Hbl1, ?Hbl2, ?Hr0, ?Hr1, ?Hr2, ?Hl2, ?Hl1, ?Hl0;
      unfold CONSTANTS.PIPE_WIDTH, CONSTANTS.WARMUP_SECONDS, CONSTANTS.PIPE_SPEED,
        CONSTANTS.HORIZONTAL_PIPE_SPACING, CONST.CAPY_WIDTH;
      repeat split; lra.
  - repeat (apply Forall_cons || apply Forall_nil);
      cbn [Level.movePipe Pipe.passed Pipe.serial]; (split; [assumption | lia]).
Qed.

(* ------------------------------------------------------------------ *)
(** * FlappyCapy: the game-over frame *)

(** C8.  Take any run (the constructor, then any sequence of frames and
    mouse presses, so with any score) on a canvas whose width, an unsigned
    integer, is not negative.  If in the next frame the
    game-over predicate [collidesWith(bounds()) || outOfBounds()] holds,
    the frame returns and ends with the score 0, not running, a new Capy,
    and a new Level: one constructed during this frame and advanced by the
    one frame [restart()] runs, with three pairs, all created during this
    frame and none marked passed.  The score alerted is the old one; the
    passed-pipe query that follows the reset leaves the new score at 0. *)
Theorem game_over_frame_resets (d : Dimensions) (this : FlappyCapy.t) (b : Browser) (fuel : nat) :
  0 <= width d ->
  reachable d this b ->
  gameOverInFrame this b ->
  exists this' b',
    FlappyCapy.animate (S (S fuel)) this b = Returns (this', b')
    /\ FlappyCapy.score this' = 0
    /\ FlappyCapy.running this' = false
    /\ FlappyCapy.capy this' = Capy.constructor d
    /\ (exists b1 fresh,
          Level.constructor d b1 = Returns (fresh, b')
          /\ Level.animate fresh b' = Returns (FlappyCapy.level this', b')
          /\ (drawn b <= drawn b1)%nat)
    /\ length (Level.pipes (FlappyCapy.level this')) = 3%nat
    /\ Forall (fun p => Pipe.passed p = false /\ (drawn b <= Pipe.serial p)%nat)
              (Level.pipes (FlappyCapy.level this'))
    /\ alerts b' = alerts b ++ [FlappyCapy.score this].
Proof.
  intros Hw Hreach (moved & b1 & over & b2 & Hmove & Hover).
  destruct (reachable_keeps d this b Hreach) as [Hd Hbg].
  pose proof (reachable_high_enough d this b Hreach) as Hh.
  rewrite gameOver_returns in Hover. injection Hover as Hover _ _.
  set (b3 := mkBrowser (entropy b1) (drawn b1) (alerts b1 ++ [FlappyCapy.score this])
                       (frameRequests b1)).
  destruct (fresh_level_first_frame d b3 Hw)
    as (fresh & b' & moved' & Hc & Hm' & Hb' & Hlen & Hahead & Hnew).
  set (this0 := FlappyCapy.mk d fresh (Capy.constructor d) 0 false true).
  assert (Hquiet : FlappyCapy.animate (S fuel) this0 b'
                   = Returns (FlappyCapy.set_level this0 moved', b')).
  { apply animate_quiet; auto. apply fresh_capy_inside. exact Hh. }
  exists (FlappyCapy.set_level this0 moved'), b'.
  destruct (movePipes_browser _ _ _ _ Hmove) as (Hdrawn & Halerts & _).
  split.
  - rewrite animate_S.
    rewrite (bind_returns _ _ _ _ _ Hmove).
    rewrite (bind_returns _ _ _ _ _ (gameOver_returns _ _)). cbv beta iota.
    cbn [FlappyCapy.capy FlappyCapy.level FlappyCapy.set_level] in Hover |- *.
    rewrite Hover.
    rewrite (bind_returns _ _ b1 b' (FlappyCapy.set_level this0 moved')).
    + rewrite (bind_returns _ _ _ _ _ (passedPipe_ahead _ _ _ _ _ Hahead)).
      reflexivity.
    + rewrite (bind_returns _ _ b1 b3 tt) by reflexivity.
      unfold FlappyCapy.restart.
      game_fields.
      rewrite Hd. rewrite (bind_returns _ _ _ _ _ Hc). rewrite Hbg. cbn [negb].
      unfold ret at 1. unfold bind at 1.
      game_fields.
      match goal with
      | |- FlappyCapy.animate _ ?g _ = _ => replace g with this0; [exact Hquiet |]
      end.
      unfold this0, FlappyCapy.set_score, FlappyCapy.set_capy, FlappyCapy.set_level,
        FlappyCapy.set_running.
      game_fields.
      rewrite Hd, Hbg. reflexivity.
  - cbn [FlappyCapy.set_level FlappyCapy.score FlappyCapy.running FlappyCapy.capy
           FlappyCapy.level this0].
    repeat split; auto.
    + exists b3, fresh. repeat split; auto.
    + revert Hnew. apply Forall_impl. intros p [Hp Hs]. split; [exact Hp |].
      cbn in Hs. lia.
    + rewrite Hb'. cbn. rewrite Halerts. reflexivity.
Qed.

(* ------------------------------------------------------------------ *)
(** * The statements at concrete inputs *)

Lemma movePipes_recycles_with_constant_spacing_witness :
  exists this' b',
    Level.movePipes Scenario.level Scenario.browser = Returns (this', b')
    /\ spaced (Level.pipes this').
Proof.
  destruct (proj1 (proj2 movePipes_recycles_with_constant_spacing)
                  Scenario.level _ _ _ Scenario.browser eq_refl)
    as (this' & b' & Hm & _ & Hsp).
  exists this', b'. split; [exact Hm |].
  apply Hsp. vm_compute. repeat split.
Defined.

Lemma randomPipe_gap_and_extent_witness :
  exists pipe b',
    Level.randomPipe 600 Scenario.level (Scenario.browserOf Scenario.almostOne)
    = Returns (pipe, b')
    /\ CONSTANTS.EDGE_BUFFER <= gapTop pipe
    /\ gapBottom pipe <= height Scenario.canvas - CONSTANTS.EDGE_BUFFER.
Proof.
  destruct (randomPipe_gap_and_extent 600 Scenario.level
              (Scenario.browserOf Scenario.almostOne))
    as (pipe & b' & Hr & _ & _ & Htop & Hbottom & _).
  - split; vm_compute; [discriminate | reflexivity].
  - exists 640%Z. split; [lia | reflexivity].
  - vm_compute. discriminate.
  - exists pipe, b'. split; [exact Hr |]. split; [exact Htop | exact Hbottom].
Defined.

(** On the canvas of the game's page, when [Math.random()] returns the
    largest double below 1, the gap [randomPipe] computes reaches from
    [440 - 2^-44] to 590: it is [2^-44] more than PIPE_GAP. *)
Lemma randomPipe_gap_is_not_PIPE_GAP :
  (0 <= Scenario.almostOne /\ Scenario.almostOne < 1)
  /\ height Scenario.canvas - 2 * CONSTANTS.EDGE_BUFFER - CONSTANTS.PIPE_GAP >= 0
  /\ exists pipe b',
       Level.randomPipe 600 Scenario.level (Scenario.browserOf Scenario.almostOne)
       = Returns (pipe, b')
       /\ gapTop pipe == 440 - pow2 (-44)
       /\ gapBottom pipe == 590
       /\ ~ gapBottom pipe - gapTop pipe == CONSTANTS.PIPE_GAP.
Proof.
  split; [split; vm_compute; [discriminate | reflexivity] |].
  split; [vm_compute; discriminate |].
  do 2 eexists. split; [vm_compute; reflexivity |].
  split; [vm_compute; reflexivity |]. split; [vm_compute; reflexivity |].
  vm_compute. discriminate.
Qed.

Lemma collidesWith_iff_some_subpipe_overlaps_witness :
  exists collision,
    Level.collidesWith Scenario.characterBounds Scenario.scenarioLevel Scenario.browser
    = Returns ((collision, Scenario.scenarioLevel), Scenario.browser)
    /\ collision = true.
Proof.
  destruct (collidesWith_iff_some_subpipe_overlaps
              Scenario.characterBounds Scenario.scenarioLevel Scenario.browser)
    as (collision & Hc & _ & Hscenario).
  exists collision. split; [exact Hc |].
  apply Hscenario; [reflexivity |].
  exists Scenario.scenarioPipe. split; [left; reflexivity | reflexivity].
Defined.

Lemma passedPipe_calls_back_once_per_pair_witness :
  justPassed Scenario.characterBounds (Scenario.pipeAt (-48) true 3) = false
  /\ Pipe.passed (markPassed Scenario.characterBounds (Scenario.pipeAt 40 false 7)) = true.
Proof.
  destruct (passedPipe_calls_back_once_per_pair
              Scenario.characterBounds (fun score : number => ret (score + 1))
              Scenario.level 0 Scenario.browser)
    as (_ & _ & Hmark & Hdone & _).
  split.
  - apply (Hdone Scenario.characterBounds (Scenario.pipeAt (-48) true 3)). reflexivity.
  - apply (Hmark (Scenario.pipeAt 40 false 7)). reflexivity.
Defined.

Lemma constructor_never_fails_witness :
  exists this b',
    Level.constructor Scenario.lowCanvas Scenario.browser = Returns (this, b')
    /\ length (Level.pipes this) = 3%nat.
Proof.
  destruct (proj2 (constructor_never_fails Scenario.lowCanvas Scenario.browser))
    as (this & b' & Hc & Hlen & _).
  - vm_compute. reflexivity.
  - exists 100%Z. split; [lia | reflexivity].
  - intros n. split; vm_compute; [discriminate | reflexivity].
  - exists this, b'. split; assumption.
Defined.


Lemma collidesWith_is_pure_witness :
  exists collision,
    Level.collidesWith Scenario.characterBounds Scenario.scenarioLevel Scenario.browser
    = Returns ((collision, Scenario.scenarioLevel), Scenario.browser)
    /\ Level.collidesWith Scenario.characterBounds
         (Level.set_appendBackground Scenario.scenarioLevel false) Scenario.browser
       = Returns ((collision, Level.set_appendBackground Scenario.scenarioLevel false),
                  Scenario.browser).
Proof.
  destruct (collidesWith_is_pure
              Scenario.characterBounds Scenario.scenarioLevel Scenario.browser)
    as (collision & Hc & Hsame).
  exists collision. split; [exact Hc |].
  apply Hsame. reflexivity.
Defined.

(** With a field of height 100, too low for the gap and both edge buffers,
    the constructor does not fail fast: it returns. *)
Lemma constructor_of_low_canvas_returns :
  malformed Scenario.lowCanvas
  /\ ~ failsFast Scenario.lowCanvas Scenario.browser.
Proof.
  split.
  - vm_compute. reflexivity.
  - intros [e He]. vm_compute in He. discriminate He.
Qed.

Lemma game_over_frame_resets_witness :
  exists this b,
    run 2 Scenario.canvas Scenario.session Scenario.browser = Returns (this, b)
    /\ FlappyCapy.score this = 1
    /\ exists this' b',
         FlappyCapy.animate 2 this b = Returns (this', b')
         /\ FlappyCapy.score this' = 0
         /\ FlappyCapy.running this' = false
         /\ alerts b' = alerts b ++ [1].
Proof.
  do 2 eexists. split; [vm_compute; reflexivity |]. split; [reflexivity |].
  match goal with
  | |- exists this' b', FlappyCapy.animate _ ?this ?b = _ /\ _ =>
      destruct (game_over_frame_resets Scenario.canvas this b 0)
        as (this' & b' & Ha & Hscore & Hidle & _ & _ & _ & _ & Halerts)
  end.
  - vm_compute. discriminate.
  - exists 2%nat, Scenario.session, Scenario.browser. vm_compute. reflexivity.
  - do 4 eexists. split; [vm_compute; reflexivity | vm_compute; reflexivity].
  - exists this', b'. repeat split; assumption.
Defined.

(* ================================================================== *)
(** * Further properties of the code *)

(* ------------------------------------------------------------------ *)
(** * Capy: free fall *)

Lemma times_S (n : nat) : times (S n) == times n + 1.
Proof.
  unfold times. rewrite Nat2Z.inj_succ. unfold Z.succ. rewrite inject_Z_plus. reflexivity.
Qed.

Lemma times_nonneg (n : nat) : 0 <= times n.
Proof.
  unfold times. change 0 with (inject_Z 0). rewrite <- Zle_Qle. lia.
Qed.


Lemma Qabs_le_iff (a c : number) : Qabs a <= c <-> - c <= a /\ a <= c.
Proof. apply Qabs_Qle_condition. Qed.

(** GRAVITY is the double nearest to 0.4. *)
Lemma GRAVITY_value : CONST.GRAVITY == 3602879701896397 # 9007199254740992.
Proof. vm_compute. reflexivity. Qed.

Lemma pow2_minus_50 : pow2 (-50) == 1 # 1125899906842624.
Proof. vm_compute. reflexivity. Qed.

(** One call of [moveCapy()] on a velocity within the terminal velocity:
    the sum [vel + GRAVITY] is rounded, by at most [2^-50], and clamped. *)
Lemma moveCapy_vel_step (this : Capy.t) :
  - CONST.TERMINAL_VEL <= Capy.vel this /\ Capy.vel this <= CONST.TERMINAL_VEL ->
  (Capy.vel this + CONST.GRAVITY <= CONST.TERMINAL_VEL ->
   Qabs (Capy.vel (Capy.moveCapy this) - (Capy.vel this + CONST.GRAVITY)) <= pow2 (-50))
  /\ (CONST.TERMINAL_VEL <= Capy.vel this + CONST.GRAVITY ->
      Capy.vel (Capy.moveCapy this) == CONST.TERMINAL_VEL).
Proof.
  intros [Hlo Hhi]. pose proof GRAVITY_value as Hg.
  unfold Capy.moveCapy. cbn [Capy.vel]. unfold add64, Math_abs.
  unfold CONST.TERMINAL_VEL in *.
  set (v := Capy.vel this + CONST.GRAVITY) in *.
  assert (Hv : - (12) < v /\ v < 13) by (unfold v; split; lra).
  set (v1 := round64 v).
  split; intros H.
  - assert (H1 : v1 <= 12).
    { apply round64_le_double; [apply (isDouble_Z 12); lia | exact H]. }
    assert (H2 : - (12) <= v1).
    { apply (round64_ge (- (12))); [apply (isDouble_Z (-12)); lia | lra]. }
    destruct (gtb (Qabs v1) 12) eqn:E.
    + apply gtb_gt in E. exfalso. apply (Qlt_not_le _ _ E).
      apply Qabs_Qle_condition. split; assumption.
    + unfold v1. replace (-50)%Z with (4 - 54)%Z by lia.
      apply round64_error_below; [lia |].
      apply Qabs_Qlt_condition. change (pow2 4) with 16. split; lra.
  - assert (H1 : 12 <= v1).
    { apply (round64_ge 12); [apply (isDouble_Z 12); lia | exact H]. }
    destruct (gtb (Qabs v1) 12) eqn:E.
    + destruct (gtb v1 0) eqn:E0; [reflexivity |].
      apply gtb_le in E0. exfalso. lra.
    + apply gtb_le in E. apply Qabs_Qle_condition in E. apply Qle_antisym; lra.
Qed.

(** What [n] calls of [moveCapy()] keep, from a velocity within the
    terminal velocity. *)
Lemma flight_invariant (this : Capy.t) (n : nat) :
  - CONST.TERMINAL_VEL <= Capy.vel this /\ Capy.vel this <= CONST.TERMINAL_VEL ->
  let after := Nat.iter n Capy.moveCapy this in
  (- CONST.TERMINAL_VEL <= Capy.vel after /\ Capy.vel after <= CONST.TERMINAL_VEL)
  /\ (Capy.vel this + times n * (CONST.GRAVITY + pow2 (-50)) <= CONST.TERMINAL_VEL ->
      Qabs (Capy.vel after - (Capy.vel this + times n * CONST.GRAVITY))
      <= times n * pow2 (-50))
  /\ (Capy.vel after == CONST.TERMINAL_VEL
      \/ Capy.vel this + times n * (CONST.GRAVITY - pow2 (-50)) <= Capy.vel after)
  /\ Capy.x after = Capy.x this.
Proof.
  intros Hv. cbv zeta. induction n as [| n IH].
  - change (Nat.iter 0 Capy.moveCapy this) with this. change (times 0) with 0.
    split; [exact Hv |]. split; [| split; [right; lra | reflexivity]].
    intros _. apply Qabs_Qle_condition. split; lra.
  - change (Nat.iter (S n) Capy.moveCapy this)
      with (Capy.moveCapy (Nat.iter n Capy.moveCapy this)).
    set (prev := Nat.iter n Capy.moveCapy this) in *.
    destruct IH as (Hb & Ha & Hinv & Hx).
    destruct (moveCapy_vel_step prev Hb) as [Hfree Hsat].
    pose proof (moveCapy_vel_bounded prev) as Hb'. apply Qabs_Qle_condition in Hb'.
    pose proof (times_S n) as HS. pose proof (times_nonneg n) as Hn.
    pose proof GRAVITY_value as Hg. pose proof pow2_minus_50 as He.
    unfold CONST.TERMINAL_VEL in *.
    split; [exact Hb' |]. split; [| split].
    + intros H. rewrite HS, Hg, He in H. rewrite Hg, He in Ha.
      assert (Hprev : Qabs (Capy.vel prev - (Capy.vel this + times n * CONST.GRAVITY))
                      <= times n * pow2 (-50)).
      { rewrite Hg, He. apply Ha. lra. }
      apply Qabs_Qle_condition in Hprev. rewrite Hg, He in Hprev.
      assert (Hstep : Qabs (Capy.vel (Capy.moveCapy prev) - (Capy.vel prev + CONST.GRAVITY))
                      <= pow2 (-50)).
      { apply Hfree. rewrite Hg. lra. }
      apply Qabs_Qle_condition in Hstep. rewrite Hg, He in Hstep.
      apply Qabs_Qle_condition. rewrite HS, Hg, He. split; lra.
    + destruct Hinv as [Hat | Hbelow].
      * left. apply Hsat. rewrite Hat, Hg. lra.
      * destruct (Qlt_le_dec 12 (Capy.vel prev + CONST.GRAVITY)) as [Hover | Hunder].
        -- left. apply Hsat. lra.
        -- right. specialize (Hfree Hunder). apply Qabs_Qle_condition in Hfree.
           rewrite Hg, He in Hfree, Hbelow. rewrite HS, Hg, He. lra.
    + unfold Capy.moveCapy at 1. cbn [Capy.x]. exact Hx.
Qed.

(** X1.  [n] calls of [moveCapy()] on a Capy whose velocity is within the
    terminal velocity.  Every call rounds the sum [vel + GRAVITY] to a
    double, so the velocity is [vel + n * GRAVITY] only up to [n] roundings
    of at most [2^-50] each, as long as that stays below TERMINAL_VEL.
    Once [vel + n * (GRAVITY - 2^-50)] has reached TERMINAL_VEL the
    velocity is TERMINAL_VEL itself; after 61 calls it always is.  The
    horizontal position never changes. *)
Theorem moveCapy_flight (this : Capy.t) (n : nat) :
  Qabs (Capy.vel this) <= CONST.TERMINAL_VEL ->
  let after := Nat.iter n Capy.moveCapy this in
  (Capy.vel this + times n * (CONST.GRAVITY + pow2 (-50)) <= CONST.TERMINAL_VEL ->
   Qabs (Capy.vel after - (Capy.vel this + times n * CONST.GRAVITY))
   <= times n * pow2 (-50))
  /\ (CONST.TERMINAL_VEL <= Capy.vel this + times n * (CONST.GRAVITY - pow2 (-50)) ->
      Capy.vel after == CONST.TERMINAL_VEL)
  /\ ((61 <= n)%nat -> Capy.vel after == CONST.TERMINAL_VEL)
  /\ Capy.x after = Capy.x this.
Proof.
  intros Hv. apply Qabs_Qle_condition in Hv.
  destruct (flight_invariant this n Hv) as (Hb & Ha & Hinv & Hx). cbv zeta.
  assert (Hsat : CONST.TERMINAL_VEL
                 <= Capy.vel this + times n * (CONST.GRAVITY - pow2 (-50)) ->
                 Capy.vel (Nat.iter n Capy.moveCapy this) == CONST.TERMINAL_VEL).
  { intros H. destruct Hinv as [Hat | Hbelow]; [exact Hat |].
    apply Qle_antisym; [apply Hb | lra]. }
  split; [exact Ha |]. split; [exact Hsat |]. split; [| exact Hx].
  intros Hn. apply Hsat.
  assert (H61 : 61 <= times n).
  { unfold times. change 61 with (inject_Z 61). rewrite <- Zle_Qle. lia. }
  rewrite GRAVITY_value, pow2_minus_50. unfold CONST.TERMINAL_VEL in *. lra.
Qed.

(* ------------------------------------------------------------------ *)
(** * Level: movePipes on a Level that does not hold three pairs *)

(** X2.  [movePipes()] relies on the Level holding three pairs.  On an empty
    Level it throws a TypeError.  While the front pair's right edge stays
    right of 0 it shifts the pairs, however many, and asks for no random
    value.  When the front pair is to go and fewer than three pairs are
    held, it throws a TypeError, [pipes[1]] being undefined after the
    shift.  With three pairs or more it appends the new pair relative to
    the pair at index 2, which is the last pair only if there are exactly
    three. *)
Theorem movePipes_on_any_number_of_pairs (this : Level.t) (b : Browser) :
  (Level.pipes this = [] -> Level.movePipes this b = Throws TypeError)
  /\ (forall p0 rest,
         Level.pipes this = p0 :: rest ->
         0 < rightEdge (Level.movePipe p0) ->
         Level.movePipes this b
         = Returns (Level.set_pipes this (map Level.movePipe (p0 :: rest)), b))
  /\ (forall p0 rest,
         Level.pipes this = p0 :: rest ->
         rightEdge (Level.movePipe p0) <= 0 ->
         (length rest < 2)%nat ->
         Level.movePipes this b = Throws TypeError)
  /\ (forall p0 p1 p2 rest,
         Level.pipes this = p0 :: p1 :: p2 :: rest ->
         rightEdge (Level.movePipe p0) <= 0 ->
         exists pipe b',
           Level.movePipes this b
           = Returns (Level.set_pipes this
                        (map Level.movePipe (p1 :: p2 :: rest) ++ [pipe]), b')
           /\ leftEdge pipe
              == leftEdge (Level.movePipe p2) + CONSTANTS.HORIZONTAL_PIPE_SPACING
           /\ drawn b' = S (drawn b)).
Proof.
  split; [| split; [| split]].
  - intros Hps. rewrite movePipes_unfold, Hps. reflexivity.
  - intros p0 rest Hps Hpos. rewrite movePipes_unfold, Hps. cbn [map].
    apply leb_gt in Hpos. rewrite Hpos. reflexivity.
  - intros p0 rest Hps Hgo Hlen. rewrite movePipes_unfold, Hps. cbn [map].
    apply leb_le in Hgo. rewrite Hgo.
    destruct rest as [| p1 [| p2 rest]]; cbn in Hlen |- *; try reflexivity. lia.
  - intros p0 p1 p2 rest Hps Hgo. rewrite movePipes_unfold, Hps. cbn [map nth_error].
    apply leb_le in Hgo. rewrite Hgo.
    destruct (randomPipe_returns
                (leftEdge (Level.movePipe p2) + CONSTANTS.HORIZONTAL_PIPE_SPACING)
                (Level.set_pipes this
                   (Level.movePipe p1 :: Level.movePipe p2 :: map Level.movePipe rest)) b)
      as (pipe & Hr & _ & _ & Hl & _).
    rewrite Hr. do 2 eexists. split; [reflexivity |]. split; [| reflexivity].
    unfold leftEdge at 1. rewrite Hl. reflexivity.
Qed.

(* ------------------------------------------------------------------ *)
(** * Capy: the sprite counter *)

Lemma inject_Z_le (a c : Z) : inject_Z a <= inject_Z c <-> (a <= c)%Z.
Proof. rewrite <- Zle_Qle. reflexivity. Qed.

Lemma inject_Z_lt (a c : Z) : inject_Z a < inject_Z c <-> (a < c)%Z.
Proof. rewrite <- Zlt_Qlt. reflexivity. Qed.

Lemma inject_Z_eq (a c : Z) : inject_Z a == inject_Z c <-> a = c.
Proof. rewrite inject_Z_injective. reflexivity. Qed.

Lemma counter_leb (k m : Z) (c : number) :
  c == inject_Z k -> leb (c + 1) (inject_Z m) = (k + 1 <=? m)%Z.
Proof.
  intros Hc.
  assert (Hc1 : c + 1 == inject_Z (k + 1)) by (rewrite inject_Z_plus, Hc; reflexivity).
  destruct (Z.leb_spec (k + 1) m) as [H | H].
  - apply leb_le. rewrite Hc1. apply inject_Z_le. exact H.
  - apply leb_gt. rewrite Hc1. apply inject_Z_lt. exact H.
Qed.

Lemma drawCapy_step (k : Z) (this : Capy.t) (b : Browser) :
  counterAt k this ->
  exists this',
    Capy.drawCapy this b = Returns (this', b)
    /\ counterAt ((k + 1) mod 16) this'
    /\ Capy.dimensions this' = Capy.dimensions this
    /\ Capy.x this' = Capy.x this
    /\ Capy.y this' = Capy.y this
    /\ Capy.vel this' = Capy.vel this.
Proof.
  intros [Hk Hc]. unfold Capy.drawCapy.
  change (CONST.ANIMATED_FLAP_SPEED * 1) with (inject_Z 5).
  change (CONST.ANIMATED_FLAP_SPEED * 2) with (inject_Z 10).
  change (CONST.ANIMATED_FLAP_SPEED * 3) with (inject_Z 15).
  change (CONST.ANIMATED_FLAP_SPEED * 4) with (inject_Z 20).
  rewrite !(counter_leb k _ _ Hc).
  assert (Hnext : Capy.capyCounter this + 1 == inject_Z (k + 1))
    by (rewrite inject_Z_plus, Hc; reflexivity).
  destruct (Z.leb_spec (k + 1) 5); [| destruct (Z.leb_spec (k + 1) 10);
    [| destruct (Z.leb_spec (k + 1) 15); [| destruct (Z.leb_spec (k + 1) 20); [| lia]]]];
    eexists; (split; [reflexivity |]); (split; [| repeat split]);
    unfold counterAt; cbn [Capy.capyCounter].
  1-3: rewrite Z.mod_small by lia; split; [lia | exact Hnext].
  replace k with 15%Z by lia. split; [vm_compute; split; discriminate | reflexivity].
Qed.

Lemma applyCapyAll_counter (ops : list CapyOp) (k : Z) (this : Capy.t) (b : Browser) :
  counterAt k this ->
  exists this',
    applyCapyAll ops this b = Returns (this', b)
    /\ counterAt ((k + Z.of_nat (drawCalls ops)) mod 16) this'
    /\ Capy.dimensions this' = Capy.dimensions this
    /\ Capy.x this' = Capy.x this.
Proof.
  revert k this. induction ops as [| op ops IH]; intros k this Hk.
  - exists this. split; [reflexivity |]. cbn [drawCalls Z.of_nat].
    rewrite Z.add_0_r, Z.mod_small by (destruct Hk; lia). auto.
  - cbn [applyCapyAll]. destruct op; cbn [applyCapy drawCalls].
    + destruct (IH k (Capy.moveCapy this)) as (this' & Hr & Hc & Hd & Hx).
      { exact Hk. }
      exists this'. rewrite (bind_returns _ _ _ _ _ eq_refl). auto.
    + destruct (IH k (Capy.flap this)) as (this' & Hr & Hc & Hd & Hx).
      { exact Hk. }
      exists this'. rewrite (bind_returns _ _ _ _ _ eq_refl). auto.
    + destruct (drawCapy_step k this b Hk) as (this1 & Hdraw & Hk1 & Hd1 & Hx1 & _).
      destruct (IH _ this1 Hk1) as (this' & Hr & Hc & Hd & Hx).
      exists this'. rewrite (bind_returns _ _ _ _ _ Hdraw).
      split; [exact Hr |]. split; [| split; congruence].
      rewrite Nat2Z.inj_succ.
      replace ((k + Z.succ (Z.of_nat (drawCalls ops))) mod 16)%Z
        with (((k + 1) mod 16 + Z.of_nat (drawCalls ops)) mod 16)%Z; [exact Hc |].
      rewrite Zplus_mod_idemp_l. f_equal. lia.
Qed.

(** X3.  From a new Capy, through any sequence of [moveCapy()], [flap()] and
    [drawCapy()] calls, [drawCapy] never throws and the sprite counter is
    the number of [drawCapy] calls so far modulo 16; the horizontal
    position stays at a third of the canvas width.  [drawCapy] throws a
    TypeError exactly when the counter is above 19, where no branch picks a
    sprite. *)
Theorem drawCapy_counter_cycles (d : Dimensions) (ops : list CapyOp) (b : Browser) :
  (exists this,
      applyCapyAll ops (Capy.constructor d) b = Returns (this, b)
      /\ Capy.capyCounter this == inject_Z (Z.of_nat (drawCalls ops) mod 16)
      /\ Capy.x this = width d / 3)
  /\ (forall this,
         (19 < Capy.capyCounter this -> Capy.drawCapy this b = Throws TypeError)
         /\ (Capy.capyCounter this <= 19 ->
             exists this', Capy.drawCapy this b = Returns (this', b))).
Proof.
  split.
  - destruct (applyCapyAll_counter ops 0 (Capy.constructor d) b)
      as (this & Hr & [_ Hc] & _ & Hx).
    { split; [lia | reflexivity]. }
    exists this. split; [exact Hr |]. split; [exact Hc | exact Hx].
  - intros this. unfold Capy.drawCapy.
    change (CONST.ANIMATED_FLAP_SPEED * 1) with 5.
    change (CONST.ANIMATED_FLAP_SPEED * 2) with 10.
    change (CONST.ANIMATED_FLAP_SPEED * 3) with 15.
    change (CONST.ANIMATED_FLAP_SPEED * 4) with 20.
    split; intros H.
    + assert (E : forall m, m <= 20 -> leb (Capy.capyCounter this + 1) m = false)
        by (intros m Hm; apply leb_gt; lra).
      rewrite !E by lra. reflexivity.
    + destruct (leb _ 5); [eexists; reflexivity |].
      destruct (leb _ 10); [eexists; reflexivity |].
      destruct (leb _ 15); [eexists; reflexivity |].
      destruct (leb (Capy.capyCounter this + 1) 20) eqn:E; [eexists; reflexivity |].
      apply leb_gt in E. lra.
Qed.

(* ------------------------------------------------------------------ *)
(** * Level: the background strip *)

Lemma strip_tests (k : Z) (a : Background) :
  stripAt k a ->
  strict_eqb (pos a) (480 - 1920) = (k =? -1440)%Z
  /\ strict_eqb (pos a) (-1920) = (k =? -1920)%Z.
Proof.
  unfold stripAt, strict_eqb. intros Ha.
  change (480 - 1920) with (inject_Z (-1440)). change (-1920) with (inject_Z (-1920)).
  split.
  - destruct (Z.eqb_spec k (-1440)) as [-> | Hne].
    + apply Qeq_bool_iff. exact Ha.
    + apply not_true_iff_false. rewrite Qeq_bool_iff, Ha, inject_Z_eq. exact Hne.
  - destruct (Z.eqb_spec k (-1920)) as [-> | Hne].
    + apply Qeq_bool_iff. exact Ha.
    + apply not_true_iff_false. rewrite Qeq_bool_iff, Ha, inject_Z_eq. exact Hne.
Qed.

Lemma stripAt_scrolled (k : Z) (a : Background) :
  stripAt k a -> stripAt (k - 1) {| pos := pos a - CONSTANTS.BACKGROUND_SPEED |}.
Proof.
  unfold stripAt. cbn [pos]. intros ->. unfold Z.sub. rewrite inject_Z_plus. reflexivity.
Qed.

Lemma moveAnimatedBackground_invariant (this : Level.t) (b : Browser) :
  backgroundInvariant this ->
  exists this',
    Level.moveAnimatedBackground this b = Returns (this', b)
    /\ backgroundInvariant this'
    /\ Level.pipes this' = Level.pipes this
    /\ Level.dimensions this' = Level.dimensions this.
Proof.
  intros [Happend [k Hq]]. unfold Level.moveAnimatedBackground.
  destruct (Level.backgroundQueue this) as [| a [| c [| e rest]]] eqn:Eq; try contradiction.
  - destruct Hq as [Hk Ha]. cbn [nth_error].
    destruct (strip_tests k a Ha) as [-> ->].
    destruct (Z.eqb_spec k (-1440)) as [-> | Hne].
    + unfold Level.makeBackground. rewrite Happend.
      eexists. split; [reflexivity |]. cbn. rewrite ?Eq. cbn.
      split; [| auto]. split; [reflexivity |]. exists (-1441)%Z.
      split; [lia |]. split; [apply (stripAt_scrolled (-1440) a Ha) | reflexivity].
    + destruct (Z.eqb_spec k (-1920)) as [-> | _]; [lia |].
      eexists. split; [reflexivity |]. cbn. rewrite ?Eq. cbn.
      split; [| auto]. split; [exact Happend |]. exists (k - 1)%Z.
      split; [lia | apply stripAt_scrolled; exact Ha].
  - destruct Hq as (Hk & Ha & Hc). cbn [nth_error].
    destruct (strip_tests k a Ha) as [-> ->].
    destruct (Z.eqb_spec k (-1440)) as [-> | _]; [lia |].
    destruct (Z.eqb_spec k (-1920)) as [-> | Hne].
    + eexists. split; [reflexivity |]. cbn. rewrite ?Eq. cbn.
      split; [| auto]. split; [exact Happend |]. exists (-1)%Z.
      split; [lia | apply (stripAt_scrolled 0 c Hc)].
    + eexists. split; [reflexivity |]. cbn. rewrite ?Eq. cbn.
      split; [| auto]. split; [exact Happend |]. exists (k - 1)%Z.
      split; [lia |]. split; [apply stripAt_scrolled; exact Ha |].
      replace (k - 1 + 1920)%Z with (k + 1920 - 1)%Z by lia.
      apply stripAt_scrolled. exact Hc.
Qed.

Lemma constructor_backgroundInvariant (d : Dimensions) (b : Browser) (this : Level.t)
      (b' : Browser) :
  Level.constructor d b = Returns (this, b') -> backgroundInvariant this.
Proof.
  destruct (constructor_returns d b) as (p0 & p1 & p2 & Hc & _).
  rewrite Hc. intros H. injection H as <- _.
  split; [reflexivity |]. exists (-1440)%Z. cbn. split; [lia | reflexivity].
Qed.

Lemma backgroundInvariant_covers (this : Level.t) :
  backgroundInvariant this -> coversCanvas (Level.backgroundQueue this).
Proof.
  intros [_ [k Hq]]. unfold coversCanvas, stripAt in *.
  destruct (Level.backgroundQueue this) as [| a [| c [| e rest]]]; try contradiction.
  - destruct Hq as [[Hlo Hhi] Ha]. rewrite Ha.
    apply inject_Z_le in Hlo, Hhi.
    change (inject_Z (-1440)) with (-1440) in Hlo. change (inject_Z (-1)) with (-1) in Hhi.
    split; lra.
  - destruct Hq as ([Hlo Hhi] & Ha & Hc). rewrite Ha, Hc, inject_Z_plus.
    apply inject_Z_le in Hlo, Hhi.
    change (inject_Z (-1920)) with (-1920) in Hlo.
    change (inject_Z (-1441)) with (-1441) in Hhi.
    change (inject_Z 1920) with 1920. repeat split; lra.
Qed.

Lemma repeatCall_background (n : nat) (this : Level.t) (b : Browser) :
  backgroundInvariant this ->
  exists this',
    repeatCall n Level.moveAnimatedBackground this b = Returns (this', b)
    /\ backgroundInvariant this'
    /\ Level.pipes this' = Level.pipes this.
Proof.
  revert this. induction n as [| n IH]; intros this Hinv.
  - exists this. auto.
  - destruct (moveAnimatedBackground_invariant this b Hinv) as (this1 & Hm & Hinv1 & Hp1 & _).
    destruct (IH this1 Hinv1) as (this' & Hr & Hinv' & Hp').
    exists this'. cbn [repeatCall]. rewrite (bind_returns _ _ _ _ _ Hm).
    split; [exact Hr |]. split; [exact Hinv' | congruence].
Qed.

(** X4.  From [new Level(dimensions)] on, [moveAnimatedBackground()] never
    throws, whatever the number of frames: the queue always holds one
    strip or two strips side by side, and they cover the canvas from
    column 0 to column 480; the pipes are not touched.  On a Level whose
    queue is empty the call throws a TypeError. *)
Theorem moveAnimatedBackground_covers_canvas (d : Dimensions) (n : nat) (b : Browser) :
  (exists this b',
      backgroundAfter n d b = Returns (this, b')
      /\ coversCanvas (Level.backgroundQueue this)
      /\ Level.appendBackground this = true
      /\ (exists fresh, Level.constructor d b = Returns (fresh, b')
                        /\ Level.pipes this = Level.pipes fresh))
  /\ (forall this,
         Level.backgroundQueue this = [] ->
         Level.moveAnimatedBackground this b = Throws TypeError).
Proof.
  split.
  - destruct (constructor_returns d b) as (p0 & p1 & p2 & Hc & _).
    pose proof (constructor_backgroundInvariant d b _ _ Hc) as Hinv0.
    destruct (repeatCall_background n _ (mkBrowser (entropy b) (3 + drawn b) (alerts b)
                                                   (frameRequests b)) Hinv0)
      as (this & Hr & Hinv & Hp).
    do 2 eexists. unfold backgroundAfter. rewrite (bind_returns _ _ _ _ _ Hc).
    split; [exact Hr |]. split; [apply backgroundInvariant_covers; exact Hinv |].
    split; [apply Hinv |]. eexists. split; [exact Hc | exact Hp].
  - intros this Hq. unfold Level.moveAnimatedBackground. rewrite Hq. reflexivity.
Qed.

(* ------------------------------------------------------------------ *)
(** * Level: the shape of the pairs at every frame *)

Lemma randomPipe_wellShaped (distance : number) (this : Level.t) (b b' : Browser)
      (pipe : Pipe.t) :
  uniform b ->
  ~ malformed (Level.dimensions this) ->
  pixels (height (Level.dimensions this)) ->
  Level.randomPipe distance this b = Returns (pipe, b') ->
  wellShaped (Level.dimensions this) pipe /\ uniform b'.
Proof.
  intros Hu Hok Hpx Hr.
  destruct (randomPipe_returns distance this b)
    as (pipe' & Hr' & _ & _ & Hlt & Hlb & Hrt & Hrb & Htt & Hbb & Hgt & Hgb).
  rewrite Hr in Hr'. injection Hr' as <- ->. split; [| exact Hu].
  destruct (Hu (drawn b)) as [Hr0 Hr1].
  unfold malformed in Hok. apply Qnot_lt_le in Hok.
  assert (Hrange : height (Level.dimensions this)
                   - 2 * CONSTANTS.EDGE_BUFFER - CONSTANTS.PIPE_GAP >= 0)
    by (unfold CONSTANTS.EDGE_BUFFER, CONSTANTS.PIPE_GAP in *; lra).
  destruct (gap_in_band _ _ Hr0 Hr1 Hpx Hrange) as (Htop & Hbottom & Hgap & Hdouble).
  rewrite <- Hgt in Htop, Hbottom, Hgap, Hdouble. rewrite <- Hgb in Hbottom, Hgap.
  unfold wellShaped, leftEdge, rightEdge. rewrite Htt, Hbb, Hlb, Hrb, Hrt, Hlt.
  unfold CONSTANTS.PIPE_WIDTH.
  split; [reflexivity |]. split; [reflexivity |]. split; [reflexivity |].
  split; [reflexivity |]. split; [lra |].
  split; [rewrite Hgb; reflexivity |].
  split; [exact Hgap |]. split; [exact Htop |]. split; [exact Hbottom | exact Hdouble].
Qed.

Lemma movePipe_wellShaped (d : Dimensions) (p : Pipe.t) :
  wellShaped d p -> wellShaped d (Level.movePipe p).
Proof.
  unfold wellShaped, leftEdge, rightEdge, gapTop, gapBottom.
  cbn [Level.movePipe Pipe.topPipe Pipe.bottomPipe Rect.left Rect.right Rect.top
         Rect.bottom].
  intros (H1 & H2 & H3 & H4 & H5 & H6 & H7 & H8 & H9 & H10).
  unfold CONSTANTS.PIPE_SPEED.
  repeat split; try assumption; lra.
Qed.

Lemma frames_wellShaped (d : Dimensions) (n : nat) (this : Level.t) (b : Browser) :
  ~ malformed d ->
  pixels (height d) ->
  uniform b ->
  Level.dimensions this = d ->
  length (Level.pipes this) = 3%nat ->
  Forall (wellShaped d) (Level.pipes this) ->
  exists this' b',
    frames n this b = Returns (this', b')
    /\ Level.dimensions this' = d
    /\ length (Level.pipes this') = 3%nat
    /\ Forall (wellShaped d) (Level.pipes this').
Proof.
  intros Hok Hpx. revert this b. induction n as [| n IH]; intros this b Hu Hd Hlen Hws.
  - exists this, b. auto.
  - destruct (Level.pipes this) as [| p0 [| p1 [| p2 [| p3 rest]]]] eqn:Hps;
      try discriminate.
    apply Forall_cons_iff in Hws as [Hw0 Hws].
    apply Forall_cons_iff in Hws as [Hw1 Hws].
    apply Forall_cons_iff in Hws as [Hw2 _].
    cbn [frames].
    destruct (movePipes_three this p0 p1 p2 b Hps) as [[_ (pipe & Hr & Hm)] | [_ Hm]];
      rewrite (bind_returns _ _ _ _ _ Hm).
    + apply randomPipe_wellShaped in Hr as [Hw Hu'];
        [| exact Hu
         | cbn [Level.dimensions Level.set_pipes]; rewrite Hd; exact Hok
         | cbn [Level.dimensions Level.set_pipes]; rewrite Hd; exact Hpx].
      cbn [Level.dimensions Level.set_pipes] in Hw. rewrite Hd in Hw.
      apply IH; [exact Hu' | exact Hd | reflexivity |].
      cbn [Level.pipes Level.set_pipes].
      repeat (apply Forall_cons || apply Forall_nil); auto using movePipe_wellShaped.
    + apply IH; [exact Hu | exact Hd | reflexivity |].
      cbn [Level.pipes Level.set_pipes].
      repeat (apply Forall_cons || apply Forall_nil); auto using movePipe_wellShaped.
Qed.

Lemma constructor_wellShaped (d : Dimensions) (b b' : Browser) (fresh : Level.t) :
  uniform b ->
  ~ malformed d ->
  pixels (height d) ->
  Level.constructor d b = Returns (fresh, b') ->
  Forall (wellShaped d) (Level.pipes fresh).
Proof.
  intros Hu Hok Hpx Hc.
  assert (Hgen : forall distance this b0 pipe b1,
             uniform b0 -> Level.dimensions this = d ->
             Level.randomPipe distance this b0 = Returns (pipe, b1) ->
             wellShaped d pipe /\ uniform b1).
  { intros distance this b0 pipe b1 Hu0 Hd Hr. rewrite <- Hd.
    apply (randomPipe_wellShaped distance this b0 b1 pipe Hu0);
      [rewrite Hd; exact Hok | rewrite Hd; exact Hpx | exact Hr]. }
  revert Hc. unfold Level.constructor. intros Hc.
  apply bind_inv in Hc as (q0 & b0 & Hr0 & Hc).
  apply bind_inv in Hc as (q1 & b1 & Hr1 & Hc).
  apply bind_inv in Hc as (q2 & b2 & Hr2 & Hc).
  apply bind_inv in Hc as ([bg this1] & b3 & Hmb & Hc).
  unfold Level.makeBackground in Hmb. cbn in Hmb. unfold ret in Hmb, Hc.
  injection Hmb as _ <- _. cbn in Hc. injection Hc as <- _. cbn [Level.pipes].
  apply Hgen in Hr0 as [Hw0 Hu0]; [| exact Hu | reflexivity].
  apply Hgen in Hr1 as [Hw1 Hu1]; [| exact Hu0 | reflexivity].
  apply Hgen in Hr2 as [Hw2 Hu2]; [| exact Hu1 | reflexivity].
  repeat (apply Forall_cons || apply Forall_nil); assumption.
Qed.

(** X5.  With [Math.random()] in [0, 1) and a field whose height is a whole
    number of pixels, high enough for the gap and both edge buffers, every
    pair the Level holds after any number of [movePipes()] frames has the
    shape [randomPipe] gave it: sub-pipes from the top and to the bottom
    of the field, one above the other and PIPE_WIDTH wide, and a gap
    between the edge buffers whose bottom is the double nearest to
    [gapTop + PIPE_GAP], so that the gap is PIPE_GAP up to one rounding (a
    relative error of [2^-53]). *)
Theorem pairs_keep_their_shape (d : Dimensions) (n : nat) (b : Browser) :
  uniform b ->
  ~ malformed d ->
  pixels (height d) ->
  exists this b',
    levelAfter n d b = Returns (this, b')
    /\ Level.dimensions this = d
    /\ length (Level.pipes this) = 3%nat
    /\ Forall (wellShaped d) (Level.pipes this).
Proof.
  intros Hu Hok Hpx. unfold levelAfter.
  destruct (constructor_returns d b) as (p0 & p1 & p2 & Hc & _).
  pose proof (constructor_wellShaped d b _ _ Hu Hok Hpx Hc) as Hfresh.
  rewrite (bind_returns _ _ _ _ _ Hc).
  apply frames_wellShaped; auto.
Qed.


(* ------------------------------------------------------------------ *)
(** * Level: where pairs leave and where they enter *)

Lemma movePipes_inView (this : Level.t) (b : Browser) :
  inView this ->
  exists this' b',
    Level.movePipes this b = Returns (this', b')
    /\ inView this'
    /\ Forall (fun p => 0 < rightEdge p) (Level.pipes this')
    /\ ((b' = b /\ Level.pipes this' = map Level.movePipe (Level.pipes this))
        \/ (drawn b' = S (drawn b)
            /\ exists pipe,
                 nth_error (Level.pipes this') 2 = Some pipe
                 /\ Pipe.serial pipe = drawn b
                 /\ 608 < leftEdge pipe /\ leftEdge pipe <= 610)).
Proof.
  intros (p0 & p1 & p2 & Hps & (H01 & H12 & _) & Hwidth & Hfront).
  apply Forall_cons_iff in Hwidth as [Hw0 Hwidth].
  apply Forall_cons_iff in Hwidth as [Hw1 Hwidth].
  apply Forall_cons_iff in Hwidth as [Hw2 _].
  destruct (movePipes_spaced3 this p0 p1 p2 b Hps)
    as (this' & b' & Hm & _ & [[Hle (pipe & Hps' & Hl & Hs & Hdr & _)] | [Hgt [Hps' Hb]]]);
    exists this', b'; (split; [exact Hm |]).
  - destruct (randomPipe_returns
                (leftEdge (Level.movePipe p2) + CONSTANTS.HORIZONTAL_PIPE_SPACING)
                (Level.set_pipes this [Level.movePipe p1; Level.movePipe p2]) b)
      as (pipe' & Hr' & _ & _ & Hlt & _ & Hrt & _).
    destruct (movePipes_three this p0 p1 p2 b Hps) as [[_ (pipe'' & Hr'' & Hm'')] | [E _]];
      [| apply leb_gt in E; unfold rightEdge in *; cbn in E; exfalso; lra].
    rewrite Hr'' in Hr'. injection Hr' as <-.
    rewrite Hm'' in Hm. injection Hm as <- _.
    cbn [Level.pipes Level.set_pipes] in *. injection Hps' as Hsame.
    rewrite Hsame in *. clear Hsame.
    unfold leftEdge, rightEdge, CONSTANTS.HORIZONTAL_PIPE_SPACING, CONSTANTS.PIPE_WIDTH,
      CONSTANTS.PIPE_SPEED in *.
    cbn [Level.movePipe Pipe.topPipe Rect.left Rect.right] in *.
    unfold CONSTANTS.PIPE_SPEED in *.
    assert (Hpw : Rect.right (Pipe.topPipe pipe) == Rect.left (Pipe.topPipe pipe) + 50)
      by (rewrite Hrt, Hlt; lra).
    rewrite Hlt in Hpw.
    split; [| split].
    + exists (Level.movePipe p1), (Level.movePipe p2), pipe.
      split; [reflexivity |]. unfold inView, spaced, leftEdge, rightEdge,
        CONSTANTS.HORIZONTAL_PIPE_SPACING, CONSTANTS.PIPE_WIDTH, CONSTANTS.PIPE_SPEED.
      cbn [Level.movePipe Pipe.topPipe Rect.left Rect.right]. unfold CONSTANTS.PIPE_SPEED.
      rewrite Hlt. repeat split; try lra.
      repeat (apply Forall_cons || apply Forall_nil); unfold CONSTANTS.PIPE_SPEED;
        cbn [Level.movePipe Pipe.topPipe Rect.left Rect.right]; unfold CONSTANTS.PIPE_SPEED; rewrite ?Hlt; lra.
    + repeat (apply Forall_cons || apply Forall_nil); unfold rightEdge, CONSTANTS.PIPE_SPEED;
        cbn [Level.movePipe Pipe.topPipe Rect.left Rect.right]; unfold CONSTANTS.PIPE_SPEED; rewrite ?Hlt; lra.
    + right. split; [exact Hdr |]. exists pipe. split; [reflexivity |].
      split; [exact Hs |]. unfold leftEdge. rewrite Hlt. split; lra.
  - subst b'. apply Qnot_le_lt in Hgt.
    unfold leftEdge, rightEdge, CONSTANTS.HORIZONTAL_PIPE_SPACING, CONSTANTS.PIPE_WIDTH,
      CONSTANTS.PIPE_SPEED in *.
    cbn [Level.movePipe Pipe.topPipe Rect.left Rect.right] in *.
    unfold CONSTANTS.PIPE_SPEED in *.
    split; [| split].
    + exists (Level.movePipe p0), (Level.movePipe p1), (Level.movePipe p2).
      split; [exact Hps' |]. unfold spaced, leftEdge, rightEdge,
        CONSTANTS.HORIZONTAL_PIPE_SPACING, CONSTANTS.PIPE_WIDTH, CONSTANTS.PIPE_SPEED.
      cbn [Level.movePipe Pipe.topPipe Rect.left Rect.right]. unfold CONSTANTS.PIPE_SPEED.
      repeat split; try lra.
      repeat (apply Forall_cons || apply Forall_nil); unfold CONSTANTS.PIPE_SPEED;
        cbn [Level.movePipe Pipe.topPipe Rect.left Rect.right]; unfold CONSTANTS.PIPE_SPEED; lra.
    + rewrite Hps'. repeat (apply Forall_cons || apply Forall_nil); unfold rightEdge, CONSTANTS.PIPE_SPEED;
        cbn [Level.movePipe Pipe.topPipe Rect.left Rect.right]; unfold CONSTANTS.PIPE_SPEED; lra.
    + left. split; [reflexivity |]. rewrite Hps', Hps. reflexivity.
Qed.

Lemma constructor_inView (d : Dimensions) (b : Browser) (this : Level.t) (b' : Browser) :
  0 <= width d ->
  Level.constructor d b = Returns (this, b') -> inView this.
Proof.
  intros Hw Hc.
  destruct (constructor_returns d b)
    as (p0 & p1 & p2 & Hc' & (Hl0 & Hl1 & Hl2) & (Hr0 & Hr1 & Hr2) & _).
  rewrite Hc in Hc'. injection Hc' as -> _.
  exists p0, p1, p2. split; [reflexivity |].
  unfold spaced, CONSTANTS.HORIZONTAL_PIPE_SPACING, CONSTANTS.PIPE_WIDTH,
    CONSTANTS.WARMUP_SECONDS, CONSTANTS.PIPE_SPEED in *.
  repeat split; try (rewrite ?Hl2, ?Hl1; lra).
  - repeat (apply Forall_cons || apply Forall_nil); rewrite ?Hr0, ?Hr1, ?Hr2; lra.
  - rewrite Hr0, Hl0. lra.
Qed.

Lemma frames_inView (n : nat) (this : Level.t) (b : Browser) :
  inView this ->
  exists this' b', frames n this b = Returns (this', b') /\ inView this'.
Proof.
  revert this b. induction n as [| n IH]; intros this b Hin.
  - exists this, b. auto.
  - destruct (movePipes_inView this b Hin) as (this1 & b1 & Hm & Hin1 & _).
    cbn [frames]. rewrite (bind_returns _ _ _ _ _ Hm). apply IH. exact Hin1.
Qed.

(** X6.  On a canvas of width at least 0, the Level reached after any number
    of [movePipes()] frames holds three evenly spaced pairs with the front
    pair's right edge right of 0.  One more frame keeps this and leaves
    every pair with its right edge right of 0: a pair is removed in the
    frame in which its right edge reaches 0.  A pair created by a frame
    enters with its left edge above 608 and at most 610, whatever the
    width of the canvas. *)
Theorem pairs_leave_at_zero_and_enter_at_610 (d : Dimensions) (n : nat) (b : Browser) :
  0 <= width d ->
  exists this b',
    levelAfter n d b = Returns (this, b')
    /\ inView this
    /\ forall b0,
         exists next b1,
           Level.movePipes this b0 = Returns (next, b1)
           /\ inView next
           /\ Forall (fun p => 0 < rightEdge p) (Level.pipes next)
           /\ ((b1 = b0 /\ Level.pipes next = map Level.movePipe (Level.pipes this))
               \/ (drawn b1 = S (drawn b0)
                   /\ exists pipe,
                        nth_error (Level.pipes next) 2 = Some pipe
                        /\ Pipe.serial pipe = drawn b0
                        /\ 608 < leftEdge pipe /\ leftEdge pipe <= 610)).
Proof.
  intros Hw. unfold levelAfter.
  destruct (constructor_returns d b) as (p0 & p1 & p2 & Hc & _).
  pose proof (constructor_inView d b _ _ Hw Hc) as Hin0.
  destruct (frames_inView n _ (mkBrowser (entropy b) (3 + drawn b) (alerts b) (frameRequests b))
                          Hin0) as (this & b' & Hf & Hin).
  exists this, b'. rewrite (bind_returns _ _ _ _ _ Hc).
  split; [exact Hf |]. split; [exact Hin |].
  intros b0. apply movePipes_inView. exact Hin.
Qed.

(* ------------------------------------------------------------------ *)
(** * FlappyCapy: the methods of a frame, one by one *)

Lemma movePipes_length3 (this : Level.t) (b : Browser) :
  length (Level.pipes this) = 3%nat ->
  exists ps b',
    Level.movePipes this b = Returns (Level.set_pipes this ps, b')
    /\ length ps = 3%nat
    /\ alerts b' = alerts b
    /\ frameRequests b' = frameRequests b.
Proof.
  intros Hlen.
  destruct (Level.pipes this) as [| p0 [| p1 [| p2 [| p3 rest]]]] eqn:Hps; try discriminate.
  destruct (movePipes_three this p0 p1 p2 b Hps) as [[_ (pipe & _ & Hm)] | [_ Hm]];
    rewrite Hm; do 2 eexists; (split; [reflexivity |]); auto.
Qed.

Lemma callTimes_increment (n : nat) (s : number) (b : Browser) :
  exists s',
    callTimes n (fun counter : number => ret (counter + 1)) s b = Returns (s', b)
    /\ s' == s + times n.
Proof.
  revert s. induction n as [| n IH]; intros s.
  - exists s. split; [reflexivity |]. change (times 0) with 0. lra.
  - destruct (IH (s + 1)) as (s' & Hc & Hs).
    exists s'. cbn [callTimes]. rewrite (bind_returns _ _ _ _ _ eq_refl).
    split; [exact Hc |]. rewrite Hs, times_S. lra.
Qed.

Lemma passedPipe_score (c : Rect.t) (this : Level.t) (s : number) (b : Browser) :
  exists s',
    Level.passedPipe c (fun counter : number => ret (counter + 1)) this s b
    = Returns ((Level.set_pipes this (map (markPassed c) (Level.pipes this)), s'), b)
    /\ s' == s + times (length (filter (justPassed c) (Level.pipes this))).
Proof.
  destruct (callTimes_increment (length (filter (justPassed c) (Level.pipes this))) s b)
    as (s' & Hc & Hs).
  exists s'. split; [| exact Hs].
  unfold Level.passedPipe, Level.eachPipe. unfold bind at 1.
  rewrite forEach_passedPipe. unfold bind at 1. rewrite Hc. reflexivity.
Qed.

Lemma sound_fields (this this' : FlappyCapy.t) :
  length (Level.pipes (FlappyCapy.level this'))
  = length (Level.pipes (FlappyCapy.level this)) ->
  Level.backgroundQueue (FlappyCapy.level this')
  = Level.backgroundQueue (FlappyCapy.level this) ->
  Level.appendBackground (FlappyCapy.level this')
  = Level.appendBackground (FlappyCapy.level this) ->
  Capy.capyCounter (FlappyCapy.capy this') = Capy.capyCounter (FlappyCapy.capy this) ->
  sound this -> sound this'.
Proof.
  intros Hl Hq Ha Hc (Hlen & [Happ Hbg] & k & Hk).
  unfold sound, backgroundInvariant, counterAt in *.
  rewrite Hl, Hq, Ha, Hc. eauto.
Qed.

Lemma first_frame_ahead (d : Dimensions) (b0 b1 b : Browser) (fresh this : Level.t) :
  0 <= width d ->
  Level.constructor d b0 = Returns (fresh, b1) ->
  Level.pipes this = Level.pipes fresh ->
  Level.animate this b
  = Returns (Level.set_pipes this (map Level.movePipe (Level.pipes this)), b)
  /\ length (Level.pipes this) = 3%nat
  /\ Forall (ahead (Capy.bounds (Capy.constructor d))) (map Level.movePipe (Level.pipes this))
  /\ Forall (fun p => Pipe.passed p = false /\ (drawn b0 <= Pipe.serial p)%nat)
            (Level.pipes this)
  /\ b1 = mkBrowser (entropy b0) (3 + drawn b0) (alerts b0) (frameRequests b0).
Proof.
  intros Hw Hc Hsame.
  destruct (constructor_returns d b0)
    as (p0 & p1 & p2 & Hc' & (Hl0 & Hl1 & Hl2) & (Hr0 & Hr1 & Hr2) & (Hs0 & Hs1 & Hs2)
        & Hpassed & Hbottom & _).
  rewrite Hc in Hc'. injection Hc' as -> ->. cbn [Level.pipes] in Hsame.
  apply Forall_cons_iff in Hpassed as [Hp0 Hpassed].
  apply Forall_cons_iff in Hpassed as [Hp1 Hpassed].
  apply Forall_cons_iff in Hpassed as [Hp2 _].
  apply Forall_cons_iff in Hbottom as [[Hbl0 Hbr0] Hbottom].
  apply Forall_cons_iff in Hbottom as [[Hbl1 Hbr1] Hbottom].
  apply Forall_cons_iff in Hbottom as [[Hbl2 Hbr2] _].
  rewrite Hsame. split; [| split; [reflexivity | split; [| split; [| reflexivity]]]].
  - destruct (movePipes_three this p0 p1 p2 b Hsame) as [[E _] | [_ Hm]]; [| exact Hm].
    exfalso. apply leb_le in E. unfold rightEdge in *. cbn in E. rewrite Hr0 in E.
    unfold leftEdge in *. rewrite Hl0 in E.
    unfold CONSTANTS.PIPE_WIDTH, CONSTANTS.WARMUP_SECONDS, CONSTANTS.PIPE_SPEED in E. lra.
  - unfold ahead, Capy.bounds, Capy.constructor.
    cbn [Capy.x Rect.left Rect.right map].
    change (width d / 3) with (width d * (1 # 3)).
    unfold leftEdge, rightEdge in *.
    repeat (apply Forall_cons || apply Forall_nil);
      cbn [Level.movePipe Pipe.topPipe Pipe.bottomPipe Rect.left Rect.right];
      rewrite ?Hbl0, ?Hbl1, ?Hbl2, ?Hr0, ?Hr1, ?Hr2, ?Hl2, ?Hl1, ?Hl0;
      unfold CONSTANTS.PIPE_WIDTH, CONSTANTS.WARMUP_SECONDS, CONSTANTS.PIPE_SPEED,
        CONSTANTS.HORIZONTAL_PIPE_SPACING, CONST.CAPY_WIDTH;
      repeat split; lra.
  - repeat (apply Forall_cons || apply Forall_nil); (split; [assumption | lia]).
Qed.

Lemma ahead_after_move (c : Rect.t) (ps : list Pipe.t) :
  Forall (ahead c) (map Level.movePipe ps) ->
  map (markPassed c) (map Level.movePipe ps) = map Level.movePipe ps.
Proof.
  induction ps as [| p ps IH]; cbn [map]; intros H; [reflexivity |].
  apply Forall_cons_iff in H as [Hp H]. rewrite (IH H).
  unfold markPassed at 1. rewrite (ahead_not_justPassed c _ Hp). reflexivity.
Qed.

(** The background loop's frame. *)
Lemma animateLevelBackground_returns (k : Z) (this : FlappyCapy.t) (b : Browser) :
  backgroundInvariant (FlappyCapy.level this) ->
  counterAt k (FlappyCapy.capy this) ->
  exists this',
    FlappyCapy.animateLevelBackground this b
    = Returns (this', mkBrowser (entropy b) (drawn b) (alerts b)
                                (frameRequests b ++ [AnimateLevelBackgroundCallback]))
    /\ backgroundInvariant (FlappyCapy.level this')
    /\ counterAt ((k + 1) mod 16) (FlappyCapy.capy this')
    /\ Level.pipes (FlappyCapy.level this') = Level.pipes (FlappyCapy.level this)
    /\ Level.dimensions (FlappyCapy.level this') = Level.dimensions (FlappyCapy.level this)
    /\ FlappyCapy.dimensions this' = FlappyCapy.dimensions this
    /\ FlappyCapy.score this' = FlappyCapy.score this
    /\ FlappyCapy.running this' = FlappyCapy.running this
    /\ FlappyCapy.backgroundRunning this' = FlappyCapy.backgroundRunning this
    /\ (let moved := if FlappyCapy.running this
                     then Capy.moveCapy (FlappyCapy.capy this)
                     else FlappyCapy.capy this in
        Capy.dimensions (FlappyCapy.capy this') = Capy.dimensions moved
        /\ Capy.x (FlappyCapy.capy this') = Capy.x moved
        /\ Capy.y (FlappyCapy.capy this') = Capy.y moved
        /\ Capy.vel (FlappyCapy.capy this') = Capy.vel moved).
Proof.
  intros Hbg Hk.
  destruct (moveAnimatedBackground_invariant _ b Hbg) as (scrolled & Hm & Hbg' & Hps & Hd).
  unfold FlappyCapy.animateLevelBackground, Level.animateBackground.
  rewrite (bind_returns _ _ _ _ _ Hm).
  assert (Hk' : counterAt k (if FlappyCapy.running this
                             then Capy.moveCapy (FlappyCapy.capy this)
                             else FlappyCapy.capy this))
    by (destruct (FlappyCapy.running this); exact Hk).
  destruct (drawCapy_step k _ b Hk') as (drawn' & Hdraw & Hk1 & Hcd & Hcx & Hcy & Hcv).
  cbn [FlappyCapy.running FlappyCapy.set_level].
  destruct (FlappyCapy.running this) eqn:Erun;
    cbn [FlappyCapy.capy FlappyCapy.set_capy FlappyCapy.set_level];
    rewrite (bind_returns _ _ _ _ _ Hdraw);
    (eexists; split; [reflexivity |]);
    cbn [FlappyCapy.level FlappyCapy.capy FlappyCapy.set_capy FlappyCapy.set_level
           FlappyCapy.dimensions FlappyCapy.score FlappyCapy.running
           FlappyCapy.backgroundRunning];
    (split; [exact Hbg' | split; [exact Hk1 | repeat split; auto]]).
Qed.

Lemma capy_like_fresh (d : Dimensions) (c : Capy.t) :
  Capy.dimensions c = d -> Capy.x c = width d / 3 -> Capy.y c = height d / 2 ->
  Capy.bounds c = Capy.bounds (Capy.constructor d)
  /\ Capy.outOfBounds c = Capy.outOfBounds (Capy.constructor d).
Proof.
  intros Hd Hx Hy. unfold Capy.bounds, Capy.outOfBounds, Capy.constructor.
  cbn [Capy.x Capy.y Capy.dimensions]. rewrite Hd, Hx, Hy. split; reflexivity.
Qed.


Lemma Forall_moved_new (b : Browser) (ps : list Pipe.t) :
  Forall (fun p => Pipe.passed p = false /\ (drawn b <= Pipe.serial p)%nat) ps ->
  Forall (fun p => Pipe.passed p = false /\ (drawn b <= Pipe.serial p)%nat)
         (map Level.movePipe ps).
Proof.
  induction 1 as [| p ps Hp _ IH]; cbn [map]; constructor; auto.
Qed.

(** [restart()] on a canvas that holds a freshly placed Capy: it returns,
    with the game idle. *)
Lemma restart_returns (d : Dimensions) (fuel : nat) (this : FlappyCapy.t) (b : Browser) :
  0 <= width d ->
  2 * CONST.CAPY_HEIGHT <= height d ->
  FlappyCapy.dimensions this = d ->
  exists this' b',
    FlappyCapy.restart (FlappyCapy.animate (S fuel)) this b = Returns (this', b')
    /\ sound this'
    /\ freshlyRestarted d b (FlappyCapy.backgroundRunning this) this' b'.
Proof.
  intros Hw Hh Hd.
  destruct (constructor_returns d b) as (p0 & p1 & p2 & Hc & _).
  pose proof (constructor_backgroundInvariant d b _ _ Hc) as Hbg.
  set (fresh := Level.mk d [p0; p1; p2] [mkBackground (480 - 1920)] true) in *.
  set (b1 := mkBrowser (entropy b) (3 + drawn b) (alerts b) (frameRequests b)) in *.
  pose proof (fresh_capy_inside d Hh) as Hin.
  assert (Hk0 : counterAt 0 (Capy.constructor d)) by (split; [lia | reflexivity]).
  unfold FlappyCapy.restart. game_fields. rewrite Hd.
  rewrite (bind_returns _ _ _ _ _ Hc).
  destruct (FlappyCapy.backgroundRunning this) eqn:Ebg; cbn [negb].
  - unfold ret at 1. unfold bind at 1. game_fields.
    destruct (first_frame_ahead d b b1 b1 fresh fresh Hw Hc eq_refl)
      as (Hm & Hlen & Hahead & Hnew & _).
    rewrite animate_quiet
      with (moved := Level.set_pipes fresh (map Level.movePipe (Level.pipes fresh)))
           (b1 := b1); auto.
    do 2 eexists. split; [reflexivity |].
    unfold sound, freshlyRestarted. game_fields. cbn [Level.pipes Level.set_pipes].
    rewrite length_map.
    split; [split; [exact Hlen | split; [exact Hbg | eauto]] |].
    split; [repeat split; auto |].
    split; [repeat split |].
    split; [split; [exact Hlen | split; [exact Hahead | apply Forall_moved_new; exact Hnew]] |].
    split; [exists fresh, b1; split; [exact Hc | reflexivity] |].
    repeat split. cbn. rewrite app_nil_r. reflexivity.
  - set (this1 := FlappyCapy.set_capy
                    (FlappyCapy.set_level (FlappyCapy.set_running this false) fresh)
                    (Capy.constructor d)).
    destruct (animateLevelBackground_returns 0 this1 b1 Hbg Hk0)
      as (this2 & Hbgframe & Hbg2 & Hk2 & Hps2 & Hld2 & Hd2 & Hsc2 & Hrun2 & Hbr2
          & Hcd2 & Hcx2 & Hcy2 & Hcv2).
    cbn [this1 FlappyCapy.running FlappyCapy.set_capy FlappyCapy.set_level
           FlappyCapy.set_running FlappyCapy.capy FlappyCapy.level FlappyCapy.dimensions]
      in Hps2, Hld2, Hd2, Hrun2, Hcd2, Hcx2, Hcy2, Hcv2.
    set (b2 := mkBrowser (entropy b1) (drawn b1) (alerts b1)
                         (frameRequests b1 ++ [AnimateLevelBackgroundCallback])) in *.
    unfold bind at 1. rewrite (bind_returns _ _ _ _ _ Hbgframe). unfold ret at 1.
    destruct (capy_like_fresh d (FlappyCapy.capy this2) Hcd2 Hcx2 Hcy2) as [Hbounds Hout].
    destruct (first_frame_ahead d b b1 b2 fresh (FlappyCapy.level this2) Hw Hc Hps2)
      as (Hm & Hlen & Hahead & Hnew & _).
    rewrite animate_quiet
      with (moved := Level.set_pipes (FlappyCapy.level this2)
                       (map Level.movePipe (Level.pipes (FlappyCapy.level this2))))
           (b1 := b2).
    + do 2 eexists. split; [reflexivity |].
      unfold sound, freshlyRestarted. game_fields. cbn [Level.pipes Level.set_pipes].
      rewrite length_map, Hbounds.
      split; [split; [exact Hlen | split; [exact Hbg2 | eauto]] |].
      split; [repeat split; auto; congruence |].
      split; [repeat split; try assumption; apply Hk2 |].
      split; [split; [exact Hlen | split; [exact Hahead | apply Forall_moved_new; exact Hnew]] |].
      split; [exists fresh, b1; split; [exact Hc | rewrite Hps2; reflexivity] |].
      repeat split.
    + game_fields. exact Hm.
    + game_fields. rewrite Hbounds. exact Hahead.
    + game_fields. rewrite Hout. exact Hin.
    + game_fields. exact Hrun2.
Qed.

(* ------------------------------------------------------------------ *)
(** * FlappyCapy: constructing the game *)

(** X7.  On a canvas of width at least 0 and height at least twice
    CAPY_HEIGHT, [new FlappyCapy(canvas, audioObj)] returns, for every
    bound of at least 1 on the depth of the calls.  It leaves the game
    idle with the score 0, the Capy at a third of the width and half the
    height with velocity 0, drawn once, and a Level of three pairs, none
    passed, all ahead of the Capy; it has made three [Math.random()]
    calls, shown no alert and requested one frame, for the background
    loop. *)
Theorem constructor_starts_idle (d : Dimensions) (fuel : nat) (b : Browser) :
  0 <= width d ->
  2 * CONST.CAPY_HEIGHT <= height d ->
  exists this b',
    FlappyCapy.constructor (S fuel) d b = Returns (this, b')
    /\ freshlyRestarted d b false this b'.
Proof.
  intros Hw Hh. unfold FlappyCapy.constructor.
  destruct (restart_returns d fuel
              (FlappyCapy.mk d (Level.mk d [] [] false) (Capy.constructor d) 0 false false)
              b Hw Hh eq_refl) as (this & b' & Hr & _ & Hfresh).
  exists this, b'. split; [exact Hr | exact Hfresh].
Qed.

Lemma animate_out_of_fuel (fuel : nat) (this : FlappyCapy.t) (b : Browser) :
  height (FlappyCapy.dimensions this) < 2 * CONST.CAPY_HEIGHT ->
  Capy.outOfBounds (FlappyCapy.capy this) = true ->
  length (Level.pipes (FlappyCapy.level this)) = 3%nat ->
  FlappyCapy.backgroundRunning this = true ->
  FlappyCapy.animate fuel this b = OutOfFuel.
Proof.
  revert this b. induction fuel as [| fuel IH]; intros this b Hh Hout Hlen Hbg;
    [reflexivity |].
  rewrite animate_S.
  destruct (movePipes_length3 _ b Hlen) as (ps & b1 & Hm & _).
  unfold Level.animate. rewrite (bind_returns _ _ _ _ _ Hm).
  rewrite (bind_returns _ _ _ _ _ (gameOver_returns _ _)). cbv beta iota.
  game_fields. rewrite Hout, orb_true_r.
  unfold bind at 1. unfold bind at 1. unfold alert at 1.
  unfold FlappyCapy.restart. game_fields.
  destruct (constructor_returns (FlappyCapy.dimensions this)
              (mkBrowser (entropy b1) (drawn b1) (alerts b1 ++ [FlappyCapy.score this])
                         (frameRequests b1)))
    as (p0 & p1 & p2 & Hc & _).
  rewrite (bind_returns _ _ _ _ _ Hc). rewrite Hbg. cbn [negb].
  unfold ret at 1. unfold bind at 1. rewrite IH; [reflexivity | | | |]; game_fields.
  - exact Hh.
  - apply fresh_capy_outside. exact Hh.
  - reflexivity.
  - exact Hbg.
Qed.

(** X8.  On a canvas lower than twice CAPY_HEIGHT the freshly placed Capy is
    out of bounds, so the first frame restarts the game, whose first frame
    restarts it again: [new FlappyCapy(canvas, audioObj)] neither returns
    nor throws, whatever bound is put on the depth of the calls. *)
Theorem constructor_never_ends_on_low_canvas (d : Dimensions) (fuel : nat) (b : Browser) :
  height d < 2 * CONST.CAPY_HEIGHT ->
  FlappyCapy.constructor fuel d b = OutOfFuel.
Proof.
  intros Hh. unfold FlappyCapy.constructor, FlappyCapy.restart. game_fields.
  destruct (constructor_returns d b) as (p0 & p1 & p2 & Hc & _).
  pose proof (constructor_backgroundInvariant d b _ _ Hc) as Hbg.
  rewrite (bind_returns _ _ _ _ _ Hc). cbn [negb].
  set (fresh := Level.mk d [p0; p1; p2] [mkBackground (480 - 1920)] true) in *.
  set (this1 := FlappyCapy.set_capy _ _).
  assert (Hk0 : counterAt 0 (FlappyCapy.capy this1)) by (split; [lia | reflexivity]).
  destruct (animateLevelBackground_returns
              0 this1 (mkBrowser (entropy b) (3 + drawn b) (alerts b) (frameRequests b))
              Hbg Hk0)
    as (this2 & Hframe & _ & _ & Hps2 & _ & Hd2 & _ & _ & _ & Hcd2 & Hcx2 & Hcy2 & _).
  cbn [this1 FlappyCapy.running FlappyCapy.set_capy FlappyCapy.set_level
         FlappyCapy.set_running FlappyCapy.capy FlappyCapy.level FlappyCapy.dimensions]
    in Hps2, Hd2, Hcd2, Hcx2, Hcy2.
  unfold bind at 1. rewrite (bind_returns _ _ _ _ _ Hframe). unfold ret at 1.
  destruct (capy_like_fresh d (FlappyCapy.capy this2) Hcd2 Hcx2 Hcy2) as [_ Hout].
  apply animate_out_of_fuel; game_fields.
  - rewrite Hd2. exact Hh.
  - rewrite Hout. apply fresh_capy_outside. exact Hh.
  - rewrite Hps2. reflexivity.
  - reflexivity.
Qed.

(* ------------------------------------------------------------------ *)
(** * FlappyCapy: a frame without a game over *)

(** X9.  A frame of [animate()] in which [gameOver()] is false shows no
    alert and keeps the Capy, the running flag and the dimensions.  It
    moves the pipes, marks the pairs the Capy has just passed and adds
    their number to the score; and it requests the next frame exactly
    when the game is running. *)
Theorem animate_scores_passed_pairs (fuel : nat) (this over : FlappyCapy.t)
        (b b1 b2 : Browser) (moved : Level.t) :
  Level.animate (FlappyCapy.level this) b = Returns (moved, b1) ->
  FlappyCapy.gameOver (FlappyCapy.set_level this moved) b1 = Returns ((false, over), b2) ->
  let bounds := Capy.bounds (FlappyCapy.capy this) in
  exists this',
    FlappyCapy.animate (S fuel) this b
    = Returns (this',
               mkBrowser (entropy b1) (drawn b1) (alerts b1)
                         (frameRequests b1 ++ (if FlappyCapy.running this
                                               then [AnimateCallback] else [])))
    /\ FlappyCapy.level this'
       = Level.set_pipes moved (map (markPassed bounds) (Level.pipes moved))
    /\ FlappyCapy.score this'
       == FlappyCapy.score this
          + times (length (filter (justPassed bounds) (Level.pipes moved)))
    /\ FlappyCapy.capy this' = FlappyCapy.capy this
    /\ FlappyCapy.running this' = FlappyCapy.running this
    /\ FlappyCapy.backgroundRunning this' = FlappyCapy.backgroundRunning this
    /\ FlappyCapy.dimensions this' = FlappyCapy.dimensions this
    /\ alerts b1 = alerts b.
Proof.
  intros Hmove Hover bounds.
  rewrite gameOver_returns in Hover. injection Hover as Hover _ _.
  game_fields in Hover.
  destruct (passedPipe_score bounds moved (FlappyCapy.score this) b1) as (s' & Hpp & Hs').
  destruct (movePipes_browser _ _ _ _ Hmove) as (_ & Halerts & _).
  rewrite animate_S. rewrite (bind_returns _ _ _ _ _ Hmove).
  rewrite (bind_returns _ _ _ _ _ (gameOver_returns _ _)). cbv beta iota.
  game_fields. rewrite Hover. unfold ret at 1. unfold bind at 1. game_fields.
  fold bounds. rewrite (bind_returns _ _ _ _ _ Hpp). cbv beta iota. game_fields.
  destruct (FlappyCapy.running this) eqn:Erun.
  - rewrite (bind_returns _ _ _ _ _ eq_refl). eexists. split; [reflexivity |].
    game_fields. repeat split; auto.
  - eexists. split; [destruct b1; cbn; rewrite app_nil_r; reflexivity |].
    game_fields. repeat split; auto.
Qed.

(* ------------------------------------------------------------------ *)
(** * FlappyCapy: no handler throws *)

Lemma restart_sound (animate : FlappyCapy.t -> JS FlappyCapy.t)
      (this this' : FlappyCapy.t) (b b' : Browser) :
  (forall g g' b b', animate g b = Returns (g', b') -> sound g -> sound g') ->
  FlappyCapy.restart animate this b = Returns (this', b') ->
  sound this'.
Proof.
  intros Hanimate. unfold FlappyCapy.restart. intros H.
  destruct (constructor_returns (FlappyCapy.dimensions (FlappyCapy.set_running this false)) b)
    as (p0 & p1 & p2 & Hc & _).
  pose proof (constructor_backgroundInvariant _ _ _ _ Hc) as Hbg.
  rewrite (bind_returns _ _ _ _ _ Hc) in H.
  apply bind_inv in H as (this1 & b2 & H1 & H).
  apply Hanimate in H; [exact H |]. clear H.
  assert (Hk0 : counterAt 0 (Capy.constructor
                               (FlappyCapy.dimensions (FlappyCapy.set_running this false))))
    by (split; [lia | reflexivity]).
  game_fields in H1.
  destruct (FlappyCapy.backgroundRunning this); cbn [negb] in H1.
  - unfold ret in H1. injection H1 as <- _.
    split; [reflexivity |]. split; [exact Hbg | eauto].
  - match type of H1 with
    | bind (FlappyCapy.animateLevelBackground ?g) _ ?bb = _ =>
        destruct (animateLevelBackground_returns 0 g bb Hbg Hk0)
          as (this2 & Hframe & Hbg2 & Hk2 & Hps2 & _)
    end.
    rewrite (bind_returns _ _ _ _ _ Hframe) in H1. unfold ret in H1.
    injection H1 as <- _.
    split; [game_fields; rewrite Hps2; reflexivity |]. split; [exact Hbg2 | eauto].
Qed.

Lemma animate_sound (fuel : nat) (this this' : FlappyCapy.t) (b b' : Browser) :
  FlappyCapy.animate fuel this b = Returns (this', b') -> sound this -> sound this'.
Proof.
  revert this this' b b'. induction fuel as [| fuel IH]; intros this this' b b' H Hsound;
    [discriminate |].
  rewrite animate_S in H.
  destruct Hsound as (Hlen & Hbg & Hk).
  destruct (movePipes_length3 _ b Hlen) as (ps & b1 & Hm & Hlen1 & _).
  unfold Level.animate in H. rewrite (bind_returns _ _ _ _ _ Hm) in H.
  rewrite (bind_returns _ _ _ _ _ (gameOver_returns _ _)) in H. cbv beta iota in H.
  apply bind_inv in H as (this2 & b2 & H2 & H).
  assert (Hsound2 : sound this2).
  { destruct (_ || _) in H2.
    - apply bind_inv in H2 as (u & b3 & _ & H2).
      apply (restart_sound _ _ _ _ _ IH) in H2. exact H2.
    - unfold ret in H2. injection H2 as <- _.
      split; [exact Hlen1 |]. split; [exact Hbg | exact Hk]. }
  destruct (passedPipe_score (Capy.bounds (FlappyCapy.capy this2)) (FlappyCapy.level this2)
                             (FlappyCapy.score this2) b2) as (s' & Hpp & _).
  rewrite (bind_returns _ _ _ _ _ Hpp) in H. cbv beta iota in H.
  assert (Hsound3 : sound (FlappyCapy.set_score
                             (FlappyCapy.set_level this2
                                (Level.set_pipes (FlappyCapy.level this2)
                                   (map (markPassed (Capy.bounds (FlappyCapy.capy this2)))
                                        (Level.pipes (FlappyCapy.level this2))))) s')).
  { apply (sound_fields this2); try reflexivity; [| exact Hsound2].
    game_fields. cbn [Level.pipes Level.set_pipes]. apply length_map. }
  destruct (FlappyCapy.running _) in H.
  - apply bind_inv in H as (u & b4 & _ & H). unfold ret in H. injection H as <- _.
    exact Hsound3.
  - unfold ret in H. injection H as <- _. exact Hsound3.
Qed.

Lemma handle_sound (fuel : nat) (e : Event) (this this' : FlappyCapy.t) (b b' : Browser) :
  handle fuel e this b = Returns (this', b') -> sound this -> sound this'.
Proof.
  destruct e as [[|] |]; cbn [handle]; intros H Hsound.
  - exact (animate_sound _ _ _ _ _ H Hsound).
  - destruct Hsound as (Hlen & Hbg & k & Hk).
    destruct (animateLevelBackground_returns k this b Hbg Hk)
      as (this2 & Hframe & Hbg2 & Hk2 & Hps2 & _).
    rewrite Hframe in H. injection H as <- _.
    split; [rewrite Hps2; exact Hlen |]. split; [exact Hbg2 | eauto].
  - unfold FlappyCapy.mousedown, FlappyCapy.play in H.
    apply bind_inv in H as (this1 & b1 & H1 & H). unfold ret in H. injection H as <- _.
    apply (sound_fields this1); try reflexivity.
    destruct (negb (FlappyCapy.running this)).
    + apply (animate_sound _ _ _ _ _ H1). exact Hsound.
    + unfold ret in H1. injection H1 as <- _. exact Hsound.
Qed.

Lemma reachable_sound (d : Dimensions) (this : FlappyCapy.t) (b : Browser) :
  reachable d this b -> sound this.
Proof.
  intros (fuel & events & b0 & H). unfold run in H.
  apply bind_inv in H as (this0 & b1 & H0 & H).
  unfold FlappyCapy.constructor in H0.
  apply (restart_sound _ _ _ _ _ (animate_sound fuel)) in H0.
  revert this0 b1 H0 H. induction events as [| e events IH]; intros this0 b1 H0 H;
    cbn [handleAll] in H.
  - unfold ret in H. injection H as <- _. exact H0.
  - apply bind_inv in H as (this1 & b2 & H1 & H).
    apply (IH this1 b2); [| exact H]. exact (handle_sound _ _ _ _ _ _ H1 H0).
Qed.

Lemma animate_returns (d : Dimensions) (fuel : nat) (this : FlappyCapy.t) (b : Browser) :
  0 <= width d ->
  2 * CONST.CAPY_HEIGHT <= height d ->
  FlappyCapy.dimensions this = d ->
  sound this ->
  exists this' b', FlappyCapy.animate (S (S fuel)) this b = Returns (this', b').
Proof.
  intros Hw Hh Hd (Hlen & _).
  rewrite animate_S.
  destruct (movePipes_length3 _ b Hlen) as (ps & b1 & Hm & _).
  unfold Level.animate. rewrite (bind_returns _ _ _ _ _ Hm).
  rewrite (bind_returns _ _ _ _ _ (gameOver_returns _ _)). cbv beta iota.
  assert (Hnext : exists this2 b2,
             (if existsb
                   (fun pipe =>
                      Level._overlap (Pipe.topPipe pipe)
                                     (Capy.bounds (FlappyCapy.capy
                                                     (FlappyCapy.set_level this
                                                        (Level.set_pipes (FlappyCapy.level this) ps))))
                      || Level._overlap (Pipe.bottomPipe pipe)
                                        (Capy.bounds (FlappyCapy.capy
                                                        (FlappyCapy.set_level this
                                                           (Level.set_pipes (FlappyCapy.level this) ps)))))
                   (Level.pipes (FlappyCapy.level
                                   (FlappyCapy.set_level this
                                      (Level.set_pipes (FlappyCapy.level this) ps))))
                 || Capy.outOfBounds (FlappyCapy.capy
                                        (FlappyCapy.set_level this
                                           (Level.set_pipes (FlappyCapy.level this) ps)))
              then
                alert (FlappyCapy.score
                         (FlappyCapy.set_level
                            (FlappyCapy.set_level this
                               (Level.set_pipes (FlappyCapy.level this) ps))
                            (FlappyCapy.level
                               (FlappyCapy.set_level this
                                  (Level.set_pipes (FlappyCapy.level this) ps))))) ;;;
                FlappyCapy.restart (FlappyCapy.animate (S fuel))
                  (FlappyCapy.set_level
                     (FlappyCapy.set_level this (Level.set_pipes (FlappyCapy.level this) ps))
                     (FlappyCapy.level
                        (FlappyCapy.set_level this
                           (Level.set_pipes (FlappyCapy.level this) ps))))
              else
                ret (FlappyCapy.set_level
                       (FlappyCapy.set_level this (Level.set_pipes (FlappyCapy.level this) ps))
                       (FlappyCapy.level
                          (FlappyCapy.set_level this
                             (Level.set_pipes (FlappyCapy.level this) ps))))) b1
             = Returns (this2, b2)).
  { destruct (_ || _).
    - rewrite (bind_returns _ _ _ _ _ eq_refl).
      destruct (restart_returns d fuel
                  (FlappyCapy.set_level
                     (FlappyCapy.set_level this (Level.set_pipes (FlappyCapy.level this) ps))
                     (FlappyCapy.level
                        (FlappyCapy.set_level this
                           (Level.set_pipes (FlappyCapy.level this) ps))))
                  (mkBrowser (entropy b1) (drawn b1)
                             (alerts b1 ++ [FlappyCapy.score
                                              (FlappyCapy.set_level
                                                 (FlappyCapy.set_level this
                                                    (Level.set_pipes (FlappyCapy.level this) ps))
                                                 (FlappyCapy.level
                                                    (FlappyCapy.set_level this
                                                       (Level.set_pipes (FlappyCapy.level this) ps))))])
                             (frameRequests b1)) Hw Hh Hd)
        as (this2 & b2 & Hr & _).
      exists this2, b2. exact Hr.
    - do 2 eexists. reflexivity. }
  destruct Hnext as (this2 & b2 & Hnext).
  rewrite (bind_returns _ _ _ _ _ Hnext).
  destruct (passedPipe_score (Capy.bounds (FlappyCapy.capy this2)) (FlappyCapy.level this2)
                             (FlappyCapy.score this2) b2) as (s' & Hpp & _).
  rewrite (bind_returns _ _ _ _ _ Hpp). cbv beta iota.
  destruct (FlappyCapy.running _).
  - rewrite (bind_returns _ _ _ _ _ eq_refl). do 2 eexists. reflexivity.
  - do 2 eexists. reflexivity.
Qed.

Lemma handle_returns (d : Dimensions) (fuel : nat) (e : Event) (this : FlappyCapy.t)
      (b : Browser) :
  0 <= width d ->
  2 * CONST.CAPY_HEIGHT <= height d ->
  FlappyCapy.dimensions this = d ->
  sound this ->
  exists this' b', handle (S (S fuel)) e this b = Returns (this', b').
Proof.
  intros Hw Hh Hd Hsound. destruct e as [[|] |]; cbn [handle].
  - exact (animate_returns d fuel this b Hw Hh Hd Hsound).
  - destruct Hsound as (_ & Hbg & k & Hk).
    destruct (animateLevelBackground_returns k this b Hbg Hk) as (this' & Hframe & _).
    eauto.
  - unfold FlappyCapy.mousedown, FlappyCapy.play.
    destruct (negb (FlappyCapy.running this)).
    + destruct (animate_returns d fuel (FlappyCapy.set_running this true) b Hw Hh Hd)
        as (this' & b' & Hplay).
      { apply (sound_fields this); try reflexivity. exact Hsound. }
      rewrite (bind_returns _ _ _ _ _ Hplay). do 2 eexists. reflexivity.
    + rewrite (bind_returns _ _ _ _ _ eq_refl). do 2 eexists. reflexivity.
Qed.

(** X10.  No handler of the game throws.  On a canvas of width at least 0
    (and high enough for the constructor to return), in every state the game
    reaches from [new FlappyCapy(canvas, audioObj)] by animation frames
    and mouse presses, each handler ([animate], [animateLevelBackground]
    and the mousedown listener) returns: the Level still holds three pipe
    pairs for [movePipes] to shift, the background strips still cover the
    canvas, the Capy's sprite counter is still within the sprite table,
    and the dimensions are the canvas's. *)
Theorem handlers_return_in_every_reachable_state
        (d : Dimensions) (this : FlappyCapy.t) (b : Browser) (e : Event) (fuel : nat) :
  0 <= width d ->
  reachable d this b ->
  exists this' b',
    handle (S (S fuel)) e this b = Returns (this', b')
    /\ FlappyCapy.dimensions this' = d
    /\ length (Level.pipes (FlappyCapy.level this')) = 3%nat
    /\ coversCanvas (Level.backgroundQueue (FlappyCapy.level this'))
    /\ (exists k, counterAt k (FlappyCapy.capy this')).
Proof.
  intros Hw Hreach.
  pose proof (reachable_high_enough _ _ _ Hreach) as Hh.
  pose proof (reachable_keeps _ _ _ Hreach) as [Hd _].
  pose proof (reachable_sound _ _ _ Hreach) as Hsound.
  destruct (handle_returns d fuel e this b Hw Hh Hd Hsound) as (this' & b' & He).
  exists this', b'. split; [exact He |].
  pose proof (handle_keeps _ _ _ _ _ _ He) as [Hd' _].
  pose proof (handle_sound _ _ _ _ _ _ He Hsound) as (Hlen & Hbg & Hk).
  split; [congruence |]. split; [exact Hlen |].
  split; [apply backgroundInvariant_covers; exact Hbg | exact Hk].
Qed.

(* ------------------------------------------------------------------ *)
(** * FlappyCapy: the first press *)

(** A frame in which every pair is still ahead of the Capy and the Capy is
    inside the field: the pipes move, and the next frame is requested when
    the game is running. *)
Lemma animate_ahead (fuel : nat) (this : FlappyCapy.t) (b b1 : Browser) (moved : Level.t) :
  Level.animate (FlappyCapy.level this) b = Returns (moved, b1) ->
  Forall (ahead (Capy.bounds (FlappyCapy.capy this))) (Level.pipes moved) ->
  Capy.outOfBounds (FlappyCapy.capy this) = false ->
  FlappyCapy.animate (S fuel) this b
  = Returns (FlappyCapy.set_level this moved,
             mkBrowser (entropy b1) (drawn b1) (alerts b1)
                       (frameRequests b1 ++ (if FlappyCapy.running this
                                             then [AnimateCallback] else []))).
Proof.
  intros Hmove Hahead Hin. rewrite animate_S.
  rewrite (bind_returns _ _ _ _ _ Hmove).
  rewrite (bind_returns _ _ _ _ _ (gameOver_returns _ _)). cbv beta iota.
  game_fields.
  rewrite (ahead_no_collision _ _ Hahead), Hin. cbn [orb].
  unfold ret at 1. unfold bind at 1.
  game_fields.
  rewrite (bind_returns _ _ _ _ _ (passedPipe_ahead _ _ _ _ _ Hahead)). cbv beta iota.
  game_fields.
  destruct (FlappyCapy.running this) eqn:Erun.
  - rewrite (bind_returns _ _ _ _ _ eq_refl). unfold ret.
    destruct this; cbn in *; rewrite Erun; reflexivity.
  - unfold ret. destruct this, b1; cbn in *. rewrite Erun, app_nil_r. reflexivity.
Qed.

Lemma second_frame_ahead (d : Dimensions) (b0 b1 b : Browser) (fresh this : Level.t) :
  0 <= width d ->
  Level.constructor d b0 = Returns (fresh, b1) ->
  Level.pipes this = map Level.movePipe (Level.pipes fresh) ->
  Level.animate this b
  = Returns (Level.set_pipes this (map Level.movePipe (Level.pipes this)), b)
  /\ Forall (ahead (Capy.bounds (Capy.constructor d))) (map Level.movePipe (Level.pipes this)).
Proof.
  intros Hw Hc Hsame.
  destruct (constructor_returns d b0)
    as (p0 & p1 & p2 & Hc' & (Hl0 & Hl1 & Hl2) & (Hr0 & Hr1 & Hr2) & _ & _ & Hbottom & _).
  rewrite Hc in Hc'. injection Hc' as -> ->. cbn [Level.pipes map] in Hsame.
  apply Forall_cons_iff in Hbottom as [[Hbl0 Hbr0] Hbottom].
  apply Forall_cons_iff in Hbottom as [[Hbl1 Hbr1] Hbottom].
  apply Forall_cons_iff in Hbottom as [[Hbl2 Hbr2] _].
  rewrite Hsame. split.
  - destruct (movePipes_three this _ _ _ b Hsame) as [[E _] | [_ Hm]]; [| exact Hm].
    exfalso. apply leb_le in E. unfold rightEdge in *. cbn in E. rewrite Hr0 in E.
    unfold leftEdge in *. rewrite Hl0 in E.
    unfold CONSTANTS.PIPE_WIDTH, CONSTANTS.WARMUP_SECONDS, CONSTANTS.PIPE_SPEED in E. lra.
  - unfold ahead, Capy.bounds, Capy.constructor.
    cbn [Capy.x Rect.left Rect.right map].
    change (width d / 3) with (width d * (1 # 3)).
    unfold leftEdge, rightEdge in *.
    repeat (apply Forall_cons || apply Forall_nil);
      cbn [Level.movePipe Pipe.topPipe Pipe.bottomPipe Rect.left Rect.right];
      rewrite ?Hbl0, ?Hbl1, ?Hbl2, ?Hr0, ?Hr1, ?Hr2, ?Hl2, ?Hl1, ?Hl0;
      unfold CONSTANTS.PIPE_WIDTH, CONSTANTS.WARMUP_SECONDS, CONSTANTS.PIPE_SPEED,
        CONSTANTS.HORIZONTAL_PIPE_SPACING, CONST.CAPY_WIDTH;
      repeat split; lra.
Qed.

(** From the idle game, after any number of frames of the background loop,
    the first press. *)
Lemma idle_then_press (d : Dimensions) (fuel n : nat) (b0 bc : Browser) (fresh : Level.t)
      (this : FlappyCapy.t) (b : Browser) :
  0 <= width d ->
  2 * CONST.CAPY_HEIGHT <= height d ->
  Level.constructor d b0 = Returns (fresh, bc) ->
  idle d fresh this ->
  sound this ->
  exists this',
    handleAll (S fuel) (repeat backgroundFrame n ++ [MouseDown]) this b
    = Returns (this',
               mkBrowser (entropy b) (drawn b) (alerts b)
                         (frameRequests b
                          ++ repeat AnimateLevelBackgroundCallback n ++ [AnimateCallback]))
    /\ FlappyCapy.running this' = true
    /\ FlappyCapy.score this' = 0
    /\ Capy.vel (FlappyCapy.capy this') = CONST.FLAP_SPEED * -1
    /\ Capy.x (FlappyCapy.capy this') = width d / 3
    /\ Capy.y (FlappyCapy.capy this') = height d / 2
    /\ Level.pipes (FlappyCapy.level this')
       = map Level.movePipe (map Level.movePipe (Level.pipes fresh)).
Proof.
  intros Hw Hh Hc. revert this b.
  induction n as [| n IH]; intros this b (Hd & Hrun & Hscore & Hcd & Hcx & Hcy & Hps) Hsound.
  - cbn [repeat app handleAll handle].
    unfold FlappyCapy.mousedown, FlappyCapy.play. rewrite Hrun. cbn [negb].
    destruct (capy_like_fresh d (FlappyCapy.capy this) Hcd Hcx Hcy) as [Hbounds Hout].
    destruct (second_frame_ahead d b0 bc b fresh (FlappyCapy.level this) Hw Hc Hps)
      as [Hm Hahead].
    assert (Hframe :
              FlappyCapy.animate (S fuel) (FlappyCapy.set_running this true) b
              = Returns (FlappyCapy.set_level (FlappyCapy.set_running this true)
                           (Level.set_pipes (FlappyCapy.level this)
                              (map Level.movePipe (Level.pipes (FlappyCapy.level this)))),
                         mkBrowser (entropy b) (drawn b) (alerts b)
                                   (frameRequests b ++ [AnimateCallback]))).
    { rewrite animate_ahead
        with (moved := Level.set_pipes (FlappyCapy.level this)
                         (map Level.movePipe (Level.pipes (FlappyCapy.level this))))
             (b1 := b).
      - game_fields. reflexivity.
      - game_fields. exact Hm.
      - game_fields. rewrite Hbounds. exact Hahead.
      - game_fields. rewrite Hout. apply fresh_capy_inside. exact Hh. }
    rewrite (bind_returns _ _ _ _ _ (bind_returns _ _ _ _ _ Hframe)).
    unfold bind, ret. eexists. split; [reflexivity |].
    game_fields. cbn [Level.pipes Level.set_pipes Capy.flap Capy.vel Capy.x Capy.y].
    rewrite Hps. repeat split; auto.
  - destruct Hsound as (Hlen & Hbg & k & Hk).
    destruct (animateLevelBackground_returns k this b Hbg Hk)
      as (this1 & Hframe & Hbg1 & Hk1 & Hps1 & _ & Hd1 & Hsc1 & Hrun1 & _
          & Hcd1 & Hcx1 & Hcy1 & _).
    rewrite Hrun in Hcd1, Hcx1, Hcy1.
    cbn [repeat app handleAll]. unfold backgroundFrame at 1. cbn [handle].
    rewrite (bind_returns _ _ _ _ _ Hframe).
    destruct (IH this1 (mkBrowser (entropy b) (drawn b) (alerts b)
                                  (frameRequests b ++ [AnimateLevelBackgroundCallback])))
      as (this' & Hrest & Hfields).
    + unfold idle. rewrite Hd1, Hsc1, Hrun1, Hcd1, Hcx1, Hcy1, Hps1.
      repeat split; assumption.
    + split; [rewrite Hps1; exact Hlen |]. split; [exact Hbg1 | eauto].
    + exists this'. split; [| exact Hfields].
      rewrite Hrest. cbn [entropy drawn alerts frameRequests].
      rewrite <- app_assoc. reflexivity.
Qed.

(** X11.  The first press starts the game.  On a canvas of width at least 0
    and height at least twice CAPY_HEIGHT, [new FlappyCapy(canvas,
    audioObj)], any number [n] of frames of the background loop and then a
    mouse press leave the game running with the score 0: the Capy has not
    moved and has the flap's upward velocity, the pipes have moved by two
    frames from where the Level's constructor put them, no alert was
    shown, and the frames requested are those of the background loop and
    one for [animate]. *)
Theorem first_press_starts_the_game (d : Dimensions) (fuel n : nat) (b : Browser) :
  0 <= width d ->
  2 * CONST.CAPY_HEIGHT <= height d ->
  exists this b' fresh afterLevel,
    run (S fuel) d (repeat backgroundFrame n ++ [MouseDown]) b = Returns (this, b')
    /\ Level.constructor d b = Returns (fresh, afterLevel)
    /\ FlappyCapy.running this = true
    /\ FlappyCapy.score this = 0
    /\ Capy.vel (FlappyCapy.capy this) = CONST.FLAP_SPEED * -1
    /\ Capy.x (FlappyCapy.capy this) = width d / 3
    /\ Capy.y (FlappyCapy.capy this) = height d / 2
    /\ Level.pipes (FlappyCapy.level this)
       = map Level.movePipe (map Level.movePipe (Level.pipes fresh))
    /\ alerts b' = alerts b
    /\ drawn b' = (3 + drawn b)%nat
    /\ frameRequests b'
       = frameRequests b
         ++ repeat AnimateLevelBackgroundCallback (S n) ++ [AnimateCallback].
Proof.
  intros Hw Hh. unfold run, FlappyCapy.constructor.
  destruct (restart_returns d fuel
              (FlappyCapy.mk d (Level.mk d [] [] false) (Capy.constructor d) 0 false false)
              b Hw Hh eq_refl)
    as (this0 & b0 & Hr & Hsound
        & (Hd & Hrun & Hscore & _) & (Hcd & Hcx & Hcy & _) & _
        & (fresh & afterLevel & Hc & Hps) & (Hdrawn & Halerts & Hentropy & Hframes)).
  cbn [FlappyCapy.backgroundRunning] in Hframes.
  destruct (idle_then_press d fuel n b afterLevel fresh this0 b0 Hw Hh Hc) as (this & Hrest & Hfields).
  { unfold idle. repeat split; assumption. }
  { exact Hsound. }
  rewrite (bind_returns _ _ _ _ _ Hr).
  do 4 eexists. split; [exact Hrest |]. split; [exact Hc |].
  destruct Hfields as (H1 & H2 & H3 & H4 & H5 & H6).
  cbn [alerts drawn frameRequests].
  repeat split; try assumption.
  rewrite Hframes, <- app_assoc. reflexivity.
Qed.

(* ------------------------------------------------------------------ *)
(** * Level: drawing the pipes *)

Lemma mapAccum_drawPipe (ps : list Pipe.t) (ctx : Canvas.t) :
  mapAccum (fun pipe ctx => (pipe, drawPipe pipe ctx)) ps ctx
  = (ps, ctx ++ concat (map (fun pipe => drawPipe pipe []) ps)).
Proof.
  revert ctx. induction ps as [| p ps IH]; intros ctx; cbn [mapAccum map concat].
  - rewrite app_nil_r. reflexivity.
  - rewrite IH. unfold drawPipe, Canvas.drawImage. cbn [app].
    rewrite <- !app_assoc. reflexivity.
Qed.

Lemma pow2_minus_52 : pow2 (-52) == 1 # 4503599627370496.
Proof. vm_compute. reflexivity. Qed.

Lemma pow2_minus_53 : pow2 (-53) == 1 # 9007199254740992.
Proof. vm_compute. reflexivity. Qed.

(** The offsets [drawPipes] computes for a pair of the shape [randomPipe]
    gives, and the roundings in them. *)
Lemma drawPipe_offsets (d : Dimensions) (pipe : Pipe.t) :
  pixels (height d) ->
  wellShaped d pipe ->
  exists dyTop dyBottom,
    drawPipe pipe []
    = [Canvas.mkDrawImage Canvas.TopPipePng (Rect.left (Pipe.topPipe pipe)) dyTop;
       Canvas.mkDrawImage Canvas.BottomPipePng (Rect.left (Pipe.bottomPipe pipe)) dyBottom]
    /\ Qabs (dyTop + CONSTANTS.PIPE_IMAGE_HEIGHT - gapTop pipe)
       <= (height d + CONSTANTS.PIPE_IMAGE_HEIGHT) * pow2 (-53)
    /\ Qabs (dyBottom - (gapBottom pipe + (CONSTANTS.PIPE_IMAGE_HEIGHT - height d)))
       <= (height d + CONSTANTS.PIPE_IMAGE_HEIGHT) * pow2 (-52).
Proof.
  intros (n & Hn & Hh) (Htop & Hbottom & _ & _ & _ & Hgb & Hgap & Hlow & Hhigh & Hdouble).
  do 2 eexists. split; [reflexivity |]. unfold sub64.
  apply Qabs_Qle_condition in Hgap. rewrite pow2_minus_53 in Hgap.
  unfold gapTop, gapBottom in *.
  set (gt := Rect.bottom (Pipe.topPipe pipe)) in *.
  set (gb := Rect.top (Pipe.bottomPipe pipe)) in *.
  set (h := height d) in *.
  unfold CONSTANTS.PIPE_IMAGE_HEIGHT, CONSTANTS.EDGE_BUFFER, CONSTANTS.PIPE_GAP in *.
  assert (Hh0 : 0 <= h).
  { rewrite Hh. change 0 with (inject_Z 0). rewrite <- Zle_Qle. lia. }
  assert (Hh1 : h <= 4294967296).
  { rewrite Hh. change 4294967296 with (inject_Z (2 ^ 32)). rewrite <- Zle_Qle. lia. }
  assert (Hnormal : pow2 (-1022) <= h + 640).
  { apply (Qle_trans _ 1); [| lra]. change 1 with (pow2 0). apply pow2_le. lia. }
  assert (Hgb200 : 200 <= gb).
  { rewrite Hgb. apply (round64_ge 200); [apply (isDouble_Z 200); lia | lra]. }
  assert (E200 : inject_Z (n - 200) == h - 200) by (rewrite Hh, inject_Z_sub; reflexivity).
  assert (Hn250 : (250 <= n)%Z).
  { assert (H : inject_Z 250 <= inject_Z n)
      by (rewrite <- Hh; change (inject_Z 250) with 250; lra).
    rewrite <- Zle_Qle in H. exact H. }
  (* the top image *)
  assert (Eot : round64 (gt - Rect.top (Pipe.topPipe pipe)) == gt).
  { assert (E : gt - Rect.top (Pipe.topPipe pipe) == gt) by (rewrite Htop; ring).
    rewrite E. exact Hdouble. }
  split.
  - rewrite Eot.
    assert (E : round64 (gt - 640) + 640 - gt == round64 (gt - 640) - (gt - 640)) by ring.
    rewrite E. apply round64_error_bound; [exact Hnormal |].
    apply Qabs_Qle_condition.
    split; lra.
  - (* the bottom image *)
    assert (Eob : Rect.bottom (Pipe.bottomPipe pipe) - gb == h - gb)
      by (rewrite Hbottom; reflexivity).
    rewrite Eob.
    set (offset := round64 (h - gb)).
    assert (Ho0 : 50 <= offset).
    { apply (round64_ge 50); [apply (isDouble_Z 50); lia | lra]. }
    assert (Ho1 : offset <= h - 200).
    { rewrite <- E200. apply round64_le_double; [apply isDouble_Z; lia |].
      rewrite E200. lra. }
    assert (Herr1 : Qabs (offset - (h - gb)) <= (h + 640) * pow2 (-53)).
    { apply round64_error_bound; [exact Hnormal |].
      apply Qabs_Qle_condition. split; lra. }
    assert (Herr2 : Qabs (round64 (640 - offset) - (640 - offset))
                    <= (h + 640) * pow2 (-53)).
    { apply round64_error_bound; [exact Hnormal |].
      apply Qabs_Qle_condition. split; lra. }
    apply Qabs_Qle_condition in Herr1. apply Qabs_Qle_condition in Herr2.
    rewrite pow2_minus_53 in Herr1, Herr2. rewrite pow2_minus_52.
    apply Qabs_Qle_condition. split; lra.
Qed.

Lemma drawPipe_wellShaped (d : Dimensions) (pipe : Pipe.t) :
  pixels (height d) -> wellShaped d pipe -> drawnAtGap d pipe (drawPipe pipe []).
Proof.
  intros Hpx Hws.
  destruct (drawPipe_offsets d pipe Hpx Hws) as (dyTop & dyBottom & -> & Ht & Hb).
  destruct Hws as (_ & _ & Hleft & _).
  unfold drawnAtGap. cbn [Canvas.image Canvas.dx Canvas.dy]. unfold leftEdge in *.
  split; [reflexivity |]. split; [reflexivity |]. split; [reflexivity |].
  split; [exact Hleft |]. split; [exact Ht | exact Hb].
Qed.

Lemma bottomImageOffset_bounds (d : Dimensions) (pipe : Pipe.t) :
  pixels (height d) ->
  wellShaped d pipe ->
  (height d == CONSTANTS.PIPE_IMAGE_HEIGHT -> bottomImageOffset pipe <= pow2 (-41))
  /\ (~ height d == CONSTANTS.PIPE_IMAGE_HEIGHT -> 1 # 2 < bottomImageOffset pipe).
Proof.
  intros Hpx Hws.
  destruct (drawPipe_offsets d pipe Hpx Hws) as (dyTop & dyBottom & Hcalls & _ & Hb).
  unfold bottomImageOffset. rewrite Hcalls. cbn [Canvas.dy].
  destruct Hpx as (n & Hn & Hh).
  unfold CONSTANTS.PIPE_IMAGE_HEIGHT in *.
  assert (Hh0 : 0 <= height d).
  { rewrite Hh. change 0 with (inject_Z 0). rewrite <- Zle_Qle. lia. }
  assert (Hh1 : height d <= 4294967296).
  { rewrite Hh. change 4294967296 with (inject_Z (2 ^ 32)). rewrite <- Zle_Qle. lia. }
  apply Qabs_Qle_condition in Hb. rewrite pow2_minus_52 in Hb.
  split.
  - intros E. apply Qabs_Qle_condition.
    assert (Ep : pow2 (-41) == 1 # 2199023255552) by (vm_compute; reflexivity).
    rewrite Ep. rewrite E in Hb. split; lra.
  - intros N.
    assert (Hfar : height d <= 639 \/ 641 <= height d).
    { destruct (Z.lt_trichotomy n 640) as [Hlt | [Heq | Hgt]].
      - left. rewrite Hh. change 639 with (inject_Z 639). rewrite <- Zle_Qle. lia.
      - exfalso. apply N. rewrite Hh, Heq. reflexivity.
      - right. rewrite Hh. change 641 with (inject_Z 641). rewrite <- Zle_Qle. lia. }
    destruct Hfar as [Hless | Hmore].
    + apply (Qlt_le_trans _ (dyBottom - gapBottom pipe)); [lra | apply Qle_Qabs].
    + apply (Qlt_le_trans _ (- (dyBottom - gapBottom pipe))); [lra |].
      rewrite <- Qabs_opp. apply Qle_Qabs.
Qed.

(** X12.  [drawPipes(ctx)] on the Level after any number of frames, in a
    field whose height is a whole number of pixels, changes nothing in the
    Level and calls [ctx.drawImage] twice for each pair, front to back,
    top image first, both at the pair's left edge.  The offsets are
    computed in doubles: the top image is placed PIPE_IMAGE_HEIGHT above
    the top of the gap up to one rounding, the bottom image
    PIPE_IMAGE_HEIGHT - height below the bottom of the gap up to two.  So
    the bottom image starts within [2^-41] of the bottom sub-pipe on a
    canvas whose height is PIPE_IMAGE_HEIGHT, and more than half a pixel
    away from it on every other canvas. *)
Theorem drawPipes_places_images_at_the_gap (d : Dimensions) (n : nat) (b : Browser) :
  uniform b ->
  ~ malformed d ->
  pixels (height d) ->
  exists this b',
    levelAfter n d b = Returns (this, b')
    /\ (forall ctx,
           drawPipes ctx this b'
           = Returns ((this,
                       ctx ++ concat (map (fun pipe => drawPipe pipe []) (Level.pipes this))),
                      b'))
    /\ Forall (fun pipe => drawnAtGap d pipe (drawPipe pipe [])) (Level.pipes this)
    /\ (height d == CONSTANTS.PIPE_IMAGE_HEIGHT ->
        Forall (fun pipe => bottomImageOffset pipe <= pow2 (-41)) (Level.pipes this))
    /\ (~ height d == CONSTANTS.PIPE_IMAGE_HEIGHT ->
        Forall (fun pipe => 1 # 2 < bottomImageOffset pipe) (Level.pipes this)).
Proof.
  intros Hu Hok Hpx.
  destruct (constructor_returns d b) as (p0 & p1 & p2 & Hc & _).
  pose proof (constructor_wellShaped d b _ _ Hu Hok Hpx Hc) as Hfresh.
  destruct (frames_wellShaped
              d n (Level.mk d [p0; p1; p2] [mkBackground (480 - 1920)] true)
              (mkBrowser (entropy b) (3 + drawn b) (alerts b) (frameRequests b))
              Hok Hpx Hu eq_refl eq_refl Hfresh)
    as (this & b' & Hf & _ & Hlen & Hws).
  exists this, b'.
  split; [unfold levelAfter; rewrite (bind_returns _ _ _ _ _ Hc); exact Hf |].
  split; [| split; [| split]].
  - intros ctx. unfold drawPipes.
    rewrite (eachPipe_pure _ (fun pipe ctx => (pipe, drawPipe pipe ctx))) by reflexivity.
    rewrite mapAccum_drawPipe. cbn [fst snd]. rewrite set_pipes_same. reflexivity.
  - eapply Forall_impl; [| exact Hws]. intros pipe. apply drawPipe_wellShaped. exact Hpx.
  - intros E. eapply Forall_impl; [| exact Hws]. intros pipe Hp.
    apply (proj1 (bottomImageOffset_bounds d pipe Hpx Hp) E).
  - intros N. eapply Forall_impl; [| exact Hws]. intros pipe Hp.
    apply (proj2 (bottomImageOffset_bounds d pipe Hpx Hp) N).
Qed.

(* ------------------------------------------------------------------ *)
(** * Further statements at concrete inputs *)

Lemma moveCapy_flight_witness :
  Capy.vel (Nat.iter 61 Capy.moveCapy (Capy.constructor Scenario.canvas))
  == CONST.TERMINAL_VEL.
Proof.
  destruct (moveCapy_flight (Capy.constructor Scenario.canvas) 61) as (_ & _ & Hlate & _);
    [vm_compute; discriminate |].
  apply Hlate. lia.
Defined.

Lemma movePipes_on_any_number_of_pairs_witness :
  Level.movePipes (Level.set_pipes Scenario.level [Scenario.pipeAt (-48) true 3])
                  Scenario.browser
  = Throws TypeError.
Proof.
  apply (proj1 (proj2 (proj2 (movePipes_on_any_number_of_pairs
                                (Level.set_pipes Scenario.level [Scenario.pipeAt (-48) true 3])
                                Scenario.browser)))
               (Scenario.pipeAt (-48) true 3) []).
  - reflexivity.
  - vm_compute. discriminate.
  - cbn. lia.
Defined.

Lemma drawCapy_counter_cycles_witness :
  Capy.drawCapy Play.capyPastSprites Scenario.browser = Throws TypeError.
Proof.
  apply (proj1 (proj2 (drawCapy_counter_cycles Scenario.canvas [] Scenario.browser)
                      Play.capyPastSprites)).
  vm_compute. reflexivity.
Defined.

Lemma moveAnimatedBackground_covers_canvas_witness :
  Level.moveAnimatedBackground (Level.set_backgroundQueue Scenario.level [])
                               Scenario.browser
  = Throws TypeError.
Proof.
  apply (proj2 (moveAnimatedBackground_covers_canvas Scenario.canvas 0 Scenario.browser)).
  reflexivity.
Defined.

Lemma pairs_keep_their_shape_witness :
  exists this b',
    levelAfter 3 Scenario.canvas Scenario.browser = Returns (this, b')
    /\ Forall (wellShaped Scenario.canvas) (Level.pipes this).
Proof.
  destruct (pairs_keep_their_shape Scenario.canvas 3 Scenario.browser)
    as (this & b' & Hl & _ & _ & Hws).
  - intros n. split; vm_compute; [discriminate | reflexivity].
  - vm_compute. discriminate.
  - exists 640%Z. split; [lia | reflexivity].
  - exists this, b'. split; assumption.
Defined.

Lemma pairs_leave_at_zero_and_enter_at_610_witness :
  exists this b',
    levelAfter 4 Scenario.canvas Scenario.browser = Returns (this, b')
    /\ inView this.
Proof.
  destruct (pairs_leave_at_zero_and_enter_at_610 Scenario.canvas 4 Scenario.browser)
    as (this & b' & Hl & Hin & _).
  - vm_compute. discriminate.
  - exists this, b'. split; assumption.
Defined.

Lemma constructor_starts_idle_witness :
  exists this b',
    FlappyCapy.constructor 1 Scenario.canvas Scenario.browser = Returns (this, b')
    /\ freshlyRestarted Scenario.canvas Scenario.browser false this b'.
Proof.
  apply (constructor_starts_idle Scenario.canvas 0 Scenario.browser);
    vm_compute; discriminate.
Defined.

Lemma constructor_never_ends_on_low_canvas_witness :
  FlappyCapy.constructor 5 Play.tinyCanvas Scenario.browser = OutOfFuel.
Proof.
  apply constructor_never_ends_on_low_canvas. vm_compute. reflexivity.
Defined.

Lemma animate_scores_passed_pairs_witness :
  exists this' b',
    FlappyCapy.animate 1 Play.game Scenario.browser = Returns (this', b')
    /\ FlappyCapy.score this' == 5
    /\ frameRequests b' = [AnimateCallback].
Proof.
  destruct (animate_scores_passed_pairs 0 Play.game
              (FlappyCapy.set_level Play.game Play.moved)
              Scenario.browser Scenario.browser Scenario.browser Play.moved)
    as (this' & Ha & _ & Hscore & _).
  - vm_compute. reflexivity.
  - vm_compute. reflexivity.
  - exists this'. eexists. split; [exact Ha |]. split; [| reflexivity].
    rewrite Hscore. vm_compute. reflexivity.
Defined.

Lemma handlers_return_in_every_reachable_state_witness :
  exists this b this' b',
    run 1 Scenario.canvas [] Scenario.browser = Returns (this, b)
    /\ handle 2 MouseDown this b = Returns (this', b').
Proof.
  do 2 eexists.
  match goal with
  | |- exists this' b', run _ _ _ _ = Returns (?this, ?b) /\ _ =>
      assert (Hrun : run 1 Scenario.canvas [] Scenario.browser = Returns (this, b))
        by (vm_compute; reflexivity);
      destruct (handlers_return_in_every_reachable_state
                  Scenario.canvas this b MouseDown 0)
        as (this' & b' & Hh & _)
  end.
  - vm_compute. discriminate.
  - exists 1%nat, [], Scenario.browser. exact Hrun.
  - exists this', b'. split; [exact Hrun | exact Hh].
Defined.

Lemma first_press_starts_the_game_witness :
  exists this b',
    run 1 Scenario.canvas (repeat backgroundFrame 2 ++ [MouseDown]) Scenario.browser
    = Returns (this, b')
    /\ FlappyCapy.running this = true
    /\ frameRequests b'
       = [AnimateLevelBackgroundCallback; AnimateLevelBackgroundCallback;
          AnimateLevelBackgroundCallback; AnimateCallback].
Proof.
  destruct (first_press_starts_the_game Scenario.canvas 0 2 Scenario.browser)
    as (this & b' & _ & _ & Hrun & _ & Hon & _ & _ & _ & _ & _ & _ & _ & Hframes).
  - vm_compute. discriminate.
  - vm_compute. discriminate.
  - exists this, b'. split; [exact Hrun |]. split; [exact Hon | exact Hframes].
Defined.

Lemma drawPipes_places_images_at_the_gap_witness :
  exists this b',
    levelAfter 1 Scenario.canvas Scenario.browser = Returns (this, b')
    /\ Forall (fun pipe => drawnAtGap Scenario.canvas pipe (drawPipe pipe []))
              (Level.pipes this).
Proof.
  destruct (drawPipes_places_images_at_the_gap Scenario.canvas 1 Scenario.browser)
    as (this & b' & Hl & _ & Hdrawn & _).
  - intros n. split; vm_compute; [discriminate | reflexivity].
  - vm_compute. discriminate.
  - exists 640%Z. split; [lia | reflexivity].
  - exists this, b'. split; assumption.
Defined.
